(** * chill_z: image loading, feed handlers and database triggers

    A shallow embedding of the parts of the application that carry logic of
    their own:

    - [Binary64]: the arithmetic of JavaScript numbers;
    - [LoadManager]: the [ImageLoadManager] class of the [SafeImage]
      component (bounded concurrency, deferred queue);
    - [JS]: the string methods the code calls;
    - [SafeImage]: [getFallbackSources] and [loadImage] (fallback chain,
      retry with exponential backoff), demo mode and the vanilla helper
      [createSafeImageFallback];
    - [FeedCard]: the event handlers of the feed card (likes, comments,
      deletion, pinning) over an explicit model of provider calls;
    - [Database], [Batch], [PairTable]: the SQL migrations (tables,
      defaults, row-level-security policies, triggers and the trigger
      function [award_post_points]);
    - [Composer], [Home]: the row a new post is inserted with, the top bar
      and the age of a post on the home page.

    Part I holds the definitions, Part II the theorems, Part III further
    properties of the code. *)

From Stdlib Require Import ZArith List Bool String Ascii Lia QArith.
From Stdlib Require Import Qround Qabs Qpower Qcanon Lqa.
From Stdlib Require Import Numbers.DecimalString.
From Stdlib Require Import Sorting.Permutation.
Import ListNotations.

Set Implicit Arguments.

Local Open Scope Z_scope.

(* ===================================================================== *)
(** * Part I: the model *)
(* ===================================================================== *)

(** ** JavaScript numbers

    A JavaScript number is an IEEE 754 binary64 value, and an arithmetic
    operation gives the binary64 value nearest to the exact result, a tie
    going to the value with the even significand. Finite values are
    rationals here, and [round] is that rounding. *)

Module Binary64.
Local Open Scope Q_scope.

(** [floor(log2 x)] for [x > 0]: the difference of the bit lengths of
    numerator and denominator, or one less. *)
Definition log2_floor (x : Q) : Z :=
  let l := (Z.log2 (Qnum x) - Z.log2 (Zpos (Qden x)))%Z in
  if Qlt_le_dec x (2 ^ l) then (l - 1)%Z else l.

(** The exponent of the last place of [x > 0]: a significand has 53 bits,
    and no exponent is below -1074 (subnormal numbers). *)
Definition exponent (x : Q) : Z := Z.max (log2_floor x - 52) (-1074).

(** The nearest integer, the even one of two that are equally near. *)
Definition nearest_even (m : Q) : Z :=
  let f := Qfloor m in
  match Qcompare (m - inject_Z f) (1 # 2) with
  | Lt => f
  | Eq => if Z.even f then f else (f + 1)%Z
  | Gt => (f + 1)%Z
  end.

Definition round_pos (x : Q) : Q :=
  let e := exponent x in
  inject_Z (nearest_even (x * 2 ^ (- e))) * 2 ^ e.

Definition round_raw (x : Q) : Q :=
  match Qcompare x 0 with
  | Eq => 0
  | Gt => round_pos x
  | Lt => - round_pos (- x)
  end.

(** The nearest binary64 value, with no bound on the exponent from above,
    as a fraction in lowest terms. *)
Definition round (x : Q) : Q := Qred (round_raw x).

(** A number: a finite binary64 value, an infinity or NaN. The sign of a
    zero is not kept. *)
Inductive number : Type :=
| Finite (q : Q)
| Infinity (negative : bool)
| NaN.

Definition negative (q : Q) : bool :=
  if Qlt_le_dec q 0 then true else false.

(** The result of an operation whose exact value is [x]: rounded, and an
    infinity when the rounded value is [2^1024] or more in absolute
    value. *)
Definition fl (x : Q) : number :=
  let r := round x in
  if Qlt_le_dec (Qabs r) (2 ^ 1024) then Finite r else Infinity (negative r).

(** [a * b] *)
Definition mul (a b : number) : number :=
  match a, b with
  | NaN, _ | _, NaN => NaN
  | Finite x, Finite y => fl (x * y)
  | Infinity s, Finite y | Finite y, Infinity s =>
      if Qeq_bool y 0 then NaN else Infinity (xorb s (negative y))
  | Infinity s, Infinity s' => Infinity (xorb s s')
  end.

(** [a + b] *)
Definition add (a b : number) : number :=
  match a, b with
  | NaN, _ | _, NaN => NaN
  | Finite x, Finite y => fl (x + y)
  | Infinity s, Finite _ | Finite _, Infinity s => Infinity s
  | Infinity s, Infinity s' => if Bool.eqb s s' then Infinity s else NaN
  end.

(** [Math.pow(2, n)] for an integer [n >= 0]. *)
Definition pow2 (n : nat) : number := fl (inject_Z (2 ^ Z.of_nat n)).

(** [Math.floor(x / c)] for a finite [x] and an integer [c] other than
    zero, where the quotient is in range. *)
Definition floor_div (x : Q) (c : Z) : Z := Qfloor (round (x / inject_Z c)).

End Binary64.

(** ** ImageLoadManager (components/ui SafeImage) *)

Module LoadManager.
Section WithCallback.

(** The closures handed to [startLoad]: [() => void]. *)
Variable callback : Type.

(** The private fields of the class. [activeLoads] is a JS number that is
    only ever incremented and decremented by one, hence an integer. *)
Record manager : Type := Manager {
  activeLoads : Z;
  maxConcurrent : Z;
  queue : list callback
}.

(** [new ImageLoadManager()] *)
Definition init : manager :=
  {| activeLoads := 0; maxConcurrent := 4; queue := [] |}.

(** What a method does to the outside world: it either calls a closure on
    the spot ([callback()]) or hands it to [setTimeout] with a delay in
    milliseconds. *)
Inductive effect : Type :=
| Call (cb : callback)
| SetTimeout (cb : callback) (delay : Binary64.number).

Definition canLoad (m : manager) : bool :=
  activeLoads m <? maxConcurrent m.

(** [Array.prototype.push] and [Array.prototype.shift] on the queue;
    [shift] of an empty array is [undefined]. *)
Definition push (q : list callback) (cb : callback) : list callback :=
  q ++ [cb].

Definition shift (q : list callback) : option callback * list callback :=
  match q with
  | [] => (None, [])
  | next :: rest => (Some next, rest)
  end.

(** The counter is written before the closure is called and nothing
    follows the call, so whatever the closure does to the manager is a
    later method call of the same sequence. *)
Definition startLoad (cb : callback) (m : manager) : manager * list effect :=
  if canLoad m then
    ({| activeLoads := activeLoads m + 1;
        maxConcurrent := maxConcurrent m;
        queue := queue m |},
     [Call cb])
  else
    ({| activeLoads := activeLoads m;
        maxConcurrent := maxConcurrent m;
        queue := push (queue m) cb |},
     []).

(** [rnd] is the value drawn by [Math.random()] for the stagger, a finite
    number; the delay is [Math.random() * 100]. *)
Definition finishLoad (rnd : Q) (m : manager) : manager * list effect :=
  let active := activeLoads m - 1 in
  if (0 <? List.length (queue m))%nat then
    match shift (queue m) with
    | (Some next, rest) =>
        ({| activeLoads := active + 1;
            maxConcurrent := maxConcurrent m;
            queue := rest |},
         [SetTimeout next
            (Binary64.mul (Binary64.Finite rnd) (Binary64.Finite 100))])
    | (None, rest) =>
        ({| activeLoads := active;
            maxConcurrent := maxConcurrent m;
            queue := rest |},
         [])
    end
  else
    ({| activeLoads := active;
        maxConcurrent := maxConcurrent m;
        queue := queue m |},
     []).

(** A use of the manager is a sequence of method calls. *)
Inductive op : Type :=
| StartLoad (cb : callback)
| FinishLoad (rnd : Q).

Definition step (o : op) (m : manager) : manager * list effect :=
  match o with
  | StartLoad cb => startLoad cb m
  | FinishLoad rnd => finishLoad rnd m
  end.

Fixpoint run (ops : list op) (m : manager) : manager * list effect :=
  match ops with
  | [] => (m, [])
  | o :: rest =>
      let (m1, e1) := step o m in
      let (m2, e2) := run rest m1 in
      (m2, e1 ++ e2)
  end.

Definition final (ops : list op) : manager := fst (run ops init).
Definition effects (ops : list op) : list effect := snd (run ops init).

(** Every effect is the dispatch of one load: the closure is run now or by
    a timer. *)
Definition dispatched (es : list effect) : nat := List.length es.

Fixpoint completions (ops : list op) : nat :=
  match ops with
  | [] => 0
  | StartLoad _ :: rest => completions rest
  | FinishLoad _ :: rest => S (completions rest)
  end.

(** [finishLoad] is only called to complete a load that was dispatched and
    has not been completed yet: [outstanding] counts those loads. *)
Fixpoint disciplined_from (m : manager) (outstanding : nat) (ops : list op)
  : bool :=
  match ops with
  | [] => true
  | StartLoad cb :: rest =>
      let (m1, e1) := startLoad cb m in
      disciplined_from m1 (outstanding + dispatched e1) rest
  | FinishLoad rnd :: rest =>
      match outstanding with
      | O => false
      | S k =>
          let (m1, e1) := finishLoad rnd m in
          disciplined_from m1 (k + dispatched e1) rest
      end
  end.

Definition disciplined (ops : list op) : bool := disciplined_from init 0 ops.

(** The loads in flight after [ops]: dispatched and not yet completed. *)
Definition in_flight (ops : list op) : Z :=
  Z.of_nat (dispatched (effects ops)) - Z.of_nat (completions ops).

(** The closures given to [setTimeout], in the order of the calls. *)
Fixpoint timeouts (es : list effect) : list callback :=
  match es with
  | [] => []
  | Call _ :: rest => timeouts rest
  | SetTimeout cb _ :: rest => cb :: timeouts rest
  end.

(** The closures of the [startLoad] calls that found no free slot, in the
    order of arrival. *)
Fixpoint deferred (ops : list op) (m : manager) : list callback :=
  match ops with
  | [] => []
  | o :: rest =>
      let later := deferred rest (fst (step o m)) in
      match o with
      | StartLoad cb => if canLoad m then later else cb :: later
      | FinishLoad _ => later
      end
  end.

(** The closures called on the spot, in the order of the calls. *)
Fixpoint calls (es : list effect) : list callback :=
  match es with
  | [] => []
  | Call cb :: rest => cb :: calls rest
  | SetTimeout _ _ :: rest => calls rest
  end.

(** The closures given to [startLoad], in the order of arrival. *)
Fixpoint started (ops : list op) : list callback :=
  match ops with
  | [] => []
  | StartLoad cb :: rest => cb :: started rest
  | FinishLoad _ :: rest => started rest
  end.

(** A closure waits only while every slot is taken. *)
Definition full_when_waiting (m : manager) : Prop :=
  queue m <> [] -> maxConcurrent m <= activeLoads m.

End WithCallback.

Arguments init {callback}.
Arguments Call {callback} cb.
Arguments SetTimeout {callback} cb delay.
Arguments StartLoad {callback} cb.
Arguments FinishLoad {callback} rnd.

End LoadManager.

(** ** JavaScript strings

    Strings are byte strings (UTF-8). Only the methods the modelled code
    calls are given, with the behaviour of the ECMAScript methods of the
    same name on a string pattern. *)

Module JS.
Local Open Scope string_scope.

(** Truthiness of a string: only the empty string is falsy. *)
Definition truthy (s : string) : bool := negb (s =? "").

(** [a || b] on an optional string: [undefined] and [''] give [b]. *)
Definition or_else (a : option string) (b : string) : string :=
  match a with
  | Some s => if truthy s then s else b
  | None => b
  end.

(** [if (a)] on an optional string: the branch is taken with a string
    that is neither [undefined] nor empty. *)
Definition if_truthy (a : option string) : option string :=
  match a with
  | Some s => if truthy s then Some s else None
  | None => None
  end.

(** [hay.includes(needle)] *)
Fixpoint includes (needle hay : string) : bool :=
  if prefix needle hay then true
  else match hay with
       | EmptyString => false
       | String _ rest => includes needle rest
       end.

(** [s.split(sep)] for a separator of one character: never empty. *)
Fixpoint split (sep : ascii) (s : string) : list string :=
  match s with
  | EmptyString => [EmptyString]
  | String c rest =>
      if Ascii.eqb c sep then EmptyString :: split sep rest
      else match split sep rest with
           | [] => [String c EmptyString]
           | piece :: pieces => String c piece :: pieces
           end
  end.

(** [parts.pop()]: the last element, [undefined] on an empty array. *)
Fixpoint pop (parts : list string) : option string :=
  match parts with
  | [] => None
  | [x] => Some x
  | _ :: rest => pop rest
  end.

Fixpoint drop (n : nat) (s : string) : string :=
  match n, s with
  | O, _ => s
  | S _, EmptyString => EmptyString
  | S k, String _ rest => drop k rest
  end.

(** [s.replace(pattern, by)] with a string pattern: the first occurrence
    only. *)
Fixpoint replace (pattern by_ s : string) : string :=
  if prefix pattern s then by_ ++ drop (String.length pattern) s
  else match s with
       | EmptyString => EmptyString
       | String c rest => String c (replace pattern by_ rest)
       end.

(** [parts.join(sep)] *)
Fixpoint join (sep : string) (parts : list string) : string :=
  match parts with
  | [] => EmptyString
  | [x] => x
  | x :: rest => x ++ sep ++ join sep rest
  end.

(** [parts.slice(-n)]: the last [n] elements, all of them if fewer. *)
Definition slice_last (n : nat) (parts : list string) : list string :=
  skipn (List.length parts - n) parts.

(** Line terminators of a regular expression's [.]: LF, CR and the
    UTF-8 encodings of U+2028 and U+2029. *)
Definition LS : string :=
  String (ascii_of_nat 226) (String (ascii_of_nat 128)
    (String (ascii_of_nat 168) EmptyString)).
Definition PS : string :=
  String (ascii_of_nat 226) (String (ascii_of_nat 128)
    (String (ascii_of_nat 169) EmptyString)).

Definition at_line_terminator (s : string) : bool :=
  match s with
  | EmptyString => false
  | String c _ =>
      Ascii.eqb c (ascii_of_nat 10) || Ascii.eqb c (ascii_of_nat 13)
      || prefix LS s || prefix PS s
  end.

(** The longest run matched by [.+] (or [.*]) at the start of [s]. *)
Fixpoint dots (s : string) : string :=
  if at_line_terminator s then EmptyString
  else match s with
       | EmptyString => EmptyString
       | String c rest => String c (dots rest)
       end.

(** [s.match(/\?(.+)/)] reduced to its capture group [match[1]]: the
    leftmost ['?'] that is followed by a character other than a line
    terminator, and everything after it up to the end of the line. *)
Fixpoint match_query (s : string) : option string :=
  match s with
  | EmptyString => None
  | String c rest =>
      if Ascii.eqb c "?"%char then
        match dots rest with
        | EmptyString => match_query rest
        | captured => Some captured
        end
      else match_query rest
  end.

(** The string of the bytes [bytes]. *)
Definition utf8 (bytes : list nat) : string :=
  fold_right (fun b s => String (ascii_of_nat b) s) EmptyString bytes.

(** The white space and the line terminators of ECMAScript, in UTF-8:
    U+0009 to U+000D, U+0020, U+00A0, U+1680, U+2000 to U+200A, U+2028,
    U+2029, U+202F, U+205F, U+3000 and U+FEFF. *)
Definition white_space : list string :=
  map utf8
    [ [9]; [10]; [11]; [12]; [13]; [32];
      [194; 160];
      [225; 154; 128];
      [226; 128; 128]; [226; 128; 129]; [226; 128; 130]; [226; 128; 131];
      [226; 128; 132]; [226; 128; 133]; [226; 128; 134]; [226; 128; 135];
      [226; 128; 136]; [226; 128; 137]; [226; 128; 138];
      [226; 128; 168]; [226; 128; 169]; [226; 128; 175];
      [226; 129; 159];
      [227; 128; 128];
      [239; 187; 191] ]%nat.

(** [s] without the character it starts with, when that is one of
    [spaces]. *)
Fixpoint skip_one (spaces : list string) (s : string) : option string :=
  match spaces with
  | [] => None
  | w :: others =>
      if prefix w s then Some (drop (String.length w) s)
      else skip_one others s
  end.

(** [s] without the run of [spaces] it starts with; every step takes at
    least one byte, so the length of [s] is fuel enough. *)
Fixpoint skip (spaces : list string) (fuel : nat) (s : string) : string :=
  match fuel with
  | O => s
  | S k =>
      match skip_one spaces s with
      | Some rest => skip spaces k rest
      | None => s
      end
  end.

Definition reverse (s : string) : string :=
  string_of_list_ascii (rev (list_ascii_of_string s)).

Definition trim_start (s : string) : string :=
  skip white_space (String.length s) s.

Definition trim_end (s : string) : string :=
  reverse (skip (map reverse white_space) (String.length s) (reverse s)).

(** [s.trim()] *)
Definition trim (s : string) : string := trim_end (trim_start s).

(** [`${n}`] for a non-negative integer. *)
Definition of_nat (n : nat) : string :=
  NilEmpty.string_of_uint (Nat.to_uint n).

End JS.

(** ** SafeImage (components/ui) *)

Module SafeImage.
Local Open Scope string_scope.

Definition FALLBACK_AVATAR : string := "/assets/img/avatar-fallback.png".
Definition FALLBACK_IMAGE : string := "/assets/img/fallback-400x300.png".

Section WithBrowser.

(** Built-ins of the browser: [encodeURIComponent], and
    [new URLSearchParams(query).get(key)]. *)
Variable encodeURIComponent : string -> string.
Variable URLSearchParams_get : string -> string -> option string.

Definition getAvatarFallbacks (username : string) : list string :=
  [ "https://api.dicebear.com/7.x/avataaars/svg?seed="
      ++ encodeURIComponent username;
    "https://i.pravatar.cc/150?u=" ++ encodeURIComponent username;
    FALLBACK_AVATAR ].

Definition getBrandLogoFallbacks (domain : string) : list string :=
  [ "https://logo.clearbit.com/" ++ domain;
    "/assets/logos/local-"
      ++ JS.replace "." "-" (JS.replace ".com" "" domain) ++ ".png";
    "/assets/logos/default.png" ].

Definition getContentImageFallbacks (seed : nat) (topic : option string)
  : list string :=
  let fallbacks : list string := [] in
  let fallbacks :=
    match topic with
    | Some t =>
        if JS.truthy t then
          List.app fallbacks
            ["https://source.unsplash.com/800x600/?" ++ encodeURIComponent t]
        else fallbacks
    | None => fallbacks
    end in
  let fallbacks :=
    List.app fallbacks
      ["https://picsum.photos/800/600?random=" ++ JS.of_nat seed] in
  List.app fallbacks [FALLBACK_IMAGE].

(** [fallback] is the optional prop of the component; [randomSeed] is the
    value of [Math.floor(Math.random() * 1000)], drawn in the content-image
    branch only. *)
Definition getFallbackSources (fallback : option string) (randomSeed : nat)
    (originalSrc : string) : list string :=
  match JS.if_truthy fallback with
  | Some f => [originalSrc; f]
  | None =>
  if JS.includes "supabase.co/storage" originalSrc then
    [originalSrc]
  else if JS.includes "logo.clearbit.com" originalSrc then
    let domain := JS.or_else (JS.pop (JS.split "/" originalSrc)) "" in
    getBrandLogoFallbacks domain
  else if JS.includes "dicebear.com" originalSrc
          || JS.includes "pravatar.cc" originalSrc then
    let query := JS.or_else (nth_error (JS.split "?" originalSrc) 1) "" in
    let seed :=
      JS.or_else (URLSearchParams_get query "seed")
        (JS.or_else (URLSearchParams_get query "u") "default") in
    getAvatarFallbacks seed
  else if JS.includes "unsplash.com" originalSrc
          || JS.includes "picsum.photos" originalSrc then
    let topic :=
      if JS.includes "unsplash.com" originalSrc
      then JS.match_query originalSrc else None in
    getContentImageFallbacks randomSeed topic
  else
    [originalSrc; FALLBACK_IMAGE]
  end.

(** *** loadImage

    The component's asynchronous code is laid out in time: a run of
    [loadImage] is the list of what it does, in order, and how its promise
    settles. What the outside world decides for the attempt [attempt] on
    the source [src] is read from an oracle: the answer of the HEAD check
    ([checkImageUrl]), whether the image element fires [onload] or
    [onerror], and the number drawn by [Math.random()] for the backoff.
    Delays are numbers, in milliseconds. *)

Record attempt_env : Type := {
  url_ok : bool;
  img_ok : bool;
  rnd : Q
}.

Definition oracle : Type := string -> nat -> attempt_env.

Inductive event : Type :=
| SetCurrentSrc (s : string)
| SetIsLoading (b : bool)
| SetError (e : option string)
| SetRetryCount
| LoadManagerStart (src : string) (attempt : nat)
| LoadManagerFinish
| ConsoleWarn (msg : string)
| OnLoad
| OnError (msg : string)
| SetTimeoutRetry (src : string) (attempt : nat) (delay : Binary64.number).

(** How the promise returned by [loadImage] settles; [Unsettled] is a
    promise that is still waiting for a retry. *)
Inductive outcome : Type :=
| Resolved
| Rejected (msg : string)
| Unsettled.

(** How one attempt ends. *)
Inductive verdict : Type :=
| Resolve
| Reject (msg : string)
| Retry (delay : Binary64.number).

(** The props [maxRetries] (default 3) and the low-bandwidth switch. *)
Variable maxRetries : Z.
Variable effectiveLowBandwidth : bool.
Variable env : oracle.

(** [Math.pow(2, attempt) * 1000] *)
Definition backoff_base (attempt : nat) : Binary64.number :=
  Binary64.mul (Binary64.pow2 attempt) (Binary64.Finite 1000).

(** [Math.random() * 1000], for the value [r] drawn by [Math.random()] *)
Definition jitter (r : Q) : Binary64.number :=
  Binary64.mul (Binary64.Finite r) (Binary64.Finite 1000).

(** [Math.pow(2, attempt) * 1000 + Math.random() * 1000] *)
Definition retry_delay (attempt : nat) (r : Q) : Binary64.number :=
  Binary64.add (backoff_base attempt) (jitter r).

(** The closure given to [loadManager.startLoad], from the moment the
    manager runs it. *)
Definition loadCallback (srcToLoad : string) (attempt : nat)
  : list event * verdict :=
  let e := env srcToLoad attempt in
  let started := [SetIsLoading true; SetError None] in
  if negb (url_ok e) && (attempt =? 0)%nat then
    (* throw new Error('URL validation failed'), caught below *)
    let errorMsg := "URL validation failed" in
    (List.app started
       [LoadManagerFinish; ConsoleWarn ("[SafeImage] " ++ errorMsg);
        SetError (Some errorMsg); OnError errorMsg],
     Reject errorMsg)
  else if img_ok e then
    (* img.onload *)
    (List.app started
       [LoadManagerFinish; SetCurrentSrc srcToLoad; SetIsLoading false;
        SetError None; OnLoad],
     Resolve)
  else
    (* img.onerror *)
    let errorMsg := "Failed to load image: " ++ srcToLoad in
    let failed :=
      [LoadManagerFinish;
       ConsoleWarn ("[SafeImage] " ++ errorMsg ++ " (attempt "
                    ++ JS.of_nat (attempt + 1) ++ ")")] in
    if (Z.of_nat attempt <? maxRetries)%Z then
      (List.app started failed, Retry (retry_delay attempt (rnd e)))
    else
      (List.app started
         (List.app failed [SetError (Some errorMsg); OnError errorMsg]),
       Reject errorMsg).

(** [fuel] bounds the number of retries that are followed. *)
Fixpoint loadImage_from (fuel : nat) (srcToLoad : string) (attempt : nat)
  : list event * outcome :=
  if effectiveLowBandwidth && (attempt =? 0)%nat then
    ([SetCurrentSrc FALLBACK_IMAGE; SetIsLoading false], Resolved)
  else
    let (events, v) := loadCallback srcToLoad attempt in
    let events := LoadManagerStart srcToLoad attempt :: events in
    match v with
    | Resolve => (events, Resolved)
    | Reject msg => (events, Rejected msg)
    | Retry delay =>
        let timer := SetTimeoutRetry srcToLoad (attempt + 1) delay in
        match fuel with
        | O => (List.app events [timer], Unsettled)
        | S fuel' =>
            let (later, settled) :=
              loadImage_from fuel' srcToLoad (attempt + 1) in
            (List.app events (timer :: SetRetryCount :: later), settled)
        end
    end.

(** A retry is only scheduled below [maxRetries], so this much fuel is
    never used up (see [loadImage_settles]). *)
Definition loadImage (srcToLoad : string) (attempt : nat)
  : list event * outcome :=
  loadImage_from (Z.to_nat maxRetries - attempt) srcToLoad attempt.

(** The loop of [loadWithFallbacks] over the sources. *)
Fixpoint tryEach (sources : list string) : list event :=
  match sources with
  | [] => []
  | source :: rest =>
      let (events, settled) := loadImage source 0 in
      match settled with
      | Resolved => events
      | Unsettled => events
      | Rejected _ =>
          match rest with
          | [] =>
              List.app events
                [SetCurrentSrc ""; SetIsLoading false;
                 SetError (Some "All image sources failed")]
          | _ => List.app events (tryEach rest)
          end
      end
  end.

Definition loadWithFallbacks (fallback : option string) (randomSeed : nat)
    (src : string) : list event :=
  tryEach (getFallbackSources fallback randomSeed src).

(** The retries scheduled in a run: attempt number and delay. *)
Fixpoint retries (events : list event)
  : list (string * nat * Binary64.number) :=
  match events with
  | [] => []
  | SetTimeoutRetry src attempt delay :: rest =>
      (src, attempt, delay) :: retries rest
  | _ :: rest => retries rest
  end.

(** The calls of [loadManager.finishLoad()] in a run. *)
Fixpoint finishes (events : list event) : nat :=
  match events with
  | [] => 0
  | LoadManagerFinish :: rest => S (finishes rest)
  | _ :: rest => finishes rest
  end.

(** The sources a load was started for. *)
Fixpoint loads_started (events : list event) : list string :=
  match events with
  | [] => []
  | LoadManagerStart src _ :: rest => src :: loads_started rest
  | _ :: rest => loads_started rest
  end.

Definition attempt_failed (v : verdict) : bool :=
  match v with
  | Resolve => false
  | Reject _ | Retry _ => true
  end.

(** The slots of the load manager a run holds: a load that is started
    takes one, [loadManager.finishLoad()] gives one back. [None] when a
    slot is given back that was not taken. *)
Fixpoint slots (held : nat) (events : list event) : option nat :=
  match events with
  | [] => Some held
  | LoadManagerStart _ _ :: rest => slots (S held) rest
  | LoadManagerFinish :: rest =>
      match held with
      | O => None
      | S k => slots k rest
      end
  | _ :: rest => slots held rest
  end.

(** The effect that loads the image: [if (isInView && src)
    loadWithFallbacks()]. *)
Definition loadWhenInView (isInView : bool) (fallback : option string)
    (randomSeed : nat) (src : string) : list event :=
  if isInView && JS.truthy src then loadWithFallbacks fallback randomSeed src
  else [].

End WithBrowser.

(** *** Demo mode *)

Definition is_true_string (v : option string) : bool :=
  match v with
  | Some s => s =? "true"
  | None => false
  end.

(** [isDemoMode()]: [VITE_DEMO_LOW_BANDWIDTH] is the build-time variable
    (or [undefined]), [demo_low_bandwidth] the entry of [localStorage]
    (or [null]). *)
Definition isDemoMode (VITE_DEMO_LOW_BANDWIDTH demo_low_bandwidth : option string)
  : bool :=
  is_true_string VITE_DEMO_LOW_BANDWIDTH || is_true_string demo_low_bandwidth.

(** [demoSkipIndex] is the optional prop, the position of the image in the
    feed. *)
Definition shouldSkipInDemo (demoMode : bool) (demoSkipIndex : option Z)
  : bool :=
  demoMode &&
  match demoSkipIndex with
  | Some i => (2 <? i)%Z
  | None => false
  end.

Definition effectiveLowBandwidth_of (lowBandwidth demoMode : bool)
    (demoSkipIndex : option Z) : bool :=
  lowBandwidth || shouldSkipInDemo demoMode demoSkipIndex.

(** *** createSafeImageFallback

    The state of the closure: the counter [attempts] and the [src] of the
    image element it watches. *)

Record fallback_state : Type := {
  attempts : nat;
  img_src : string
}.

Inductive fallback_effect : Type :=
| RetrySameUrl (delay : Z)
| SetSrc (s : string).

Definition maxAttempts : nat := 3.

(** The listener of the [error] event. [RetrySameUrl d] is
    [setTimeout(() => { img.src = img.src }, d)]. *)
Definition handleError (fallbackSrc : string) (st : fallback_state)
  : fallback_state * list fallback_effect :=
  let attempts := (attempts st + 1)%nat in
  if (attempts <? maxAttempts)%nat then
    ({| attempts := attempts; img_src := img_src st |},
     [RetrySameUrl (2 ^ Z.of_nat attempts * 1000)])
  else if JS.truthy fallbackSrc then
    ({| attempts := attempts; img_src := fallbackSrc |}, [SetSrc fallbackSrc])
  else
    ({| attempts := attempts; img_src := img_src st |}, []).

(** [n] [error] events in a row. *)
Fixpoint errors (n : nat) (fallbackSrc : string) (st : fallback_state)
  : fallback_state * list fallback_effect :=
  match n with
  | O => (st, [])
  | S k =>
      let (st1, e1) := handleError fallbackSrc st in
      let (st2, e2) := errors k fallbackSrc st1 in
      (st2, List.app e1 e2)
  end.

End SafeImage.

(** ** FeedCard (components/feed): the event handlers

    A handler is laid out in time like [loadImage]: what it does, in order,
    and how its promise settles. Calls to the provider go through a
    [backend] that says, for each request, whether the promise of the call
    is fulfilled (and with which value) or rejected. *)

Module FeedCard.
Local Open Scope string_scope.

(** The requests the handlers send through the [supabase] client. Rows
    and filters are lists of column and value. *)
Inductive request : Type :=
| AuthGetUser
| Insert (table : string) (row : list (string * string))
| Delete (table : string) (filters : list (string * string))
| SelectSingle (table columns : string) (filters : list (string * string))
| StorageRemove (bucket : option string) (paths : list string).

(** The value a call is fulfilled with: the fields the handlers read.
    [user] is [data.user?.id] of [auth.getUser()], [display_name] is
    [data?.display_name] of the profile query, [error] is the [error]
    field of the result. *)
Record response : Type := {
  user : option string;
  display_name : option string;
  error : option string
}.

Inductive settled : Type :=
| Fulfilled (value : response)
| Rejects (reason : string).

Definition backend : Type := request -> settled.

Inductive event : Type :=
| Request (r : request)
| Toast (title description : string) (variant : option string)
| ConsoleError (msg : string)
| SetNewComment (s : string)
| SetSubmittingComment (b : bool)
| SetDeleting (b : bool)
| SetShowDeleteDialog (b : bool)
| SetIsPinned (b : bool)
| SetPinning (b : bool)
| OnPostDeleted (postId : string).

(** An asynchronous computation: its trace, and either the exception it
    ends with ([inl], a rejected promise) or its value ([inr]). *)
Definition M (A : Type) : Type := (list event * (string + A))%type.

Definition ret {A} (a : A) : M A := ([], inr a).

Definition bind {A B} (c : M A) (k : A -> M B) : M B :=
  match c with
  | (t, inl e) => (t, inl e)
  | (t, inr a) => let (t', r) := k a in (List.app t t', r)
  end.

Definition emit (e : event) : M unit := ([e], inr tt).

Definition throw {A} (e : string) : M A := ([], inl e).

(** [await supabase...]: the request is sent, then the promise settles. *)
Definition call (be : backend) (r : request) : M response :=
  ([Request r],
   match be r with
   | Fulfilled v => inr v
   | Rejects e => inl e
   end).

(** [try { body } catch (error) { handler }] *)
Definition try_catch (body : M unit) (handler : string -> M unit) : M unit :=
  match body with
  | (t, inl e) => let (t', r) := handler e in (List.app t t', r)
  | (t, inr a) => (t, inr a)
  end.

(** [try { body } finally { cleanup }]: the cleanup runs either way and
    the outcome of the body stands. *)
Definition try_finally (body : M unit) (cleanup : M unit) : M unit :=
  match body, cleanup with
  | (t, r), (t', inr _) => (List.app t t', r)
  | (t, _), (t', inl e) => (List.app t t', inl e)
  end.

Declare Scope handler_scope.
Delimit Scope handler_scope with handler.
Notation "x <- c ;; k" := (bind c (fun x => k))
  (at level 61, c at next level, right associativity) : handler_scope.
Notation "c ;; k" := (bind c (fun _ => k))
  (at level 61, right associativity) : handler_scope.
Local Open Scope handler_scope.

Definition toast (title description : string) (variant : option string)
  : M unit :=
  emit (Toast title description variant).

Definition destructive : option string := Some "destructive".

(** The props and state a handler reads. *)
Record post : Type := {
  id : string;
  authorId : string;
  content_url : option string
}.

Definition handleLike (be : backend) (p : post) (isLiked : bool) : M unit :=
  r <- call be AuthGetUser ;;
  match user r with
  | None =>
      toast "Not authenticated" "Please log in to like posts" destructive
  | Some uid =>
      try_catch
        (if isLiked then
           (* Unlike *)
           call be (Delete "likes" [("post_id", id p); ("user_id", uid)]) ;;
           ret tt
         else
           (* Like *)
           call be (Insert "likes" [("post_id", id p); ("user_id", uid)]) ;;
           (* Create notification if not liking own post *)
           if negb (uid =? authorId p) then
             profile <- call be (SelectSingle "profiles" "display_name"
                                   [("user_id", uid)]) ;;
             call be (Insert "notifications"
                        [("user_id", authorId p);
                         ("type", "like");
                         ("title", "New Like");
                         ("message",
                          JS.or_else (display_name profile) "Someone"
                          ++ " liked your post");
                         ("actor_id", uid);
                         ("post_id", id p)]) ;;
             ret tt
           else ret tt)
        (fun _ =>
           emit (ConsoleError "Error toggling like:") ;;
           toast "Error" "Failed to update like" destructive)
  end.

Definition handleAddComment (be : backend) (p : post) (newComment : string)
  : M unit :=
  if negb (JS.truthy (JS.trim newComment)) then ret tt
  else
    r <- call be AuthGetUser ;;
    match user r with
    | None =>
        toast "Not authenticated" "Please log in to comment" destructive
    | Some uid =>
        emit (SetSubmittingComment true) ;;
        try_finally
          (try_catch
             (res <- call be (Insert "comments"
                                [("post_id", id p);
                                 ("user_id", uid);
                                 ("content", JS.trim newComment)]) ;;
              match error res with
              | Some e => throw e
              | None => ret tt
              end ;;
              (* Create notification if not commenting on own post *)
              (if negb (uid =? authorId p) then
                 profile <- call be (SelectSingle "profiles" "display_name"
                                       [("user_id", uid)]) ;;
                 call be (Insert "notifications"
                            [("user_id", authorId p);
                             ("type", "comment");
                             ("title", "New Comment");
                             ("message",
                              JS.or_else (display_name profile) "Someone"
                              ++ " commented on your post");
                             ("actor_id", uid);
                             ("post_id", id p)]) ;;
                 ret tt
               else ret tt) ;;
              emit (SetNewComment "") ;;
              toast "Comment added" "Your comment has been posted" None)
             (fun _ =>
                emit (ConsoleError "Error adding comment:") ;;
                toast "Error" "Failed to add comment" destructive))
          (emit (SetSubmittingComment false))
    end.

Definition handleDeleteComment (be : backend) (commentId : string) : M unit :=
  try_catch
    (res <- call be (Delete "comments" [("id", commentId)]) ;;
     match error res with
     | Some e => throw e
     | None => ret tt
     end ;;
     toast "Comment deleted" "Your comment has been removed" None)
    (fun _ =>
       emit (ConsoleError "Error deleting comment:") ;;
       toast "Error" "Failed to delete comment" destructive).

(** [onPostDeleted] tells whether the optional prop is given. *)
Definition handleDeletePost (be : backend) (p : post) (onPostDeleted : bool)
  : M unit :=
  emit (SetDeleting true) ;;
  try_finally
    (try_catch
       ((* Delete from storage if there's a content URL *)
        match JS.if_truthy (content_url p) with
        | Some url =>
            let urlParts := JS.split "/" url in
            let bucket :=
              if (List.length urlParts <? 3)%nat then None
              else nth_error urlParts (List.length urlParts - 3) in
            let filePath := JS.join "/" (JS.slice_last 2 urlParts) in
            call be (StorageRemove bucket [filePath]) ;;
            ret tt
        | None => ret tt
        end ;;
        (* Delete the post from database *)
        res <- call be (Delete "posts" [("id", id p)]) ;;
        match error res with
        | Some e => throw e
        | None => ret tt
        end ;;
        toast "Post deleted" "Your post has been removed" None ;;
        (* Notify parent component *)
        if onPostDeleted then emit (OnPostDeleted (id p)) else ret tt)
       (fun _ =>
          emit (ConsoleError "Error deleting post:") ;;
          toast "Error" "Failed to delete post" destructive))
    (emit (SetDeleting false) ;;
     emit (SetShowDeleteDialog false)).

Definition handleTogglePin (be : backend) (p : post) (isPinned : bool)
  : M unit :=
  r <- call be AuthGetUser ;;
  match user r with
  | None =>
      toast "Not authenticated" "Please log in to pin posts" destructive
  | Some uid =>
      emit (SetPinning true) ;;
      try_finally
        (try_catch
           (if isPinned then
              (* Unpin *)
              call be (Delete "pinned_posts"
                         [("user_id", uid); ("post_id", id p)]) ;;
              emit (SetIsPinned false) ;;
              toast "Post unpinned"
                "Post removed from your pinned collection" None
            else
              (* Pin *)
              call be (Insert "pinned_posts"
                         [("user_id", uid); ("post_id", id p)]) ;;
              emit (SetIsPinned true) ;;
              toast "Post pinned"
                "Post added to your pinned collection" None)
           (fun _ =>
              emit (ConsoleError "Error toggling pin:") ;;
              toast "Error" "Failed to update pin status" destructive))
        (emit (SetPinning false))
  end.

(** A handler's promise is fulfilled: it completes normally. *)
Definition completes (c : M unit) : Prop := snd c = inr tt.

(** A request of the run whose promise the backend rejects. *)
Definition call_rejected (be : backend) (c : M unit) : Prop :=
  exists r reason, In (Request r) (fst c) /\ be r = Rejects reason.

(** The same, for the calls made inside a [try] block: every call but
    the opening [auth.getUser()]. *)
Definition guarded_call_rejected (be : backend) (c : M unit) : Prop :=
  exists r reason,
    In (Request r) (fst c) /\ r <> AuthGetUser /\ be r = Rejects reason.

Definition toasted_failure (description : string) (c : M unit) : Prop :=
  In (Toast "Error" description destructive) (fst c).

(** The rows the run inserts into [notifications]. *)
Fixpoint notifications_inserted (t : list event)
  : list (list (string * string)) :=
  match t with
  | [] => []
  | Request (Insert table row) :: rest =>
      if table =? "notifications" then row :: notifications_inserted rest
      else notifications_inserted rest
  | _ :: rest => notifications_inserted rest
  end.

(** [row[column]] *)
Fixpoint field (column : string) (row : list (string * string))
  : option string :=
  match row with
  | [] => None
  | (c, v) :: rest => if c =? column then Some v else field column rest
  end.

(** The last thing a run does. *)
Definition last_event (t : list event) : option event :=
  last (map Some t) None.

(** A loaded comment: the fields [toggleCommentLike] reads. *)
Record comment : Type := {
  comment_id : string;
  liked : bool
}.

(** [comments.find(c => c.id === commentId)] *)
Definition find_comment (comments : list comment) (commentId : string)
  : option comment :=
  find (fun c => comment_id c =? commentId) comments.

(** [currentUserId] and [comments] are the state of the component. The
    value tells whether the handler ends by calling [loadComments()], which
    it does not await. *)
Definition toggleCommentLike (be : backend) (currentUserId : option string)
    (comments : list comment) (commentId : string) : M bool :=
  match JS.if_truthy currentUserId with
  | None =>
      toast "Not authenticated" "Please log in to like comments" destructive ;;
      ret false
  | Some uid =>
      match find_comment comments commentId with
      | None => ret false
      | Some c =>
          match
            (if liked c then
               call be (Delete "comment_likes"
                          [("comment_id", commentId); ("user_id", uid)]) ;;
               ret true
             else
               call be (Insert "comment_likes"
                          [("comment_id", commentId); ("user_id", uid)]) ;;
               ret true)
          with
          | (t, inl _) =>
              (List.app t [ConsoleError "Error toggling comment like:"],
               inr false)
          | (t, inr reload) => (t, inr reload)
          end
      end
  end.

(** The toasts of a run. *)
Fixpoint toasts (t : list event) : list event :=
  match t with
  | [] => []
  | Toast title description variant :: rest =>
      Toast title description variant :: toasts rest
  | _ :: rest => toasts rest
  end.

(** The requests of a run. *)
Fixpoint requests (t : list event) : list request :=
  match t with
  | [] => []
  | Request r :: rest => r :: requests rest
  | _ :: rest => requests rest
  end.

End FeedCard.

(** ** The database (supabase/migrations)

    Tables are lists of rows in insertion order. A statement either
    succeeds with the new state of the database or raises an error, which
    rolls it back. Timestamps are microseconds since the epoch; [now] is the
    value of [now()] for the statement (the start of its transaction). *)

Module Database.
Local Open Scope string_scope.

Definition uuid : Type := string.
Definition timestamptz : Type := Z.

Inductive sqlerror : Type :=
| unique_violation
| foreign_key_violation
| check_violation
| numeric_value_out_of_range
| insufficient_privilege.

Inductive result (A : Type) : Type :=
| Ok (a : A)
| Error (e : sqlerror).
Arguments Ok {A} a.
Arguments Error {A} e.

(** [DECIMAL(10,2)]: a value is kept in hundredths; ten digits in all. *)
Definition decimal_10_2 : Type := Z.

Definition decimal_10_2_fits (v : Z) : bool := (Z.abs v <? 10 ^ 10)%Z.

(** The text of a non-negative [DECIMAL(10,2)], as [||] renders it. *)
Definition decimal_10_2_out (v : decimal_10_2) : string :=
  let units := Z.to_nat (v / 100) in
  let cents := Z.to_nat (v mod 100) in
  JS.of_nat units ++ "."
    ++ JS.of_nat (cents / 10) ++ JS.of_nat (Nat.modulo cents 10).

(** [INTERVAL '24 hours'] *)
Definition interval_24_hours : Z := 24 * 60 * 60 * 1000000.

(** Modelled from the spec: the rows of [public.profiles]. The statement
    that creates the table is not among the migrations at hand; the
    specification lists profiles among the plain relational rows. The
    columns kept are the two the migrations name: [user_id], the target of
    the foreign keys, and [rewards DECIMAL(10,2) NOT NULL DEFAULT 0]. *)
Module profiles.
Record row : Type := {
  user_id : uuid;
  rewards : decimal_10_2
}.

Fixpoint lookup (uid : uuid) (rows : list row) : option row :=
  match rows with
  | [] => None
  | r :: rest => if user_id r =? uid then Some r else lookup uid rest
  end.
End profiles.

(** [public.posts] *)
Module posts.
Record row : Type := {
  id : uuid;
  user_id : uuid;
  content_type : string;
  content_url : option string;
  caption : option string;
  created_at : timestamptz;
  updated_at : timestamptz;
  is_spark : bool
}.

(** The columns of an [INSERT]; [None] leaves a column to its
    default. *)
Record values : Type := {
  v_id : option uuid;
  v_user_id : uuid;
  v_content_type : string;
  v_content_url : option string;
  v_caption : option string;
  v_created_at : option timestamptz;
  v_updated_at : option timestamptz;
  v_is_spark : option bool
}.

Definition default {A} (given : option A) (dflt : A) : A :=
  match given with
  | Some a => a
  | None => dflt
  end.

Definition with_defaults (now : timestamptz) (gen_random_uuid : uuid)
    (v : values) : row :=
  {| id := default (v_id v) gen_random_uuid;
     user_id := v_user_id v;
     content_type := v_content_type v;
     content_url := v_content_url v;
     caption := v_caption v;
     created_at := default (v_created_at v) now;
     updated_at := default (v_updated_at v) now;
     is_spark := default (v_is_spark v) false |}.

(** [CHECK (content_type IN ('text', 'image', 'video'))] *)
Definition posts_content_type_check (r : row) : bool :=
  (content_type r =? "text") || (content_type r =? "image")
  || (content_type r =? "video").

Definition set_updated_at (t : timestamptz) (r : row) : row :=
  {| id := id r;
     user_id := user_id r;
     content_type := content_type r;
     content_url := content_url r;
     caption := caption r;
     created_at := created_at r;
     updated_at := t;
     is_spark := is_spark r |}.
End posts.

(** Modelled from the spec: the rows of [public.notifications]. The
    statement that creates the table is not among the migrations at hand;
    the specification lists notifications among the plain relational rows.
    The columns kept are those the trigger function and the client write;
    a column left out of an [INSERT] is [NULL]. *)
Module notifications.
Record row : Type := {
  user_id : uuid;
  type : string;
  title : string;
  message : string;
  actor_id : option uuid;
  post_id : option uuid
}.
End notifications.

(** [public.stories] *)
Module stories.
Record row : Type := {
  id : uuid;
  user_id : uuid;
  content_url : string;
  content_type : string;
  caption : option string;
  created_at : timestamptz;
  expires_at : timestamptz
}.

Record values : Type := {
  v_id : option uuid;
  v_user_id : uuid;
  v_content_url : string;
  v_content_type : string;
  v_caption : option string;
  v_created_at : option timestamptz;
  v_expires_at : option timestamptz
}.

Definition with_defaults (now : timestamptz) (gen_random_uuid : uuid)
    (v : values) : row :=
  {| id := posts.default (v_id v) gen_random_uuid;
     user_id := v_user_id v;
     content_url := v_content_url v;
     content_type := v_content_type v;
     caption := v_caption v;
     created_at := posts.default (v_created_at v) now;
     expires_at := posts.default (v_expires_at v) (now + interval_24_hours) |}.
End stories.

Record db : Type := {
  profiles_table : list profiles.row;
  posts_table : list posts.row;
  notifications_table : list notifications.row;
  stories_table : list stories.row
}.

(** *** Trigger functions *)

(** [UPDATE public.profiles SET rewards = rewards + points
     WHERE user_id = uid] *)
Fixpoint update_rewards (uid : uuid) (points : decimal_10_2)
    (rows : list profiles.row) : result (list profiles.row) :=
  match rows with
  | [] => Ok []
  | r :: rest =>
      match update_rewards uid points rest with
      | Error e => Error e
      | Ok rest' =>
          if profiles.user_id r =? uid then
            let sum := profiles.rewards r + points in
            if decimal_10_2_fits sum then
              Ok ({| profiles.user_id := profiles.user_id r;
                     profiles.rewards := sum |} :: rest')
            else Error numeric_value_out_of_range
          else Ok (r :: rest')
      end
  end.

(** What that [UPDATE] does to one row when it succeeds. *)
Definition credited (uid : uuid) (points : decimal_10_2) (r : profiles.row)
  : profiles.row :=
  if profiles.user_id r =? uid then
    {| profiles.user_id := profiles.user_id r;
       profiles.rewards := profiles.rewards r + points |}
  else r.

(** [public.award_post_points()], a row-level trigger function: it gets
    [NEW] and returns it. *)
Definition award_post_points (now : timestamptz) (NEW : posts.row) (d : db)
  : result (posts.row * db) :=
  (* Determine points based on post type *)
  let points : decimal_10_2 := if posts.is_spark NEW then 100 else 50 in
  let reward_type := if posts.is_spark NEW then "Spark" else "Post" in
  (* Update user's rewards *)
  match update_rewards (posts.user_id NEW) points (profiles_table d) with
  | Error e => Error e
  | Ok profiles' =>
      (* Create notification *)
      let notification :=
        {| notifications.user_id := posts.user_id NEW;
           notifications.type := "reward";
           notifications.title := "Reward Earned! 🎉";
           notifications.message :=
             "You earned " ++ decimal_10_2_out points
             ++ " points for creating a " ++ reward_type ++ "!";
           notifications.actor_id := None;
           notifications.post_id := Some (posts.id NEW) |} in
      Ok (NEW,
          {| profiles_table := profiles';
             posts_table := posts_table d;
             notifications_table :=
               List.app (notifications_table d) [notification];
             stories_table := stories_table d |})
  end.

(** Modelled from the spec: [public.update_updated_at_column()], the
    function run by the trigger [update_posts_updated_at]. Its definition
    is not part of the migrations at hand; the specification names it
    timestamp maintenance by a trigger: the row's [updated_at] is set to
    the time of the update. *)
Definition update_updated_at_column (now : timestamptz) (NEW : posts.row)
    (d : db) : result (posts.row * db) :=
  Ok (posts.set_updated_at now NEW, d).

(** *** Triggers on [public.posts] *)

Inductive timing : Type := BEFORE | AFTER.
Inductive tg_event : Type := INSERT | UPDATE | DELETE.

Record trigger : Type := {
  tgname : string;
  tgtiming : timing;
  tgevent : tg_event;
  tgfunction : timestamptz -> posts.row -> db -> result (posts.row * db)
}.

Definition update_posts_updated_at : trigger :=
  {| tgname := "update_posts_updated_at";
     tgtiming := BEFORE;
     tgevent := UPDATE;
     tgfunction := update_updated_at_column |}.

Definition award_points_on_post : trigger :=
  {| tgname := "award_points_on_post";
     tgtiming := AFTER;
     tgevent := INSERT;
     tgfunction := award_post_points |}.

Definition posts_triggers : list trigger :=
  [update_posts_updated_at; award_points_on_post].

Definition timing_eqb (a b : timing) : bool :=
  match a, b with
  | BEFORE, BEFORE | AFTER, AFTER => true
  | _, _ => false
  end.

Definition tg_event_eqb (a b : tg_event) : bool :=
  match a, b with
  | INSERT, INSERT | UPDATE, UPDATE | DELETE, DELETE => true
  | _, _ => false
  end.

(** Fire, [FOR EACH ROW], the triggers of one timing and event. A
    [BEFORE] trigger hands the row it returns to the next one; the row an
    [AFTER] trigger returns is ignored. *)
Fixpoint fire (triggers : list trigger) (w : timing) (ev : tg_event)
    (now : timestamptz) (NEW : posts.row) (d : db)
  : result (posts.row * db) :=
  match triggers with
  | [] => Ok (NEW, d)
  | t :: rest =>
      if timing_eqb (tgtiming t) w && tg_event_eqb (tgevent t) ev then
        match tgfunction t now NEW d with
        | Error e => Error e
        | Ok (NEW', d') =>
            fire rest w ev now
              (match w with BEFORE => NEW' | AFTER => NEW end) d'
        end
      else fire rest w ev now NEW d
  end.

(** The constraints of [public.posts] on a row about to be stored. *)
Definition posts_constraints (d : db) (r : posts.row) : result unit :=
  if existsb (fun q => posts.id q =? posts.id r) (posts_table d) then
    Error unique_violation
  else if negb (existsb (fun pr => profiles.user_id pr =? posts.user_id r)
                  (profiles_table d)) then
    Error foreign_key_violation
  else if negb (posts.posts_content_type_check r) then
    Error check_violation
  else Ok tt.

Definition store_post (r : posts.row) (d : db) : db :=
  {| profiles_table := profiles_table d;
     posts_table := List.app (posts_table d) [r];
     notifications_table := notifications_table d;
     stories_table := stories_table d |}.

(** [INSERT INTO public.posts (...) VALUES (...)], one row. *)
Definition insert_post (now : timestamptz) (gen_random_uuid : uuid)
    (v : posts.values) (d : db) : result db :=
  let NEW := posts.with_defaults now gen_random_uuid v in
  match fire posts_triggers BEFORE INSERT now NEW d with
  | Error e => Error e
  | Ok (NEW, d) =>
      match posts_constraints d NEW with
      | Error e => Error e
      | Ok _ =>
          match fire posts_triggers AFTER INSERT now NEW (store_post NEW d) with
          | Error e => Error e
          | Ok (_, d') => Ok d'
          end
      end
  end.

(** [UPDATE public.posts SET ... WHERE ...]: [where_] selects the rows,
    [set] is the assignment list applied to each of them. The rows are
    visited in order; each one goes through the [BEFORE UPDATE] triggers
    before it is stored. Only the [CHECK] constraint is looked at: the
    statements considered leave [id] and [user_id] alone. *)
Fixpoint update_rows (now : timestamptz) (where_ : posts.row -> bool)
    (set : posts.row -> posts.row) (rows : list posts.row) (d : db)
  : result (list posts.row * db) :=
  match rows with
  | [] => Ok ([], d)
  | OLD :: rest =>
      if where_ OLD then
        match fire posts_triggers BEFORE UPDATE now (set OLD) d with
        | Error e => Error e
        | Ok (NEW, d1) =>
            if posts.posts_content_type_check NEW then
              match update_rows now where_ set rest d1 with
              | Error e => Error e
              | Ok (rest', d2) => Ok (NEW :: rest', d2)
              end
            else Error check_violation
        end
      else
        match update_rows now where_ set rest d with
        | Error e => Error e
        | Ok (rest', d2) => Ok (OLD :: rest', d2)
        end
  end.

Definition update_posts (now : timestamptz) (where_ : posts.row -> bool)
    (set : posts.row -> posts.row) (d : db) : result db :=
  match update_rows now where_ set (posts_table d) d with
  | Error e => Error e
  | Ok (rows, d') =>
      Ok {| profiles_table := profiles_table d';
            posts_table := rows;
            notifications_table := notifications_table d';
            stories_table := stories_table d' |}
  end.

(** *** Row-level security on [public.stories] *)

Inductive command : Type := SELECT | INSERT_ | UPDATE_ | DELETE_.

Definition command_eqb (a b : command) : bool :=
  match a, b with
  | SELECT, SELECT | INSERT_, INSERT_ | UPDATE_, UPDATE_
  | DELETE_, DELETE_ => true
  | _, _ => false
  end.

(** What a policy expression can read besides the row: [now()] and
    [auth.uid()]. *)
Record session : Type := {
  now : timestamptz;
  auth_uid : option uuid
}.

Record policy : Type := {
  polname : string;
  polcmd : command;
  polqual : session -> stories.row -> bool
}.

Definition is_auth_uid (s : session) (uid : uuid) : bool :=
  match auth_uid s with
  | Some u => u =? uid
  | None => false
  end.

Definition stories_policies : list policy :=
  [ {| polname := "Stories are viewable by everyone";
       polcmd := SELECT;
       polqual := fun s r => (now s <? stories.expires_at r)%Z |};
    {| polname := "Users can create their own stories";
       polcmd := INSERT_;
       polqual := fun s r => is_auth_uid s (stories.user_id r) |};
    {| polname := "Users can delete their own stories";
       polcmd := DELETE_;
       polqual := fun s r => is_auth_uid s (stories.user_id r) |} ].

(** With row-level security enabled, a row passes when some policy for
    the command accepts it. *)
Definition permitted (c : command) (s : session) (r : stories.row) : bool :=
  existsb (fun pol => command_eqb (polcmd pol) c && polqual pol s r)
    stories_policies.

Definition policies_for (c : command) : list policy :=
  filter (fun pol => command_eqb (polcmd pol) c) stories_policies.

(** [SELECT * FROM public.stories] *)
Definition select_stories (s : session) (d : db) : list stories.row :=
  filter (permitted SELECT s) (stories_table d).

(** [INSERT INTO public.stories (...) VALUES (...)], one row. *)
Definition insert_story (s : session) (gen_random_uuid : uuid)
    (v : stories.values) (d : db) : result db :=
  let NEW := stories.with_defaults (now s) gen_random_uuid v in
  if negb (permitted INSERT_ s NEW) then Error insufficient_privilege
  else if existsb (fun q => stories.id q =? stories.id NEW) (stories_table d)
  then Error unique_violation
  else if negb (existsb (fun pr => profiles.user_id pr =? stories.user_id NEW)
                  (profiles_table d))
  then Error foreign_key_violation
  else
    Ok {| profiles_table := profiles_table d;
          posts_table := posts_table d;
          notifications_table := notifications_table d;
          stories_table := List.app (stories_table d) [NEW] |}.

End Database.

(** ** Several inserts in a row *)

Module Batch.
Import Database.

(** [INSERT INTO public.posts] sent by a session: with row-level security
    enabled on the table, the row has to pass the one [INSERT] policy,
    "Users can create their own posts", [WITH CHECK (auth.uid() = user_id)].
    The trigger function is [SECURITY DEFINER], so its own statements are
    not subject to the caller's policies. *)
Definition insert_post_as (s : session) (gen_random_uuid : uuid)
    (v : posts.values) (d : db) : result db :=
  let NEW := posts.with_defaults (now s) gen_random_uuid v in
  if negb (is_auth_uid s (posts.user_id NEW)) then Error insufficient_privilege
  else insert_post (now s) gen_random_uuid v d.

(** One [INSERT INTO public.posts]: the session that sends it, the value
    [gen_random_uuid()] would give, and the columns. *)
Definition statement : Type := (session * uuid * posts.values)%type.

(** The statements one after the other; the first error stops the run. *)
Fixpoint insert_posts (batch : list statement) (d : db) : result db :=
  match batch with
  | [] => Ok d
  | (s, gen, v) :: rest =>
      match insert_post_as s gen v d with
      | Error e => Error e
      | Ok d1 => insert_posts rest d1
      end
  end.

(** The points the trigger awards for one row. *)
Definition points_of (v : posts.values) : decimal_10_2 :=
  if posts.default (posts.v_is_spark v) false then 100 else 50.

(** The points of the rows of [uid] in a batch. *)
Fixpoint points_for (uid : uuid) (batch : list statement) : decimal_10_2 :=
  match batch with
  | [] => 0
  | (_, _, v) :: rest =>
      (if String.eqb (posts.v_user_id v) uid then points_of v else 0)
      + points_for uid rest
  end.

End Batch.

(** ** The tables of pairs (migrations [comment_likes], [pinned_posts],
    [reposts])

    The three tables have the same shape: an [id], the [user_id] of the
    owner, the id of the thing liked, pinned or reposted, [created_at],
    [UNIQUE(user_id, target)], and the same three policies: everyone may
    read, a user may insert and delete rows of their own. *)

Module PairTable.
Import Database.
Local Open Scope string_scope.

Record row : Type := {
  id : uuid;
  user_id : uuid;
  target_id : uuid;
  created_at : timestamptz
}.

Record values : Type := {
  v_id : option uuid;
  v_user_id : uuid;
  v_target_id : uuid;
  v_created_at : option timestamptz
}.

Definition with_defaults (now : timestamptz) (gen_random_uuid : uuid)
    (v : values) : row :=
  {| id := posts.default (v_id v) gen_random_uuid;
     user_id := v_user_id v;
     target_id := v_target_id v;
     created_at := posts.default (v_created_at v) now |}.

(** [USING (auth.uid() = user_id)] and [WITH CHECK (auth.uid() = user_id)] *)
Definition own (s : session) (r : row) : bool := is_auth_uid s (user_id r).

Definition same_pair (a b : row) : bool :=
  (user_id a =? user_id b) && (target_id a =? target_id b).

(** [INSERT INTO public.<table> (...) VALUES (...)], one row. *)
Definition insert (s : session) (gen_random_uuid : uuid) (v : values)
    (rows : list row) : result (list row) :=
  let NEW := with_defaults (now s) gen_random_uuid v in
  if negb (own s NEW) then Error insufficient_privilege
  else if existsb (fun q => id q =? id NEW) rows then Error unique_violation
  else if existsb (same_pair NEW) rows then Error unique_violation
  else Ok (List.app rows [NEW]).

(** [DELETE FROM public.<table> WHERE ...]: the rows the policy lets the
    session see and the condition selects are removed. *)
Definition delete (s : session) (where_ : row -> bool) (rows : list row)
  : list row :=
  filter (fun r => negb (own s r && where_ r)) rows.

(** The condition of the client's unlike, unpin and unrepost:
    [.eq(target, t).eq('user_id', u)]. *)
Definition pair_is (u t : uuid) (r : row) : bool :=
  (user_id r =? u) && (target_id r =? t).

Definition pairs (rows : list row) : list (uuid * uuid) :=
  map (fun r => (user_id r, target_id r)) rows.

End PairTable.

(** ** Composer (pages/Home): the row of a new post *)

Module Composer.
Import Database.
Local Open Scope string_scope.

Inductive postType : Type := post | spark.

(** The object given to [.insert()] in [handlePublish]: [fileUrl] is the
    public URL of the upload, [null] without a file. *)
Definition row_to_insert (t : postType) (user_id : uuid)
    (fileUrl : option string) (caption : string) : posts.values :=
  {| posts.v_id := None;
     posts.v_user_id := user_id;
     posts.v_content_type :=
       match t with
       | spark => "video"
       | post =>
           match JS.if_truthy fileUrl with
           | Some _ => "image"
           | None => "text"
           end
       end;
     posts.v_content_url := fileUrl;
     posts.v_caption := Some (JS.trim caption);
     posts.v_created_at := None;
     posts.v_updated_at := None;
     posts.v_is_spark :=
       Some match t with spark => true | post => false end |}.

End Composer.

(** ** Home (pages/Home): the top bar and the age of a post *)

Module Home.
Local Open Scope string_scope.

(** [showTopBar] (a React state, [true] at first) and [lastScrollY] (a
    ref, [0] at first). [window.scrollY] is a number of pixels, which may
    be fractional. *)
Record scroll_state : Type := {
  showTopBar : bool;
  lastScrollY : Q
}.

Definition scroll_init : scroll_state :=
  {| showTopBar := true; lastScrollY := 0%Q |}.

(** [a < b] on numbers. *)
Definition lt (a b : Q) : bool := if Qlt_le_dec a b then true else false.

(** [handleScroll], the listener of the window's scroll events;
    [currentScrollY] is [window.scrollY] when the event is handled. *)
Definition handleScroll (st : scroll_state) (currentScrollY : Q)
  : scroll_state :=
  {| showTopBar :=
       if lt currentScrollY 10 then true
       else if lt (lastScrollY st) currentScrollY && lt 100 currentScrollY
       then false
       else if lt currentScrollY (lastScrollY st) then true
       else showTopBar st;
     lastScrollY := currentScrollY |}.

(** The state after the scroll events of a list, oldest first. *)
Definition scrolled (events : list Q) : scroll_state :=
  fold_left handleScroll events scroll_init.

(** [`${n}`] for an integer that is not negative. *)
Definition number (n : Z) : string := JS.of_nat (Z.to_nat n).

(** The time value of a valid date: an integer number of milliseconds, of
    at most 8.64e15 in absolute value. *)
Definition time_value (t : Z) : Prop := (Z.abs t <= 8640000000000000)%Z.

(** [getTimeAgo(date)]: [now] is [new Date().getTime()] and [date] is
    [date.getTime()], both in milliseconds, [None] for an invalid date,
    whose time value is [NaN]. The difference of the two time values and
    every quotient is rounded to a binary64 value before [Math.floor] is
    taken. *)
Definition getTimeAgo (now : Z) (date : option Z) : string :=
  match date with
  | None => "NaNw ago"
  | Some t =>
      let elapsed := Binary64.round (inject_Z now - inject_Z t) in
      let seconds := Binary64.floor_div elapsed 1000 in
      if (seconds <? 60)%Z then "just now"
      else
        let minutes := Binary64.floor_div (inject_Z seconds) 60 in
        if (minutes <? 60)%Z then number minutes ++ "m ago"
        else
          let hours := Binary64.floor_div (inject_Z minutes) 60 in
          if (hours <? 24)%Z then number hours ++ "h ago"
          else
            let days := Binary64.floor_div (inject_Z hours) 24 in
            if (days <? 7)%Z then number days ++ "d ago"
            else
              let weeks := Binary64.floor_div (inject_Z days) 7 in
              number weeks ++ "w ago"
  end.

End Home.

(* ===================================================================== *)
(** * Part II: the theorems *)
(* ===================================================================== *)

Unset Implicit Arguments.

(** ** Rounding to binary64

    [round] is monotone, and it leaves every value [m * 2^e] with
    [|m| < 2^53] and [e >= -1074] as it is. *)

Section Binary64Facts.
Import Binary64.
Local Open Scope Q_scope.

Lemma two_power_pos (e : Z) : 0 < 2 ^ e.
Proof. apply Qpower_0_lt. reflexivity. Qed.

Lemma two_power_add (a b : Z) : 2 ^ (a + b) == 2 ^ a * 2 ^ b.
Proof. apply Qpower_plus. discriminate. Qed.

Lemma two_power_lt (a b : Z) : (a < b)%Z -> 2 ^ a < 2 ^ b.
Proof. intros H. apply Qpower_lt_compat_l; [exact H | reflexivity]. Qed.

Lemma two_power_le (a b : Z) : (a <= b)%Z -> 2 ^ a <= 2 ^ b.
Proof. intros H. apply Qpower_le_compat_l; [exact H | discriminate]. Qed.

Lemma two_power_lt_inv (a b : Z) : 2 ^ a < 2 ^ b -> (a < b)%Z.
Proof. intros H. eapply Qpower_lt_compat_l_inv; [exact H | reflexivity]. Qed.

Lemma two_power_inject (n : Z) : (0 <= n)%Z -> inject_Z (2 ^ n) == 2 ^ n.
Proof. intros H. now rewrite Zpower_Qpower. Qed.

Lemma two_power_cancel (a : Z) : 2 ^ a * 2 ^ (- a) == 1.
Proof. rewrite <- two_power_add, Z.add_opp_diag_r. reflexivity. Qed.

Lemma log2_floor_spec (x : Q) :
  0 < x -> 2 ^ log2_floor x <= x /\ x < 2 ^ (log2_floor x + 1).
Proof.
  intros Hx. destruct x as [p q]. unfold log2_floor. cbn [Qnum Qden].
  assert (Hp : (0 < p)%Z) by (unfold Qlt in Hx; cbn in Hx; lia).
  set (lp := Z.log2 p). set (lq := Z.log2 (Zpos q)).
  destruct (Z.log2_spec p Hp) as [Hp1 Hp2]. fold lp in Hp1, Hp2.
  destruct (Z.log2_spec (Zpos q) eq_refl) as [Hq1 Hq2]. fold lq in Hq1, Hq2.
  assert (Hlp : (0 <= lp)%Z) by apply Z.log2_nonneg.
  assert (Hlq : (0 <= lq)%Z) by apply Z.log2_nonneg.
  assert (Ex : p # q == inject_Z p * / inject_Z (Zpos q)) by apply Qmake_Qdiv.
  assert (Hqpos : 0 < inject_Z (Zpos q)) by reflexivity.
  assert (Qp1 : 2 ^ lp <= inject_Z p)
    by (rewrite <- two_power_inject by assumption; now rewrite <- Zle_Qle).
  assert (Qp2 : inject_Z p < 2 ^ (lp + 1))
    by (rewrite <- two_power_inject by lia; rewrite <- Zlt_Qlt; exact Hp2).
  assert (Qq1 : 2 ^ lq <= inject_Z (Zpos q))
    by (rewrite <- two_power_inject by assumption; now rewrite <- Zle_Qle).
  assert (Qq2 : inject_Z (Zpos q) < 2 ^ (lq + 1))
    by (rewrite <- two_power_inject by lia; rewrite <- Zlt_Qlt; exact Hq2).
  destruct (Qlt_le_dec (p # q) (2 ^ (lp - lq))) as [Hlt | Hge].
  - split.
    + (* 2^(lp-lq-1) <= p/q *)
      rewrite Ex. apply Qlt_le_weak. apply Qlt_shift_div_l; [exact Hqpos|].
      replace (lp - lq - 1)%Z with (lp + - (lq + 1))%Z by lia.
      rewrite two_power_add.
      assert (H1 : 2 ^ (- (lq + 1)) * inject_Z (Zpos q) < 1).
      { rewrite <- (two_power_cancel (lq + 1)). rewrite (Qmult_comm (2 ^ (lq + 1))).
        apply Qmult_lt_l; [apply two_power_pos | exact Qq2]. }
      pose proof (two_power_pos lp). pose proof (two_power_pos (- (lq + 1))).
      nra.
    + now replace (lp - lq - 1 + 1)%Z with (lp - lq)%Z by lia.
  - split; [exact Hge|].
    rewrite Ex. apply Qlt_shift_div_r; [exact Hqpos|].
    replace (lp - lq + 1)%Z with ((lp + 1) + - lq)%Z by lia.
    rewrite two_power_add.
    assert (H1 : 1 <= 2 ^ (- lq) * inject_Z (Zpos q)).
    { rewrite <- (two_power_cancel lq). rewrite (Qmult_comm (2 ^ lq)).
      apply Qmult_le_l; [apply two_power_pos | exact Qq1]. }
    pose proof (two_power_pos (lp + 1)). pose proof (two_power_pos (- lq)).
    nra.
Qed.

Lemma log2_floor_unique (x : Q) (l : Z) :
  2 ^ l <= x -> x < 2 ^ (l + 1) -> log2_floor x = l.
Proof.
  intros H1 H2.
  assert (Hx : 0 < x) by (eapply Qlt_le_trans; [apply (two_power_pos l) | exact H1]).
  destruct (log2_floor_spec x Hx) as [S1 S2].
  assert (l < log2_floor x + 1)%Z
    by (apply two_power_lt_inv; eapply Qle_lt_trans; eassumption).
  assert (log2_floor x < l + 1)%Z
    by (apply two_power_lt_inv; eapply Qle_lt_trans; eassumption).
  lia.
Qed.

Lemma log2_floor_mono (x y : Q) :
  0 < x -> x <= y -> (log2_floor x <= log2_floor y)%Z.
Proof.
  intros Hx Hxy.
  assert (Hy : 0 < y) by (eapply Qlt_le_trans; eassumption).
  destruct (log2_floor_spec x Hx) as [S1 _].
  destruct (log2_floor_spec y Hy) as [_ S2].
  assert (log2_floor x < log2_floor y + 1)%Z.
  { apply two_power_lt_inv. eapply Qle_lt_trans; [exact S1|].
    eapply Qle_lt_trans; eassumption. }
  lia.
Qed.

Lemma exponent_mono (x y : Q) :
  0 < x -> x <= y -> (exponent x <= exponent y)%Z.
Proof.
  intros Hx Hxy. unfold exponent.
  pose proof (log2_floor_mono x y Hx Hxy). lia.
Qed.

Lemma nearest_even_Z (k : Z) : nearest_even (inject_Z k) = k.
Proof.
  unfold nearest_even. rewrite Qfloor_Z.
  destruct (Qcompare_spec (inject_Z k - inject_Z k) (1 # 2)) as [H|H|H].
  - exfalso. lra.
  - reflexivity.
  - exfalso. lra.
Qed.

Lemma nearest_even_bounds (m : Q) :
  (Qfloor m <= nearest_even m <= Qfloor m + 1)%Z.
Proof.
  unfold nearest_even.
  destruct (Qcompare (m - inject_Z (Qfloor m)) (1 # 2));
    [destruct (Z.even (Qfloor m))| |]; lia.
Qed.

Lemma nearest_even_mono (a b : Q) :
  a <= b -> (nearest_even a <= nearest_even b)%Z.
Proof.
  intros Hab.
  pose proof (Qfloor_resp_le a b Hab) as Hf.
  destruct (Z.eq_dec (Qfloor a) (Qfloor b)) as [E|N].
  - unfold nearest_even. rewrite E.
    destruct (Qcompare_spec (a - inject_Z (Qfloor b)) (1 # 2)) as [Ha|Ha|Ha];
      destruct (Qcompare_spec (b - inject_Z (Qfloor b)) (1 # 2)) as [Hb|Hb|Hb];
      try (destruct (Z.even (Qfloor b))); try lia; exfalso; lra.
  - pose proof (nearest_even_bounds a). pose proof (nearest_even_bounds b). lia.
Qed.

Lemma nearest_even_comp (a b : Q) : a == b -> nearest_even a = nearest_even b.
Proof.
  intros E. apply Z.le_antisymm; apply nearest_even_mono; rewrite E; apply Qle_refl.
Qed.

Lemma nearest_even_le (m : Q) (k : Z) : m <= inject_Z k -> (nearest_even m <= k)%Z.
Proof.
  intros H. rewrite <- (nearest_even_Z k). now apply nearest_even_mono.
Qed.

Lemma nearest_even_ge (m : Q) (k : Z) : inject_Z k <= m -> (k <= nearest_even m)%Z.
Proof.
  intros H. rewrite <- (nearest_even_Z k) at 1. now apply nearest_even_mono.
Qed.

(** The scaled significand is below 2^53, and at least 2^52 for a normal
    number. *)
Lemma significand_lt (x : Q) : 0 < x -> x * 2 ^ (- exponent x) < 2 ^ 53.
Proof.
  intros Hx. destruct (log2_floor_spec x Hx) as [_ S2].
  assert (He : (log2_floor x + 1 <= 53 + exponent x)%Z) by (unfold exponent; lia).
  assert (H : x < 2 ^ 53 * 2 ^ exponent x).
  { rewrite <- two_power_add. eapply Qlt_le_trans; [exact S2 | now apply two_power_le]. }
  pose proof (two_power_cancel (exponent x)) as Hc.
  pose proof (two_power_pos (exponent x)). pose proof (two_power_pos (- exponent x)).
  set (a := 2 ^ exponent x) in *. set (b := 2 ^ (- exponent x)) in *.
  set (c := 2 ^ 53) in *.
  assert (x * b < c * a * b) by (apply Qmult_lt_r; assumption).
  assert (c * a * b == c) by (rewrite <- Qmult_assoc, Hc; ring).
  lra.
Qed.

Lemma significand_ge (x : Q) :
  0 < x -> (-1074 < exponent x)%Z -> 2 ^ 52 <= x * 2 ^ (- exponent x).
Proof.
  intros Hx He. destruct (log2_floor_spec x Hx) as [S1 _].
  assert (E : (log2_floor x = 52 + exponent x)%Z) by (unfold exponent in *; lia).
  rewrite E, two_power_add in S1.
  pose proof (two_power_cancel (exponent x)) as Hc.
  pose proof (two_power_pos (exponent x)). pose proof (two_power_pos (- exponent x)).
  set (a := 2 ^ exponent x) in *. set (b := 2 ^ (- exponent x)) in *.
  set (c := 2 ^ 52) in *.
  assert (c * a * b <= x * b) by (apply Qmult_le_r; assumption).
  assert (c * a * b == c) by (rewrite <- Qmult_assoc, Hc; ring).
  lra.
Qed.

Lemma exponent_min (x : Q) : (-1074 <= exponent x)%Z.
Proof. unfold exponent. lia. Qed.

Lemma round_pos_nonneg (x : Q) : 0 < x -> 0 <= round_pos x.
Proof.
  intros Hx. unfold round_pos. cbv zeta.
  pose proof (two_power_pos (exponent x)). pose proof (two_power_pos (- exponent x)).
  assert (0 <= nearest_even (x * 2 ^ (- exponent x)))%Z.
  { apply nearest_even_ge. apply Qmult_le_0_compat; lra. }
  apply Qmult_le_0_compat; [|lra].
  now rewrite <- (Zle_Qle 0).
Qed.

Lemma round_pos_mono (x y : Q) :
  0 < x -> x <= y -> round_pos x <= round_pos y.
Proof.
  intros Hx Hxy.
  assert (Hy : 0 < y) by (eapply Qlt_le_trans; eassumption).
  pose proof (exponent_mono x y Hx Hxy) as He.
  unfold round_pos. cbv zeta.
  destruct (Z.eq_dec (exponent x) (exponent y)) as [E|N].
  - rewrite E. apply Qmult_le_compat_r; [|apply Qlt_le_weak, two_power_pos].
    rewrite <- Zle_Qle. apply nearest_even_mono.
    apply Qmult_le_compat_r; [exact Hxy | apply Qlt_le_weak, two_power_pos].
  - assert (Hlt : (exponent x + 1 <= exponent y)%Z) by lia.
    assert (Hn : (-1074 < exponent y)%Z) by (pose proof (exponent_min x); lia).
    assert (Hx53 : (nearest_even (x * 2 ^ (- exponent x)) <= 2 ^ 53)%Z).
    { apply nearest_even_le. apply Qlt_le_weak.
      eapply Qlt_le_trans; [apply significand_lt; exact Hx|].
      apply Qle_lteq. right. reflexivity. }
    assert (Hy52 : (2 ^ 52 <= nearest_even (y * 2 ^ (- exponent y)))%Z).
    { apply nearest_even_ge.
      eapply Qle_trans; [|apply significand_ge; assumption].
      apply Qle_lteq. right. reflexivity. }
    apply (Qle_trans _ (inject_Z (2 ^ 53) * 2 ^ exponent x)).
    { apply Qmult_le_compat_r; [|apply Qlt_le_weak, two_power_pos].
      now rewrite <- Zle_Qle. }
    apply (Qle_trans _ (inject_Z (2 ^ 52) * 2 ^ exponent y)).
    2:{ apply Qmult_le_compat_r; [|apply Qlt_le_weak, two_power_pos].
        now rewrite <- Zle_Qle. }
    pose proof (two_power_le (exponent x + 1) (exponent y) Hlt) as Hp.
    rewrite two_power_add in Hp.
    change (2 ^ 1) with 2 in Hp.
    change (inject_Z (2 ^ 53)) with (2 * inject_Z (2 ^ 52)).
    pose proof (two_power_pos (exponent x)).
    assert (0 < inject_Z (2 ^ 52)) by reflexivity.
    set (c := inject_Z (2 ^ 52)) in *.
    set (a := 2 ^ exponent x) in *. set (b := 2 ^ exponent y) in *.
    nra.
Qed.

Lemma round_raw_mono (x y : Q) : x <= y -> round_raw x <= round_raw y.
Proof.
  intros Hxy. unfold round_raw.
  destruct (Qcompare_spec x 0) as [Hx|Hx|Hx];
    destruct (Qcompare_spec y 0) as [Hy|Hy|Hy]; try (exfalso; lra).
  - apply Qle_refl.
  - now apply round_pos_nonneg.
  - assert (0 <= round_pos (- x)) by (apply round_pos_nonneg; lra). lra.
  - assert (round_pos (- y) <= round_pos (- x)) by (apply round_pos_mono; lra).
    lra.
  - assert (0 <= round_pos (- x)) by (apply round_pos_nonneg; lra).
    assert (0 <= round_pos y) by (apply round_pos_nonneg; lra). lra.
  - now apply round_pos_mono.
Qed.

Lemma round_mono (x y : Q) : x <= y -> round x <= round y.
Proof.
  intros H. unfold round. rewrite !Qred_correct. now apply round_raw_mono.
Qed.

Lemma round_comp (x y : Q) : x == y -> round x = round y.
Proof.
  intros E. unfold round. apply Qred_complete.
  apply Qle_antisym; apply round_raw_mono; rewrite E; apply Qle_refl.
Qed.

Lemma round_pos_exact (x : Q) (m e : Z) :
  (0 < m < 2 ^ 53)%Z -> (-1074 <= e)%Z -> x == inject_Z m * 2 ^ e ->
  round_pos x == x.
Proof.
  intros Hm He Ex.
  assert (Hmq : 0 < inject_Z m) by (rewrite <- (Zlt_Qlt 0); lia).
  assert (Hx : 0 < x).
  { rewrite Ex. apply Qmult_lt_0_compat; [exact Hmq | apply two_power_pos]. }
  assert (Hlt : x < 2 ^ (53 + e)).
  { rewrite Ex, two_power_add. apply Qmult_lt_r; [apply two_power_pos|].
    rewrite <- two_power_inject by lia. rewrite <- Zlt_Qlt. lia. }
  destruct (log2_floor_spec x Hx) as [S1 _].
  assert (Hl : (log2_floor x < 53 + e)%Z)
    by (apply two_power_lt_inv; eapply Qle_lt_trans; eassumption).
  assert (Hex : (exponent x <= e)%Z) by (unfold exponent; lia).
  unfold round_pos. cbv zeta.
  set (d := (e - exponent x)%Z).
  assert (Hs : x * 2 ^ (- exponent x) == inject_Z (m * 2 ^ d)).
  { transitivity (inject_Z m * 2 ^ e * 2 ^ (- exponent x));
      [apply Qmult_comp; [exact Ex | reflexivity]|].
    rewrite inject_Z_mult, two_power_inject by (unfold d; lia).
    unfold d. replace (e - exponent x)%Z with (e + - exponent x)%Z by lia.
    rewrite two_power_add. ring. }
  rewrite (nearest_even_comp _ _ Hs), nearest_even_Z.
  rewrite inject_Z_mult, two_power_inject by (unfold d; lia).
  transitivity (inject_Z m * 2 ^ e); [|symmetry; exact Ex].
  rewrite <- Qmult_assoc, <- two_power_add.
  unfold d. replace (e - exponent x + exponent x)%Z with e by lia.
  reflexivity.
Qed.

(** Every number [m * 2^e] with [|m| < 2^53] and [e >= -1074] is a
    binary64 value, and rounding leaves it as it is. *)
Lemma round_exact (m e : Z) :
  (Z.abs m < 2 ^ 53)%Z -> (-1074 <= e)%Z ->
  round (inject_Z m * 2 ^ e) == inject_Z m * 2 ^ e.
Proof.
  intros Hm He. unfold round. rewrite Qred_correct. unfold round_raw.
  pose proof (two_power_pos e) as Hp.
  destruct (Qcompare_spec (inject_Z m * 2 ^ e) 0) as [H|H|H].
  - now rewrite H.
  - assert (Hneg : (m < 0)%Z).
    { destruct (Z.ltb_spec m 0) as [|Hge]; [assumption|]. exfalso.
      assert (0 <= inject_Z m) by (rewrite <- (Zle_Qle 0); exact Hge).
      assert (0 <= inject_Z m * 2 ^ e) by (apply Qmult_le_0_compat; lra). lra. }
    rewrite (round_pos_exact _ (- m) e); [ring | lia | exact He |].
    rewrite inject_Z_opp. ring.
  - assert (Hpos : (0 < m)%Z).
    { destruct (Z.ltb_spec 0 m) as [|Hle]; [assumption|]. exfalso.
      assert (inject_Z m <= 0) by (rewrite <- (Zle_Qle _ 0); exact Hle).
      assert (Hx : inject_Z m * 2 ^ e <= 0 * 2 ^ e)
        by (apply Qmult_le_compat_r; lra).
      lra. }
    apply (round_pos_exact _ m e); [lia | exact He | reflexivity].
Qed.

Lemma round_Z (k : Z) : (Z.abs k < 2 ^ 53)%Z -> round (inject_Z k) = inject_Z k.
Proof.
  intros Hk.
  assert (E : inject_Z k == inject_Z k * 2 ^ 0) by (change (2 ^ 0) with 1; ring).
  rewrite (round_comp _ _ E).
  assert (H : round (inject_Z k * 2 ^ 0) == inject_Z k).
  { rewrite (round_exact k 0) by lia. now rewrite <- E. }
  unfold round in *. rewrite Qred_correct in H.
  rewrite (Qred_complete _ _ H). apply Qred_identity. cbn. apply Z.gcd_1_r.
Qed.

Lemma Qred_inject_Z (k : Z) : Qred (inject_Z k) = inject_Z k.
Proof. apply Qred_identity. cbn. apply Z.gcd_1_r. Qed.

(** Rounding a representable integer, however it is written. *)
Lemma round_integer (x : Q) (k m e : Z) :
  x == inject_Z k -> inject_Z k == inject_Z m * 2 ^ e ->
  (Z.abs m < 2 ^ 53)%Z -> (-1074 <= e)%Z ->
  round x = inject_Z k.
Proof.
  intros Ex Ek Hm He.
  assert (E : x == inject_Z m * 2 ^ e) by (now rewrite Ex).
  rewrite (round_comp _ _ E).
  pose proof (round_exact m e Hm He) as H.
  unfold round in *. rewrite Qred_correct in H.
  assert (H' : round_raw (inject_Z m * 2 ^ e) == inject_Z k) by (now rewrite H).
  rewrite (Qred_complete _ _ H'). apply Qred_inject_Z.
Qed.

Lemma fl_finite (x : Q) (k : Z) :
  round x = inject_Z k -> (Z.abs k < 2 ^ 1024)%Z -> fl x = Finite (inject_Z k).
Proof.
  intros Hr Hk. unfold fl. cbv zeta. rewrite Hr.
  destruct (Qlt_le_dec (Qabs (inject_Z k)) (2 ^ 1024)) as [_|Hge]; [reflexivity|].
  exfalso. change (Qabs (inject_Z k)) with (inject_Z (Z.abs k)) in Hge.
  rewrite <- (two_power_inject 1024) in Hge by lia.
  rewrite <- Zle_Qle in Hge. lia.
Qed.

(** A result between two integers of less than 54 bits is finite and lies
    between them. *)
Lemma fl_between (x : Q) (a b : Z) :
  inject_Z a <= x -> x <= inject_Z b ->
  (Z.abs a < 2 ^ 53)%Z -> (Z.abs b < 2 ^ 53)%Z ->
  fl x = Finite (round x) /\ inject_Z a <= round x /\ round x <= inject_Z b.
Proof.
  intros Ha Hb Ba Bb.
  assert (La : inject_Z a <= round x)
    by (rewrite <- (round_Z a Ba); now apply round_mono).
  assert (Lb : round x <= inject_Z b)
    by (rewrite <- (round_Z b Bb); now apply round_mono).
  split; [|split; assumption].
  unfold fl. cbv zeta.
  destruct (Qlt_le_dec (Qabs (round x)) (2 ^ 1024)) as [_|Hge]; [reflexivity|].
  exfalso.
  assert (Habs : Qabs (round x) <= inject_Z (2 ^ 53)).
  { apply Qabs_Qle_condition. split.
    - apply (Qle_trans _ (inject_Z a)); [|exact La].
      rewrite <- inject_Z_opp, <- Zle_Qle. lia.
    - apply (Qle_trans _ (inject_Z b)); [exact Lb|].
      rewrite <- Zle_Qle. lia. }
  assert (inject_Z (2 ^ 53) < 2 ^ 1024).
  { rewrite <- (two_power_inject 1024) by lia. rewrite <- Zlt_Qlt.
    apply Z.pow_lt_mono_r; lia. }
  lra.
Qed.

Lemma inject_Z_sub (a b : Z) : inject_Z (a - b) == inject_Z a - inject_Z b.
Proof. unfold Z.sub. rewrite inject_Z_plus, inject_Z_opp. reflexivity. Qed.

Lemma Qfloor_unique (x : Q) (z : Z) :
  inject_Z z <= x -> x < inject_Z (z + 1) -> Qfloor x = z.
Proof.
  intros H1 H2.
  pose proof (Qfloor_resp_le _ _ H1) as L. rewrite Qfloor_Z in L.
  pose proof (Qfloor_le x) as U.
  assert (inject_Z (Qfloor x) < inject_Z (z + 1))
    by (eapply Qle_lt_trans; eassumption).
  rewrite <- Zlt_Qlt in H. lia.
Qed.

(** [Math.floor(k / c)] is the integer quotient, as long as [k / c + 1]
    leaves [j] bits for the fraction, where [c <= 2^j]. *)
Lemma floor_div_exact (k c j : Z) :
  (0 <= k)%Z -> (0 < c <= 2 ^ j)%Z -> (0 <= j <= 1074)%Z ->
  ((k / c + 1) * 2 ^ j <= 2 ^ 53)%Z ->
  floor_div (inject_Z k) c = (k / c)%Z.
Proof.
  intros Hk Hc Hj Hfit. unfold floor_div.
  set (q := (k / c)%Z).
  assert (Hq : (0 <= q)%Z) by (apply Z.div_pos; lia).
  assert (Hp : (0 < 2 ^ j)%Z) by (apply Z.pow_pos_nonneg; lia).
  assert (Hqb : (q + 1 <= 2 ^ 53)%Z) by nia.
  pose proof (Z.div_mod k c ltac:(lia)) as Hdm.
  pose proof (Z.mod_pos_bound k c ltac:(lia)) as Hmod.
  fold q in Hdm.
  assert (Hcq : 0 < inject_Z c) by (rewrite <- (Zlt_Qlt 0); lia).
  set (x := inject_Z k / inject_Z c).
  assert (Hk' : inject_Z k == inject_Z c * inject_Z q + inject_Z (k mod c)).
  { rewrite <- inject_Z_mult, <- inject_Z_plus. now rewrite <- Hdm. }
  assert (Hlo : inject_Z q <= x).
  { unfold x. apply Qle_shift_div_l; [exact Hcq|].
    rewrite Hk'. assert (0 <= inject_Z (k mod c)) by (rewrite <- (Zle_Qle 0); lia).
    lra. }
  set (m := ((q + 1) * 2 ^ j - 1)%Z).
  assert (Hu : x <= inject_Z m * 2 ^ (- j)).
  { unfold x. apply Qle_shift_div_r; [exact Hcq|].
    rewrite Hk'. unfold m.
    rewrite inject_Z_sub, inject_Z_mult, inject_Z_plus.
    rewrite two_power_inject by lia.
    pose proof (two_power_cancel j) as Hcan.
    pose proof (two_power_pos j). pose proof (two_power_pos (- j)).
    assert (Hr : inject_Z (k mod c) <= inject_Z c - 1).
    { rewrite <- (inject_Z_sub c 1), <- Zle_Qle. lia. }
    assert (Hcj : inject_Z c <= 2 ^ j).
    { rewrite <- two_power_inject by lia. rewrite <- Zle_Qle. lia. }
    set (P := 2 ^ j) in *. set (N := 2 ^ (- j)) in *.
    set (C := inject_Z c) in *. set (Q' := inject_Z q) in *.
    assert (Hq' : 0 <= Q') by (unfold Q'; rewrite <- (Zle_Qle 0); lia).
    assert (E : ((Q' + inject_Z 1) * P - inject_Z 1) * N * C
                == (Q' + 1) * C * (P * N) - N * C) by (change (inject_Z 1) with 1; ring).
    rewrite E, Hcan.
    assert (N * C <= 1).
    { rewrite <- Hcan. rewrite (Qmult_comm P N).
      apply Qmult_le_l; assumption. }
    lra. }
  assert (Hm : (Z.abs m < 2 ^ 53)%Z) by (unfold m; nia).
  assert (Rlo : inject_Z q <= round x).
  { rewrite <- (round_Z q) by lia. now apply round_mono. }
  assert (Rhi : round x <= inject_Z m * 2 ^ (- j)).
  { rewrite <- (round_exact m (- j)) by lia. now apply round_mono. }
  apply Qfloor_unique; [exact Rlo|].
  eapply Qle_lt_trans; [exact Rhi|].
  unfold m. rewrite inject_Z_sub, inject_Z_mult, two_power_inject by lia.
  pose proof (two_power_cancel j) as Hcan. pose proof (two_power_pos (- j)).
  set (P := 2 ^ j) in *. set (N := 2 ^ (- j)) in *.
  assert (E : (inject_Z (q + 1) * P - inject_Z 1) * N
              == inject_Z (q + 1) * (P * N) - N) by (change (inject_Z 1) with 1; ring).
  rewrite E, Hcan. lra.
Qed.

(** A quotient that is not positive has a floor that is not positive. *)
Lemma floor_div_nonpos (x : Q) (c : Z) :
  x <= 0 -> (0 < c)%Z -> (floor_div x c <= 0)%Z.
Proof.
  intros Hx Hc. unfold floor_div.
  assert (Hcq : 0 < inject_Z c) by (rewrite <- (Zlt_Qlt 0); lia).
  assert (Hd : x / inject_Z c <= 0).
  { apply Qle_shift_div_r; [exact Hcq | lra]. }
  pose proof (round_mono _ _ Hd) as Hr.
  change (round 0) with 0 in Hr.
  pose proof (Qfloor_resp_le _ _ Hr) as Hf.
  exact Hf.
Qed.

End Binary64Facts.

(** ** The model at work *)

Section ModelExamples.
Local Open Scope string_scope.

Example split_url :
  JS.split "/" "https://a.b/c/d.png" = ["https:"; ""; "a.b"; "c"; "d.png"].
Proof. reflexivity. Qed.

Example replace_first_only :
  JS.replace "." "-" (JS.replace ".com" "" "a.b.co.uk") = "a-b.co.uk".
Proof. reflexivity. Qed.

Example trim_blank : JS.trim "  a b  " = "a b" /\ JS.trim "   " = "".
Proof. split; reflexivity. Qed.

Example match_query_topic :
  JS.match_query "https://source.unsplash.com/800x600/?cats" = Some "cats" /\
  JS.match_query "https://source.unsplash.com/800x600/?" = None.
Proof. split; reflexivity. Qed.

Example brand_logo_chain :
  SafeImage.getFallbackSources (fun s => s) (fun _ _ => None) None 7
    "https://logo.clearbit.com/spotify.com" =
  ["https://logo.clearbit.com/spotify.com";
   "/assets/logos/local-spotify.png";
   "/assets/logos/default.png"].
Proof. reflexivity. Qed.

Example explicit_fallback_wins :
  SafeImage.getFallbackSources (fun s => s) (fun _ _ => None)
    (Some "/local.png") 7 "https://x.supabase.co/storage/v1/a.png" =
  ["https://x.supabase.co/storage/v1/a.png"; "/local.png"].
Proof. reflexivity. Qed.

Example fifth_load_waits :
  LoadManager.run
    [LoadManager.StartLoad 1%nat; LoadManager.StartLoad 2%nat;
     LoadManager.StartLoad 3%nat; LoadManager.StartLoad 4%nat;
     LoadManager.StartLoad 5%nat; LoadManager.FinishLoad (1 # 2)]
    LoadManager.init =
  ({| LoadManager.activeLoads := 4; LoadManager.maxConcurrent := 4;
      LoadManager.queue := [] |},
   [LoadManager.Call 1%nat; LoadManager.Call 2%nat; LoadManager.Call 3%nat;
    LoadManager.Call 4%nat;
    LoadManager.SetTimeout 5%nat (Binary64.Finite 50)]).
Proof. reflexivity. Qed.

Example three_retries_then_error :
  let env := fun (_ : string) (_ : nat) =>
               {| SafeImage.url_ok := true; SafeImage.img_ok := false;
                  SafeImage.rnd := 1 # 2 |} in
  SafeImage.retries (fst (SafeImage.loadImage 3 false env "a.png" 0)) =
  [("a.png", 1%nat, Binary64.Finite 1500);
   ("a.png", 2%nat, Binary64.Finite 2500);
   ("a.png", 3%nat, Binary64.Finite 4500)].
Proof. reflexivity. Qed.

Example delete_post_with_upload :
  FeedCard.handleDeletePost
    (fun _ => FeedCard.Fulfilled
                {| FeedCard.user := None; FeedCard.display_name := None;
                   FeedCard.error := None |})
    {| FeedCard.id := "p1"; FeedCard.authorId := "u1";
       FeedCard.content_url :=
         Some "https://x.supabase.co/storage/v1/object/public/posts/u1/f.png" |}
    true =
  ([FeedCard.SetDeleting true;
    FeedCard.Request (FeedCard.StorageRemove (Some "posts") ["u1/f.png"]);
    FeedCard.Request (FeedCard.Delete "posts" [("id", "p1")]);
    FeedCard.Toast "Post deleted" "Your post has been removed" None;
    FeedCard.OnPostDeleted "p1";
    FeedCard.SetDeleting false;
    FeedCard.SetShowDeleteDialog false],
   inr tt).
Proof. reflexivity. Qed.

Example decimal_text :
  Database.decimal_10_2_out 100 = "1.00" /\
  Database.decimal_10_2_out 50 = "0.50" /\
  Database.decimal_10_2_out 123456 = "1234.56".
Proof. repeat split; reflexivity. Qed.

Example rewards_overflow_aborts :
  Database.update_rewards "u1" 100
    [ {| Database.profiles.user_id := "u1";
         Database.profiles.rewards := 9999999950 |} ] =
  Database.Error Database.numeric_value_out_of_range.
Proof. reflexivity. Qed.

(** A no-break space (U+00A0) is white space: a comment made of it is
    blank and is not sent, and it is trimmed off a comment's end. *)
Example trim_no_break_space :
  let nbsp := JS.utf8 [194; 160]%nat in
  JS.trim nbsp = "" /\
  JS.trim ("hi" ++ nbsp) = "hi" /\
  JS.trim (JS.utf8 [239; 187; 191; 226; 128; 168]%nat ++ "a b " ++ nbsp) =
  "a b" /\
  FeedCard.handleAddComment
    (fun _ => FeedCard.Rejects "Failed to fetch")
    {| FeedCard.id := "p1"; FeedCard.authorId := "u1";
       FeedCard.content_url := None |}
    nbsp = ([], inr tt).
Proof. repeat split; reflexivity. Qed.

(** Rounding: [0.1] is not a binary64 value, [2^53 + 1] rounds to the
    even neighbour, and the largest jitter brings the delay of attempt 1
    to 3000 exactly. *)
Example binary64_rounding :
  Binary64.round (1 # 10) = (3602879701896397 # 36028797018963968)%Q /\
  Binary64.round (inject_Z (2 ^ 53 + 1)) = inject_Z (2 ^ 53) /\
  Binary64.round (inject_Z (2 ^ 53 + 3)) = inject_Z (2 ^ 53 + 4) /\
  (1 - (1 # 2 ^ 52) < 1)%Q /\
  SafeImage.retry_delay 1 (1 - (1 # 2 ^ 52)) = Binary64.Finite 3000 /\
  SafeImage.retry_delay 1024 (1 # 2) = Binary64.Infinity false.
Proof. repeat split; vm_compute; reflexivity. Qed.

(** The difference of two dates is rounded before it is divided: for
    these two valid dates it is [9007199913599999], which rounds up, and
    the age comes out as 14892857 weeks, one more than the quotient of
    the integers. *)
Example age_of_a_very_old_date :
  let elapsed :=
    Binary64.round (inject_Z 8640000000000000 - inject_Z (-367199913599999)) in
  let seconds := Binary64.floor_div elapsed 1000 in
  let minutes := Binary64.floor_div (inject_Z seconds) 60 in
  let hours := Binary64.floor_div (inject_Z minutes) 60 in
  let days := Binary64.floor_div (inject_Z hours) 24 in
  elapsed = inject_Z 9007199913600000 /\
  seconds = 9007199913600%Z /\
  Binary64.floor_div (inject_Z days) 7 = 14892857%Z /\
  ((8640000000000000 - -367199913599999) / 1000 / 604800 = 14892856)%Z.
Proof. repeat split; vm_compute; reflexivity. Qed.

End ModelExamples.

Section LoadManagerFacts.
Import LoadManager.
Variable callback : Type.
Implicit Types (m : manager callback) (ops : list (op callback)).

(** [maxConcurrent] is never written. *)
Lemma step_maxConcurrent o m :
  maxConcurrent (fst (step o m)) = maxConcurrent m.
Proof.
  destruct o as [cb|rnd]; simpl.
  - unfold startLoad. destruct (canLoad m); reflexivity.
  - unfold finishLoad. destruct (queue m); reflexivity.
Qed.

(** One step keeps the counter at or below the limit. *)
Lemma step_bounded o m :
  activeLoads m <= maxConcurrent m ->
  activeLoads (fst (step o m)) <= maxConcurrent m.
Proof.
  intros Hle. destruct o as [cb|rnd]; simpl.
  - unfold startLoad, canLoad.
    destruct (Z.ltb_spec (activeLoads m) (maxConcurrent m)); simpl; lia.
  - unfold finishLoad. destruct (queue m); simpl; lia.
Qed.

Lemma run_bounded ops m :
  activeLoads m <= maxConcurrent m ->
  activeLoads (fst (run ops m)) <= maxConcurrent m /\
  maxConcurrent (fst (run ops m)) = maxConcurrent m.
Proof.
  revert m. induction ops as [|o ops IH]; intros m Hle; simpl.
  - split; [assumption | reflexivity].
  - pose proof (@step_bounded o m Hle) as Hb.
    pose proof (step_maxConcurrent o m) as Hm.
    destruct (step o m) as [m1 e1]; simpl in *.
    rewrite <- Hm in Hb. destruct (IH m1 Hb) as [H1 H2].
    destruct (run ops m1) as [m2 e2]; simpl in *.
    split; [lia | congruence].
Qed.

(** The counter is the number of loads in flight, as long as the caller
    keeps to the discipline. *)
Lemma disciplined_counts ops : forall m k,
  disciplined_from m k ops = true ->
  activeLoads (fst (run ops m)) - activeLoads m =
  Z.of_nat (dispatched (snd (run ops m))) - Z.of_nat (completions ops).
Proof.
  induction ops as [|o ops IH]; intros m k Hd; simpl in *.
  - lia.
  - destruct o as [cb|rnd]; simpl in *.
    + destruct (startLoad cb m) as [m1 e1] eqn:E.
      pose proof (IH _ _ Hd) as IH'.
      destruct (run ops m1) as [m2 e2]; simpl in *.
      unfold dispatched in *. rewrite length_app.
      unfold startLoad in E. destruct (canLoad m); inversion E; subst;
        rewrite ?Nat2Z.inj_add; cbn [List.length activeLoads] in *; lia.
    + destruct k as [|k]; [discriminate|].
      destruct (finishLoad rnd m) as [m1 e1] eqn:E.
      pose proof (IH _ _ Hd) as IH'.
      destruct (run ops m1) as [m2 e2]; simpl in *.
      unfold dispatched in *. rewrite length_app.
      unfold finishLoad in E. destruct (queue m); inversion E; subst;
        rewrite ?Nat2Z.inj_add; cbn [List.length activeLoads] in *; lia.
Qed.

(** The ghost counter of the discipline never exceeds what was really
    dispatched and not completed, so a disciplined run has [in_flight >= 0]. *)
Lemma disciplined_nonneg ops : forall m k,
  disciplined_from m k ops = true ->
  Z.of_nat (completions ops) <=
  Z.of_nat k + Z.of_nat (dispatched (snd (run ops m))).
Proof.
  induction ops as [|o ops IH]; intros m k Hd.
  - simpl. lia.
  - destruct o as [cb|rnd]; cbn [run step disciplined_from completions] in *.
    + destruct (startLoad cb m) as [m1 e1] eqn:E.
      pose proof (IH _ _ Hd) as IH'.
      destruct (run ops m1) as [m2 e2]; cbn [fst snd] in *.
      unfold dispatched in *. rewrite length_app. lia.
    + destruct k as [|k]; [discriminate|].
      destruct (finishLoad rnd m) as [m1 e1] eqn:E.
      pose proof (IH _ _ Hd) as IH'.
      destruct (run ops m1) as [m2 e2]; cbn [fst snd] in *.
      unfold dispatched in *. rewrite length_app. lia.
Qed.

(** The discipline is kept by every prefix of a run that keeps it. *)
Lemma disciplined_prefix ops : forall m k n,
  disciplined_from m k ops = true ->
  disciplined_from m k (firstn n ops) = true.
Proof.
  induction ops as [|o ops IH]; intros m k n Hd.
  - now rewrite firstn_nil.
  - destruct n as [|n]; [reflexivity|].
    destruct o as [cb|rnd]; cbn [firstn disciplined_from] in *.
    + destruct (startLoad cb m) as [m1 e1]. now apply IH.
    + destruct k as [|k]; [discriminate|].
      destruct (finishLoad rnd m) as [m1 e1]. now apply IH.
Qed.

(** At the end of a disciplined run the counter is the number of loads in
    flight, within the limit. *)
Lemma disciplined_final ops :
  disciplined ops = true ->
  maxConcurrent (final ops) = 4 /\
  activeLoads (final ops) = in_flight ops /\
  0 <= activeLoads (final ops) <= 4.
Proof.
  intros Hd.
  assert (Hinit : activeLoads (@init callback) <= maxConcurrent (@init callback))
    by (simpl; lia).
  destruct (run_bounded ops init Hinit) as [Hle Hmax].
  pose proof (disciplined_counts ops init 0%nat Hd) as Hc.
  pose proof (disciplined_nonneg ops init 0%nat Hd) as Hn.
  fold (final ops) in Hle, Hmax, Hc.
  simpl in Hle, Hmax, Hc, Hn. rewrite Z.sub_0_r in Hc.
  split; [exact Hmax|]. split; [exact Hc|].
  rewrite Hc in *. lia.
Qed.

(** C1. Bounded concurrency. Take any sequence of [startLoad] and
    [finishLoad] calls on a fresh manager in which [finishLoad] only
    completes a load dispatched before. At every point of it, [activeLoads]
    is the number of loads in flight, never negative and never above
    [maxConcurrent = 4]; and a [startLoad] that arrives while four loads
    are active appends its closure to the queue and runs nothing. *)
Theorem activeLoads_bounded ops :
  disciplined ops = true ->
  forall n,
    let m := final (firstn n ops) in
    maxConcurrent m = 4 /\
    activeLoads m = in_flight (firstn n ops) /\
    0 <= activeLoads m <= 4 /\
    (forall cb, activeLoads m = 4 ->
       startLoad cb m =
       ({| activeLoads := 4; maxConcurrent := 4; queue := queue m ++ [cb] |},
        [])).
Proof.
  intros Hd n m.
  assert (Hpre : disciplined (firstn n ops) = true)
    by (apply disciplined_prefix; exact Hd).
  destruct (disciplined_final (firstn n ops) Hpre) as (Hmax & Hfl & Hrange).
  fold m in Hmax, Hfl, Hrange. clearbody m.
  repeat split; try assumption; try lia.
  intros cb H4. unfold startLoad, canLoad, push.
  rewrite Hmax, H4. reflexivity.
Qed.

(** The closures handed to timers, followed by those still waiting, are
    the deferred closures in their order of arrival. *)
Lemma queue_order ops : forall m,
  timeouts (snd (run ops m)) ++ queue (fst (run ops m)) =
  queue m ++ deferred ops m.
Proof.
  assert (Happ : forall (e1 e2 : list (effect callback)),
             timeouts (e1 ++ e2) = timeouts e1 ++ timeouts e2).
  { induction e1 as [|[cb|cb d] e1 IHe]; intros e2; simpl;
      [reflexivity | apply IHe | now rewrite IHe]. }
  induction ops as [|o ops IH]; intros m; simpl.
  - now rewrite app_nil_r.
  - specialize (IH (fst (step o m))).
    destruct (step o m) as [m1 e1] eqn:E; simpl in *.
    destruct (run ops m1) as [m2 e2]; simpl in *.
    rewrite Happ, <- app_assoc, IH.
    destruct o as [cb|rnd]; simpl in E.
    + unfold startLoad in E. destruct (canLoad m); inversion E; subst; simpl.
      * reflexivity.
      * unfold push. now rewrite <- app_assoc.
    + unfold finishLoad in E.
      destruct (queue m) as [|next rest]; inversion E; subst; reflexivity.
Qed.

(** C7. The deferred queue is first in, first out. In every state reached
    from a fresh manager, a [finishLoad] that finds the queue non-empty
    removes its head, the earliest closure still waiting, hands exactly
    that one closure to [setTimeout] and leaves the rest of the queue
    and the counter as they were; no [finishLoad] dispatches more than one
    closure; and over the whole run the closures handed to timers followed
    by those still queued are the deferred closures in their order of
    arrival, so none overtakes an earlier one. *)
Theorem queue_fifo ops :
  let m := final ops in
  (forall rnd next rest,
      queue m = next :: rest ->
      finishLoad rnd m =
      ({| activeLoads := activeLoads m;
          maxConcurrent := maxConcurrent m;
          queue := rest |},
       [SetTimeout next
          (Binary64.mul (Binary64.Finite rnd) (Binary64.Finite 100))])) /\
  (forall rnd, (List.length (snd (finishLoad rnd m)) <= 1)%nat) /\
  timeouts (effects ops) ++ queue m = deferred ops init.
Proof.
  intros m. split; [|split].
  - intros rnd next rest Hq. unfold finishLoad. rewrite Hq. simpl.
    f_equal. f_equal. lia.
  - intros rnd. unfold finishLoad.
    destruct (queue m); simpl; lia.
  - exact (queue_order ops init).
Qed.

End LoadManagerFacts.

Lemma activeLoads_bounded_witness :
  let ops : list (LoadManager.op nat) :=
    [LoadManager.StartLoad 1%nat; LoadManager.StartLoad 2%nat;
     LoadManager.StartLoad 3%nat; LoadManager.StartLoad 4%nat;
     LoadManager.StartLoad 5%nat] in
  LoadManager.disciplined ops = true /\
  LoadManager.activeLoads (LoadManager.final ops) = 4 /\
  LoadManager.startLoad 6%nat (LoadManager.final ops) =
  ({| LoadManager.activeLoads := 4; LoadManager.maxConcurrent := 4;
      LoadManager.queue := [5%nat; 6%nat] |}, []).
Proof.
  intros ops.
  destruct (@activeLoads_bounded nat ops eq_refl 5%nat) as (_ & _ & _ & Hq).
  split; [reflexivity | split; [reflexivity |]].
  exact (Hq 6%nat eq_refl).
Defined.

Lemma queue_fifo_witness :
  let ops : list (LoadManager.op nat) :=
    [LoadManager.StartLoad 1%nat; LoadManager.StartLoad 2%nat;
     LoadManager.StartLoad 3%nat; LoadManager.StartLoad 4%nat;
     LoadManager.StartLoad 5%nat; LoadManager.StartLoad 6%nat] in
  LoadManager.queue (LoadManager.final ops) = [5%nat; 6%nat] /\
  LoadManager.finishLoad (1 # 2) (LoadManager.final ops) =
  ({| LoadManager.activeLoads := 4; LoadManager.maxConcurrent := 4;
      LoadManager.queue := [6%nat] |},
   [LoadManager.SetTimeout 5%nat (Binary64.Finite 50)]).
Proof.
  intros ops. split; [reflexivity |].
  exact (proj1 (@queue_fifo nat ops) (1 # 2)%Q 5%nat [6%nat] eq_refl).
Defined.

Section SafeImageFacts.
Import SafeImage.
Local Open Scope string_scope.

Variable encodeURIComponent : string -> string.
Variable URLSearchParams_get : string -> string -> option string.
Variable maxRetries : Z.
Variable effectiveLowBandwidth : bool.
Variable env : oracle.

Abbreviation loadCallback := (loadCallback maxRetries env).
Abbreviation loadImage_from := (loadImage_from maxRetries effectiveLowBandwidth env).
Abbreviation loadImage := (loadImage maxRetries effectiveLowBandwidth env).

Lemma retries_app (e1 e2 : list event) :
  retries (e1 ++ e2)%list = (retries e1 ++ retries e2)%list.
Proof.
  induction e1 as [|e e1 IH]; simpl; [reflexivity|].
  destruct e; simpl; rewrite ?IH; reflexivity.
Qed.

Lemma loads_started_app (e1 e2 : list event) :
  loads_started (e1 ++ e2)%list = (loads_started e1 ++ loads_started e2)%list.
Proof.
  induction e1 as [|e e1 IH]; simpl; [reflexivity|].
  destruct e; simpl; rewrite ?IH; reflexivity.
Qed.

(** The closure itself starts no load and sets no timer. *)
Lemma loadCallback_quiet src n :
  retries (fst (loadCallback src n)) = [] /\
  loads_started (fst (loadCallback src n)) = [].
Proof.
  unfold SafeImage.loadCallback.
  destruct (negb (url_ok (env src n)) && (n =? 0)%nat);
    [split; reflexivity|].
  destruct (img_ok (env src n)); [split; reflexivity|].
  destruct (Z.of_nat n <? maxRetries)%Z; split; reflexivity.
Qed.

(** A retry is only asked for below [maxRetries]. *)
Lemma loadCallback_retry src n d :
  snd (loadCallback src n) = Retry d ->
  Z.of_nat n < maxRetries /\ d = retry_delay n (rnd (env src n)).
Proof.
  unfold SafeImage.loadCallback.
  destruct (negb (url_ok (env src n)) && (n =? 0)%nat); [discriminate|].
  destruct (img_ok (env src n)); [discriminate|].
  destruct (Z.ltb_spec (Z.of_nat n) maxRetries); simpl; [|discriminate].
  intros E; inversion E; split; [assumption | reflexivity].
Qed.

Lemma finishes_app (e1 e2 : list event) :
  finishes (e1 ++ e2)%list = (finishes e1 + finishes e2)%nat.
Proof.
  induction e1 as [|e e1 IH]; simpl; [reflexivity|].
  destruct e; simpl; rewrite ?IH; reflexivity.
Qed.

(** The closure calls [finishLoad] exactly once, however it ends. *)
Lemma loadCallback_finishes_once src n :
  finishes (fst (loadCallback src n)) = 1%nat.
Proof.
  unfold SafeImage.loadCallback.
  destruct (negb (url_ok (env src n)) && (n =? 0)%nat); [reflexivity|].
  destruct (img_ok (env src n)); [reflexivity|].
  destruct (Z.of_nat n <? maxRetries)%Z; reflexivity.
Qed.

(** [loadImage] keeps the discipline of the load manager: it calls
    [finishLoad] once for every load it has started, and only after the
    start. *)
Lemma loadImage_finishes_every_load fuel : forall src n,
  finishes (fst (loadImage_from fuel src n)) =
  List.length (loads_started (fst (loadImage_from fuel src n))).
Proof.
  induction fuel as [|fuel IH]; intros src n; cbn [SafeImage.loadImage_from];
    destruct (effectiveLowBandwidth && (n =? 0)%nat);
    try reflexivity;
    pose proof (loadCallback_finishes_once src n) as Hf;
    pose proof (loadCallback_quiet src n) as [_ Hq];
    destruct (loadCallback src n) as [events v]; cbn [fst] in Hf, Hq;
    destruct v as [|msg|d]; cbn [fst finishes loads_started List.length];
    rewrite ?Hf, ?Hq; try reflexivity.
  - rewrite finishes_app, loads_started_app.
    cbn [finishes loads_started]. rewrite Hf, Hq. reflexivity.
  - specialize (IH src (n + 1)%nat).
    destruct (loadImage_from fuel src (n + 1)) as [later settled].
    cbn [fst] in *.
    rewrite finishes_app, loads_started_app.
    cbn [finishes loads_started app List.length]. rewrite Hf, Hq, IH.
    cbn [app List.length]. lia.
Qed.

(** Every load of a run of [loadImage] is for the source it was given. *)
Lemma loadImage_from_loads fuel : forall src n s,
  In s (loads_started (fst (loadImage_from fuel src n))) -> s = src.
Proof.
  induction fuel as [|fuel IH]; intros src n s; simpl;
    destruct (effectiveLowBandwidth && (n =? 0)%nat); simpl;
    try tauto;
    pose proof (loadCallback_quiet src n) as [_ Hq];
    destruct (loadCallback src n) as [events v]; simpl in Hq;
    destruct v as [|msg|d]; simpl; rewrite ?Hq; simpl;
    try (intuition congruence).
  - rewrite loads_started_app, Hq. simpl. intuition congruence.
  - specialize (IH src (n + 1)%nat s).
    destruct (loadImage_from fuel src (n + 1)) as [later settled].
    simpl in *. rewrite loads_started_app, Hq. simpl. intuition congruence.
Qed.

Lemma tryEach_loads sources : forall s,
  In s (loads_started (tryEach maxRetries effectiveLowBandwidth env sources)) ->
  In s sources.
Proof.
  induction sources as [|source rest IH]; intros s; [simpl; tauto|].
  cbn [tryEach].
  pose proof (@loadImage_from_loads (Z.to_nat maxRetries - 0) source 0%nat s)
    as Hone.
  fold (loadImage source 0) in Hone.
  destruct (loadImage source 0) as [events settled]. cbn [fst] in Hone.
  destruct settled as [|msg|];
    try solve [intros H; left; symmetry; auto].
  destruct rest as [|next rest']; cbv beta iota.
  - rewrite loads_started_app. cbn [loads_started app]. rewrite app_nil_r.
    intros H; left; symmetry; auto.
  - rewrite loads_started_app. intros H.
    apply in_app_or in H as [H|H]; [left; symmetry; auto | right; auto].
Qed.

(** C9. Storage URLs bypass the fallback chain. Without a [fallback]
    prop, a source that contains ['supabase.co/storage'] has itself as its
    only source, and [loadWithFallbacks] then starts no load for anything
    but that source: no other provider and no local placeholder is tried.
    A source that matches none of the provider patterns gets the two
    sources [src] and the local [FALLBACK_IMAGE]. *)
Theorem supabase_storage_single_source (src : string) (randomSeed : nat) :
  (JS.includes "supabase.co/storage" src = true ->
     getFallbackSources encodeURIComponent URLSearchParams_get
       None randomSeed src = [src] /\
     forall s,
       In s (loads_started
               (loadWithFallbacks encodeURIComponent URLSearchParams_get
                  maxRetries effectiveLowBandwidth env None randomSeed src)) ->
       s = src) /\
  (JS.includes "supabase.co/storage" src = false ->
   JS.includes "logo.clearbit.com" src = false ->
   JS.includes "dicebear.com" src = false ->
   JS.includes "pravatar.cc" src = false ->
   JS.includes "unsplash.com" src = false ->
   JS.includes "picsum.photos" src = false ->
     getFallbackSources encodeURIComponent URLSearchParams_get
       None randomSeed src = [src; FALLBACK_IMAGE]).
Proof.
  split.
  - intros Hs.
    assert (Hsrc : getFallbackSources encodeURIComponent URLSearchParams_get
                     None randomSeed src = [src]).
    { unfold getFallbackSources. cbn [JS.if_truthy]. now rewrite Hs. }
    split; [exact Hsrc|].
    intros s Hin. unfold loadWithFallbacks in Hin. rewrite Hsrc in Hin.
    apply tryEach_loads in Hin. destruct Hin as [H|[]]. now symmetry.
  - intros H1 H2 H3 H4 H5 H6.
    unfold getFallbackSources. cbn [JS.if_truthy].
    rewrite H1, H2, H3, H4, H5, H6. reflexivity.
Qed.

(** The fuel [loadImage] starts with is enough: the promise settles. *)
Lemma loadImage_from_settles fuel : forall src n,
  (Z.to_nat maxRetries - n <= fuel)%nat ->
  snd (loadImage_from fuel src n) <> Unsettled.
Proof.
  induction fuel as [|fuel IH]; intros src n Hfuel; cbn [SafeImage.loadImage_from];
    destruct (effectiveLowBandwidth && (n =? 0)%nat);
    try (cbn; discriminate);
    pose proof (@loadCallback_retry src n) as Hr;
    destruct (loadCallback src n) as [events v];
    destruct v as [|msg|d]; try (cbn; discriminate).
  - destruct (Hr d eq_refl) as [Hlt _]. lia.
  - destruct (Hr d eq_refl) as [Hlt _].
    assert (Hfuel' : (Z.to_nat maxRetries - (n + 1) <= fuel)%nat) by lia.
    specialize (IH src (n + 1)%nat Hfuel').
    destruct (loadImage_from fuel src (n + 1)) as [later settled].
    exact IH.
Qed.

(** No run schedules more than [maxRetries] retries. *)
Lemma loadImage_from_retries_bound fuel : forall src n,
  (List.length (retries (fst (loadImage_from fuel src n)))
   <= Z.to_nat maxRetries - n)%nat.
Proof.
  induction fuel as [|fuel IH]; intros src n; cbn [SafeImage.loadImage_from];
    destruct (effectiveLowBandwidth && (n =? 0)%nat);
    try (cbn; lia);
    pose proof (@loadCallback_retry src n) as Hr;
    pose proof (loadCallback_quiet src n) as [Hq _];
    destruct (loadCallback src n) as [events v]; cbn [fst snd] in *;
    destruct v as [|msg|d]; cbn [fst retries]; rewrite ?Hq;
    try (cbn; lia).
  - destruct (Hr d eq_refl) as [Hlt _].
    rewrite retries_app. cbn [retries]. rewrite Hq. cbn. lia.
  - destruct (Hr d eq_refl) as [Hlt _].
    specialize (IH src (n + 1)%nat).
    destruct (loadImage_from fuel src (n + 1)) as [later settled].
    cbn [fst] in *. rewrite retries_app. cbn [retries]. rewrite Hq.
    cbn [app List.length]. lia.
Qed.

(** A source whose image element fails every time. *)
Lemma loadImage_from_all_fail src fuel : forall n,
  (forall k, img_ok (env src k) = false) ->
  (n <> 0%nat \/ effectiveLowBandwidth = false /\ url_ok (env src 0%nat) = true) ->
  Z.of_nat (n + fuel) = maxRetries ->
  let msg := "Failed to load image: " ++ src in
  map fst (retries (fst (loadImage_from fuel src n))) =
    map (pair src) (seq (S n) fuel) /\
  snd (loadImage_from fuel src n) = Rejected msg /\
  exists before,
    fst (loadImage_from fuel src n) =
    (before ++ [SetError (Some msg); OnError msg])%list.
Proof.
  induction fuel as [|fuel IH]; intros n Hfail Hfirst Hsum msg;
    cbn [SafeImage.loadImage_from];
    (assert (Hlow : effectiveLowBandwidth && (n =? 0)%nat = false)
      by (destruct Hfirst as [Hn|[Hl _]];
          [apply Nat.eqb_neq in Hn; rewrite Hn; apply andb_false_r
          | rewrite Hl; reflexivity]));
    (assert (Hurl : negb (url_ok (env src n)) && (n =? 0)%nat = false)
      by (destruct Hfirst as [Hn|[_ Hu]];
          [apply Nat.eqb_neq in Hn; rewrite Hn; apply andb_false_r
          | destruct n; [rewrite Hu; reflexivity | apply andb_false_r]]));
    rewrite Hlow; unfold SafeImage.loadCallback; rewrite Hurl, Hfail.
  - destruct (Z.ltb_spec (Z.of_nat n) maxRetries) as [Hlt|Hge]; [lia|].
    cbn [fst snd retries app map seq]. repeat split.
    eexists (LoadManagerStart src n :: SetIsLoading true :: SetError None
             :: LoadManagerFinish :: [_]).
    reflexivity.
  - destruct (Z.ltb_spec (Z.of_nat n) maxRetries) as [Hlt|Hge]; [|lia].
    assert (Hnext : (n + 1 <> 0)%nat) by lia.
    assert (Hsum' : Z.of_nat (n + 1 + fuel) = maxRetries) by lia.
    destruct (IH (n + 1)%nat Hfail (or_introl Hnext) Hsum')
      as (Hr & Hs & before & Hb).
    destruct (SafeImage.loadImage_from maxRetries effectiveLowBandwidth env
                fuel src (n + 1)) as [later settled].
    cbn [fst snd] in *. subst later. repeat split.
    + cbn [app retries map seq fst]. rewrite Hr.
      replace (n + 1)%nat with (S n) by lia. reflexivity.
    + exact Hs.
    + match goal with
      | |- exists b, (?pre ++ ?t :: ?r :: before ++ _)%list = _ =>
          exists (pre ++ t :: r :: before)%list
      end.
      rewrite <- app_assoc. reflexivity.
Qed.

(** A power of two is exact. *)
Lemma pow2_exact (n : nat) :
  (n <= 1023)%nat ->
  Binary64.pow2 n = Binary64.Finite (inject_Z (2 ^ Z.of_nat n)).
Proof.
  intros Hn. unfold Binary64.pow2. apply fl_finite.
  - apply (round_integer _ _ 1 (Z.of_nat n)); [reflexivity | | reflexivity | lia].
    rewrite two_power_inject by lia. ring.
  - rewrite Z.abs_eq by (apply Z.pow_nonneg; lia).
    apply Z.pow_lt_mono_r; lia.
Qed.

(** The fixed part of the delay is exactly [2^n * 1000], as long as it is
    in range. *)
Lemma backoff_base_exact (n : nat) :
  (n <= 1013)%nat ->
  backoff_base n = Binary64.Finite (inject_Z (2 ^ Z.of_nat n * 1000)).
Proof.
  intros Hn. unfold backoff_base. rewrite pow2_exact by lia.
  cbn [Binary64.mul].
  assert (Hpos : 0 < 2 ^ Z.of_nat n) by (apply Z.pow_pos_nonneg; lia).
  apply fl_finite.
  - apply (round_integer _ _ 125 (Z.of_nat n + 3)).
    + rewrite inject_Z_mult. reflexivity.
    + rewrite inject_Z_mult, two_power_add, <- !two_power_inject by lia.
      change (inject_Z (2 ^ 3)) with (8%Q). change (inject_Z 1000) with (1000%Q).
      change (inject_Z 125) with (125%Q). ring.
    + reflexivity.
    + lia.
  - rewrite Z.abs_eq by lia.
    assert (2 ^ Z.of_nat n * 1000 < 2 ^ Z.of_nat n * 2 ^ 10) by lia.
    rewrite <- Z.pow_add_r in H by lia.
    assert (2 ^ (Z.of_nat n + 10) <= 2 ^ 1023) by (apply Z.pow_le_mono_r; lia).
    assert (2 ^ 1023 < 2 ^ 1024) by (apply Z.pow_lt_mono_r; lia).
    lia.
Qed.

(** The jitter is a number from 0 to 1000. *)
Lemma jitter_range (r : Q) :
  (0 <= r)%Q /\ (r < 1)%Q ->
  exists j : Q, jitter r = Binary64.Finite j /\ (0 <= j)%Q /\ (j <= 1000)%Q.
Proof.
  intros [H0 H1]. unfold jitter. cbn [Binary64.mul].
  destruct (fl_between (r * 1000)%Q 0 1000) as (Hf & Hlo & Hhi).
  - change (inject_Z 0) with (0%Q). lra.
  - change (inject_Z 1000) with (1000%Q). lra.
  - reflexivity.
  - reflexivity.
  - exists (Binary64.round (r * 1000)). repeat split; assumption.
Qed.

(** Up to attempt 43, where [2^n * 1000 + 1000] is still below [2^53], the
    delay lies between [2^n * 1000] and [2^n * 1000 + 1000], both ends
    included. *)
Lemma retry_delay_range (n : nat) (r : Q) :
  (n <= 43)%nat ->
  (0 <= r)%Q /\ (r < 1)%Q ->
  exists d : Q,
    retry_delay n r = Binary64.Finite d /\
    (inject_Z (2 ^ Z.of_nat n * 1000) <= d)%Q /\
    (d <= inject_Z (2 ^ Z.of_nat n * 1000) + 1000)%Q.
Proof.
  intros Hn Hr. unfold retry_delay.
  rewrite backoff_base_exact by lia.
  destruct (jitter_range r Hr) as (j & -> & Hj0 & Hj1).
  cbn [Binary64.add].
  set (b := 2 ^ Z.of_nat n * 1000).
  assert (Hb0 : 0 < b) by (unfold b; assert (0 < 2 ^ Z.of_nat n)
                             by (apply Z.pow_pos_nonneg; lia); lia).
  assert (Hb1 : b + 1000 < 2 ^ 53).
  { unfold b.
    assert (2 ^ Z.of_nat n <= 2 ^ 43) by (apply Z.pow_le_mono_r; lia).
    change (2 ^ 43) with 8796093022208 in H.
    change (2 ^ 53) with 9007199254740992. lia. }
  destruct (fl_between (inject_Z b + j)%Q b (b + 1000)) as (Hf & Hlo & Hhi).
  - lra.
  - rewrite inject_Z_plus. change (inject_Z 1000) with (1000%Q). lra.
  - lia.
  - lia.
  - exists (Binary64.round (inject_Z b + j)). split; [exact Hf|].
    split; [exact Hlo|].
    rewrite inject_Z_plus in Hhi. exact Hhi.
Qed.

(** C3 (amended). Retry with exponential backoff, bounded. When the
    image element reports an error ([img.onerror]) at attempt [n] with
    [n < maxRetries], the attempt ends by scheduling a retry of the same
    source, as attempt [n + 1]; up to attempt 43 the delay is a number
    from [2^n * 1000] to [2^n * 1000 + 1000] milliseconds, both ends
    included (the sum is rounded, and can reach the upper end); the fixed
    part is exactly [2^n * 1000], so it doubles from one attempt to the
    next. The promise of [loadImage] always settles, no run schedules more
    than [maxRetries] retries, and a source whose image element fails every
    time is retried exactly [maxRetries] times (attempts 1 to
    [maxRetries]), after which the error is recorded, the error callback
    is invoked and the promise is rejected. A source that fails the HEAD
    check at attempt 0 is not retried: the error callback is invoked and the
    promise is rejected at once. *)
Theorem loadImage_retry_backoff (src : string) :
  (forall n,
      img_ok (env src n) = false ->
      (url_ok (env src n) = true \/ n <> 0%nat) ->
      Z.of_nat n < maxRetries ->
      (n <= 43)%nat ->
      (0 <= rnd (env src n))%Q /\ (rnd (env src n) < 1)%Q ->
      exists d : Q,
        ((inject_Z (2 ^ Z.of_nat n * 1000) <= d)%Q /\
         (d <= inject_Z (2 ^ Z.of_nat n * 1000) + 1000)%Q) /\
        let delay := Binary64.Finite d in
        snd (loadCallback src n) = Retry delay /\
        (effectiveLowBandwidth = false \/ n <> 0%nat ->
         forall fuel,
           retries (fst (loadImage_from (S fuel) src n)) =
           (src, (n + 1)%nat, delay)
             :: retries (fst (loadImage_from fuel src (n + 1))))) /\
  (forall n,
      (n <= 1013)%nat ->
      backoff_base n = Binary64.Finite (inject_Z (2 ^ Z.of_nat n * 1000)) /\
      2 ^ Z.of_nat (S n) * 1000 = 2 * (2 ^ Z.of_nat n * 1000)) /\
  snd (loadImage src 0) <> Unsettled /\
  (List.length (retries (fst (loadImage src 0))) <= Z.to_nat maxRetries)%nat /\
  ((forall k, img_ok (env src k) = false) ->
   url_ok (env src 0%nat) = true ->
   effectiveLowBandwidth = false ->
   0 <= maxRetries ->
   let msg := "Failed to load image: " ++ src in
   map fst (retries (fst (loadImage src 0))) =
     map (pair src) (seq 1 (Z.to_nat maxRetries)) /\
   snd (loadImage src 0) = Rejected msg /\
   exists before,
     fst (loadImage src 0) =
     (before ++ [SetError (Some msg); OnError msg])%list) /\
  (url_ok (env src 0%nat) = false ->
   effectiveLowBandwidth = false ->
   snd (loadImage src 0) = Rejected "URL validation failed" /\
   retries (fst (loadImage src 0)) = [] /\
   In (OnError "URL validation failed") (fst (loadImage src 0))).
Proof.
  split; [|split; [|split; [|split; [|split]]]].
  - intros n Himg Hurl Hlt H43 Hrnd.
    destruct (retry_delay_range n (rnd (env src n)) H43 Hrnd)
      as (d & Hd & Hlo & Hhi).
    exists d. split; [split; assumption|]. rewrite <- Hd.
    assert (Hv : negb (url_ok (env src n)) && (n =? 0)%nat = false).
    { destruct Hurl as [Hu|Hn]; [rewrite Hu; reflexivity|].
      apply Nat.eqb_neq in Hn. rewrite Hn. apply andb_false_r. }
    assert (Hcb : loadCallback src n =
                  (([SetIsLoading true; SetError None] ++
                    [LoadManagerFinish;
                     ConsoleWarn ("[SafeImage] " ++ ("Failed to load image: " ++ src)
                                  ++ " (attempt " ++ JS.of_nat (n + 1) ++ ")")])%list,
                   Retry (retry_delay n (rnd (env src n))))).
    { unfold SafeImage.loadCallback. rewrite Hv, Himg.
      destruct (Z.ltb_spec (Z.of_nat n) maxRetries); [reflexivity | lia]. }
    cbv zeta. split; [rewrite Hcb; reflexivity|].
    intros Hlow fuel. cbn [SafeImage.loadImage_from].
    assert (Hl : effectiveLowBandwidth && (n =? 0)%nat = false).
    { destruct Hlow as [Hl|Hn]; [rewrite Hl; reflexivity|].
      apply Nat.eqb_neq in Hn. rewrite Hn. apply andb_false_r. }
    rewrite Hl, Hcb.
    destruct (loadImage_from fuel src (n + 1)) as [later settled].
    cbn [fst]. rewrite retries_app. reflexivity.
  - intros n Hn. split; [now apply backoff_base_exact|].
    rewrite Nat2Z.inj_succ, Z.pow_succ_r by lia. lia.
  - apply loadImage_from_settles. lia.
  - pose proof (loadImage_from_retries_bound (Z.to_nat maxRetries - 0) src 0).
    unfold SafeImage.loadImage. lia.
  - intros Hfail Hurl Hlow Hmax.
    unfold SafeImage.loadImage. rewrite Nat.sub_0_r.
    apply loadImage_from_all_fail; [assumption | right; split; assumption | lia].
  - intros Hurl Hlow. unfold SafeImage.loadImage.
    destruct (Z.to_nat maxRetries - 0)%nat;
      cbn [SafeImage.loadImage_from]; unfold SafeImage.loadCallback;
      rewrite Hurl, Hlow; cbn;
      (split; [reflexivity | split; [reflexivity |]]);
      repeat (first [left; reflexivity | right]).
Qed.

End SafeImageFacts.

Lemma supabase_storage_single_source_witness :
  let src := "https://abc.supabase.co/storage/v1/object/public/posts/u1/a.png"%string in
  let other := "https://example.com/a.png"%string in
  let get : string -> string -> option string := fun _ _ => None in
  (JS.includes "supabase.co/storage" src = true /\
   SafeImage.getFallbackSources (fun s => s) get None 7 src = [src]) /\
  (JS.includes "supabase.co/storage" other = false /\
   SafeImage.getFallbackSources (fun s => s) get None 7 other =
   [other; SafeImage.FALLBACK_IMAGE]).
Proof.
  intros src other get.
  pose (env := fun (_ : string) (_ : nat) =>
                 {| SafeImage.url_ok := true; SafeImage.img_ok := true;
                    SafeImage.rnd := 0 |}).
  split; (split; [reflexivity|]).
  - exact (proj1 (proj1 (@supabase_storage_single_source
                           (fun s => s) get 3 false env src 7%nat) eq_refl)).
  - exact (proj2 (@supabase_storage_single_source
                    (fun s => s) get 3 false env other 7%nat)
             eq_refl eq_refl eq_refl eq_refl eq_refl eq_refl).
Defined.

Lemma loadImage_retry_backoff_witness :
  let env := fun (_ : string) (_ : nat) =>
               {| SafeImage.url_ok := true; SafeImage.img_ok := false;
                  SafeImage.rnd := 1 # 2 |} in
  let src := "https://example.com/a.png"%string in
  (exists d : Q,
      ((2000 <= d)%Q /\ (d <= 3000)%Q) /\
      snd (SafeImage.loadCallback 3 env src 1) =
      SafeImage.Retry (Binary64.Finite d)) /\
  map fst (SafeImage.retries (fst (SafeImage.loadImage 3 false env src 0))) =
    [(src, 1%nat); (src, 2%nat); (src, 3%nat)] /\
  snd (SafeImage.loadImage 3 false env src 0) =
    SafeImage.Rejected "Failed to load image: https://example.com/a.png".
Proof.
  intros env src.
  destruct (@loadImage_retry_backoff 3 false env src)
    as (H1 & _ & _ & _ & H5 & _).
  assert (Hlt : Z.of_nat 1 < 3) by lia.
  assert (Hrnd : (0 <= 1 # 2)%Q /\ (1 # 2 < 1)%Q)
    by (unfold Qle, Qlt; cbn; lia).
  assert (Hmax : 0 <= 3) by lia.
  split.
  - assert (H43 : (1 <= 43)%nat) by lia.
    destruct (H1 1%nat eq_refl (or_introl eq_refl) Hlt H43 Hrnd)
      as (d & Hd & Hr & _).
    exists d. split; [|exact Hr].
    destruct Hd as [Hlo Hhi]. split; [exact Hlo | exact Hhi].
  - destruct (H5 (fun _ => eq_refl) eq_refl eq_refl Hmax) as (Hr & Hs & _).
    split; [exact Hr | exact Hs].
Defined.

(** C3 as stated fails on the HEAD check: a source whose URL validation
    fails at attempt 0 (below [maxRetries = 3]) has failed to load, yet no
    retry is scheduled; the error callback is invoked at once and the promise
    is rejected. *)
Lemma validation_failure_not_retried :
  let env := fun (_ : string) (_ : nat) =>
               {| SafeImage.url_ok := false; SafeImage.img_ok := true;
                  SafeImage.rnd := 1 # 2 |} in
  let src := SafeImage.FALLBACK_IMAGE in
  Z.of_nat 0 < 3 /\
  SafeImage.attempt_failed (snd (SafeImage.loadCallback 3 env src 0)) = true /\
  snd (SafeImage.loadImage 3 false env src 0) =
    SafeImage.Rejected "URL validation failed" /\
  In (SafeImage.OnError "URL validation failed")
     (fst (SafeImage.loadImage 3 false env src 0)) /\
  ~ (exists delay,
        In (SafeImage.SetTimeoutRetry src 1 delay)
           (fst (SafeImage.loadImage 3 false env src 0))).
Proof.
  intros env src. split; [lia|]. split; [reflexivity|]. split; [reflexivity|].
  split.
  - cbn. repeat (first [left; reflexivity | right]).
  - intros [delay Hin]. cbn in Hin.
    repeat (destruct Hin as [Hin|Hin]; [discriminate|]). exact Hin.
Defined.

Section FeedCardFacts.
Import FeedCard.
Local Open Scope string_scope.

Variable be : backend.
Variable p : post.

(** Run a handler symbolically: split on every answer of the backend and
    on every test the handler makes. *)
Ltac run_handler :=
  cbv delta [handleLike handleAddComment handleDeleteComment handleDeletePost
             handleTogglePin];
  cbn [call bind try_catch try_finally emit toast ret throw fst snd app];
  repeat (match goal with
          | |- context [match be ?r with _ => _ end] =>
              destruct (be r) as [? | ?] eqn:?
          | |- context [match user ?v with _ => _ end] =>
              destruct (user v) as [? | ] eqn:?
          | |- context [match error ?v with _ => _ end] =>
              destruct (error v) as [? | ] eqn:?
          | |- context [match JS.if_truthy ?u with _ => _ end] =>
              destruct (JS.if_truthy u) as [? | ] eqn:?
          | |- context [if ?b then _ else _] => destruct b eqn:?
          end;
          cbn [call bind try_catch try_finally emit toast ret throw
               fst snd app]).

(** In a branch where every call was fulfilled, no call was rejected. *)
Ltac no_rejection :=
  let r := fresh "r" in
  let reason := fresh "reason" in
  let Hin := fresh "Hin" in
  let Hne := fresh "Hne" in
  let Hr := fresh "Hr" in
  first
    [ intros (r & reason & Hin & Hne & Hr)
    | intros (r & reason & Hin & Hr) ];
  cbn [fst In] in Hin;
  repeat (destruct Hin as [Hin | Hin];
          [ try discriminate Hin; inversion Hin; subst; congruence | ]);
  contradiction.

Ltac settle :=
  run_handler;
  first
    [ no_rejection
    | intros _; split;
      [ reflexivity
      | unfold toasted_failure; cbn [fst In];
        repeat (first [left; reflexivity | right]) ] ].

Lemma handleLike_guarded isLiked :
  let c := handleLike be p isLiked in
  guarded_call_rejected be c ->
  completes c /\ toasted_failure "Failed to update like" c.
Proof. intros c; subst c. unfold guarded_call_rejected. settle. Qed.

Lemma handleAddComment_guarded newComment :
  let c := handleAddComment be p newComment in
  guarded_call_rejected be c ->
  completes c /\ toasted_failure "Failed to add comment" c.
Proof. intros c; subst c. unfold guarded_call_rejected. settle. Qed.

Lemma handleTogglePin_guarded isPinned :
  let c := handleTogglePin be p isPinned in
  guarded_call_rejected be c ->
  completes c /\ toasted_failure "Failed to update pin status" c.
Proof. intros c; subst c. unfold guarded_call_rejected. settle. Qed.

Lemma handleDeleteComment_rejected commentId :
  let c := handleDeleteComment be commentId in
  completes c /\
  (call_rejected be c -> toasted_failure "Failed to delete comment" c).
Proof.
  intros c; subst c. unfold call_rejected, completes, toasted_failure.
  run_handler; (split; [reflexivity|]);
    first [ no_rejection
          | intros _; cbn [fst In];
            repeat (first [left; reflexivity | right]) ].
Qed.

Lemma handleDeletePost_rejected onPostDeleted :
  let c := handleDeletePost be p onPostDeleted in
  completes c /\
  (call_rejected be c -> toasted_failure "Failed to delete post" c).
Proof.
  intros c; subst c. unfold call_rejected, completes, toasted_failure.
  run_handler; (split; [reflexivity|]);
    first [ no_rejection
          | intros _; cbn [fst In];
            repeat (first [left; reflexivity | right]) ].
Qed.

(** The opening [auth.getUser()] is outside the [try]. *)
Lemma getUser_fulfilled_completes :
  (forall reason, be AuthGetUser <> Rejects reason) ->
  (forall isLiked, completes (handleLike be p isLiked)) /\
  (forall newComment, completes (handleAddComment be p newComment)) /\
  (forall isPinned, completes (handleTogglePin be p isPinned)).
Proof.
  intros Hauth. unfold completes.
  repeat split; intros; run_handler;
    solve [reflexivity | exfalso; eapply Hauth; reflexivity].
Qed.

Lemma getUser_rejected_propagates reason :
  be AuthGetUser = Rejects reason ->
  (forall isLiked,
      handleLike be p isLiked = ([Request AuthGetUser], inl reason)) /\
  (forall newComment,
      JS.truthy (JS.trim newComment) = true ->
      handleAddComment be p newComment = ([Request AuthGetUser], inl reason)) /\
  (forall isPinned,
      handleTogglePin be p isPinned = ([Request AuthGetUser], inl reason)).
Proof.
  intros Hauth. repeat split; intros;
    cbv delta [handleLike handleAddComment handleTogglePin];
    cbn [call bind]; rewrite ?Hauth; try reflexivity.
  rewrite H. cbn [negb bind call]. rewrite ?Hauth. reflexivity.
Qed.

(** C6 (amended). Rejections inside the [try] blocks are toasted and
    swallowed. In [handleLike], [handleAddComment], [handleDeleteComment],
    [handleDeletePost] and [handleTogglePin], whenever a provider call made
    inside the handler's [try] block is rejected (every call of the
    handler but the opening [supabase.auth.getUser()] of [handleLike],
    [handleAddComment] and [handleTogglePin]), the handler shows a
    destructive toast that names the failure and completes normally. A
    handler completes normally whenever that opening call is fulfilled;
    when it is rejected, the rejection goes to the caller and nothing is
    shown. *)
Theorem rejections_in_try_are_toasted :
  (forall isLiked,
      let c := handleLike be p isLiked in
      guarded_call_rejected be c ->
      completes c /\ toasted_failure "Failed to update like" c) /\
  (forall newComment,
      let c := handleAddComment be p newComment in
      guarded_call_rejected be c ->
      completes c /\ toasted_failure "Failed to add comment" c) /\
  (forall isPinned,
      let c := handleTogglePin be p isPinned in
      guarded_call_rejected be c ->
      completes c /\ toasted_failure "Failed to update pin status" c) /\
  (forall commentId,
      let c := handleDeleteComment be commentId in
      completes c /\
      (call_rejected be c -> toasted_failure "Failed to delete comment" c)) /\
  (forall onPostDeleted,
      let c := handleDeletePost be p onPostDeleted in
      completes c /\
      (call_rejected be c -> toasted_failure "Failed to delete post" c)) /\
  ((forall reason, be AuthGetUser <> Rejects reason) ->
   (forall isLiked, completes (handleLike be p isLiked)) /\
   (forall newComment, completes (handleAddComment be p newComment)) /\
   (forall isPinned, completes (handleTogglePin be p isPinned))) /\
  (forall reason,
      be AuthGetUser = Rejects reason ->
      (forall isLiked,
          handleLike be p isLiked = ([Request AuthGetUser], inl reason)) /\
      (forall newComment,
          JS.truthy (JS.trim newComment) = true ->
          handleAddComment be p newComment =
          ([Request AuthGetUser], inl reason)) /\
      (forall isPinned,
          handleTogglePin be p isPinned =
          ([Request AuthGetUser], inl reason))).
Proof.
  split; [exact handleLike_guarded|].
  split; [exact handleAddComment_guarded|].
  split; [exact handleTogglePin_guarded|].
  split; [exact handleDeleteComment_rejected|].
  split; [exact handleDeletePost_rejected|].
  split; [exact getUser_fulfilled_completes|].
  exact getUser_rejected_propagates.
Qed.

(** Run a handler for the user [uid] that [auth.getUser()] reports, and
    split on every other answer of the backend. *)
Ltac enter Hauth Huser :=
  cbv delta [handleLike handleAddComment]; cbv beta;
  cbn [call bind]; rewrite ?Hauth;
  cbn [call bind try_catch try_finally emit toast ret throw fst snd app];
  rewrite ?Huser.

Ltac answers :=
  repeat (match goal with
          | |- context [match be ?r with _ => _ end] =>
              destruct (be r) as [? | ?] eqn:?
          | |- context [match error ?v with _ => _ end] =>
              destruct (error v) as [? | ] eqn:?
          end;
          cbn [call bind try_catch try_finally emit toast ret throw
               fst snd app]).

(** Whatever the backend answers, [handleLike] inserts a notification
    only for a like of another user's post, and only the row addressed to
    the author. *)
Lemma handleLike_notifies_others_only (uid : string) :
  (exists v, be AuthGetUser = Fulfilled v /\ user v = Some uid) ->
  forall isLiked,
    (forall row,
        In row (notifications_inserted (fst (handleLike be p isLiked))) ->
        uid <> authorId p /\ isLiked = false /\
        exists message,
          row = [("user_id", authorId p); ("type", "like");
                 ("title", "New Like"); ("message", message);
                 ("actor_id", uid); ("post_id", id p)]) /\
    (List.length (notifications_inserted (fst (handleLike be p isLiked)))
     <= 1)%nat.
Proof.
  intros (v0 & Hauth & Huser) isLiked. enter Hauth Huser.
  destruct isLiked; destruct (String.eqb_spec uid (authorId p)) as [Heq|Hne];
    cbn [negb]; answers; cbn; (split; [|lia]); intros row Hin;
    repeat (destruct Hin as [Hin|Hin]; [|try contradiction]);
    try contradiction;
    subst row; (split; [assumption|]); (split; [reflexivity|]);
    eexists; reflexivity.
Qed.

Lemma handleAddComment_notifies_others_only (uid : string) :
  (exists v, be AuthGetUser = Fulfilled v /\ user v = Some uid) ->
  forall newComment,
    (forall row,
        In row
           (notifications_inserted (fst (handleAddComment be p newComment))) ->
        uid <> authorId p /\
        exists message,
          row = [("user_id", authorId p); ("type", "comment");
                 ("title", "New Comment"); ("message", message);
                 ("actor_id", uid); ("post_id", id p)]) /\
    (List.length
       (notifications_inserted (fst (handleAddComment be p newComment)))
     <= 1)%nat.
Proof.
  intros (v0 & Hauth & Huser) newComment.
  cbv delta [handleAddComment]; cbv beta.
  destruct (negb (JS.truthy (JS.trim newComment)));
    [cbn; split; [intros row [] | lia]|].
  enter Hauth Huser.
  destruct (String.eqb_spec uid (authorId p)) as [Heq|Hne];
    cbn [negb]; answers; cbn; (split; [|lia]); intros row Hin;
    repeat (destruct Hin as [Hin|Hin]; [|try contradiction]);
    try contradiction;
    subst row; (split; [assumption|]);
    eexists; reflexivity.
Qed.

(** Settle one branch of a run: either no notification was inserted and a
    condition fails, or one was and every condition holds. *)
Ltac notified :=
  split;
  [ intros [row Hin];
    first
      [ solve [destruct Hin]
      | split; [assumption|]; split; [reflexivity|]; split;
        [ first [ eexists; reflexivity
                | eexists; split; [reflexivity | assumption] ]
        | eexists; reflexivity ] ]
  | first [ intros (Hd & Hl & (v1 & H1 & E1) & (v2 & H2))
          | intros (Hd & Hl & (v1 & H1) & (v2 & H2)) ];
    first [ contradiction | discriminate | congruence
          | eexists; left; reflexivity ] ].

(** Whatever the backend answers, [handleLike] inserts a notification
    exactly when the user is not the author, the post was not liked yet,
    and the insert into [likes] and the profile lookup were fulfilled. *)
Lemma handleLike_notification_iff (uid : string) (isLiked : bool) :
  (exists v, be AuthGetUser = Fulfilled v /\ user v = Some uid) ->
  ((exists row,
       In row (notifications_inserted (fst (handleLike be p isLiked))))
   <->
   uid <> authorId p /\ isLiked = false /\
   (exists v,
       be (Insert "likes" [("post_id", id p); ("user_id", uid)])
       = Fulfilled v) /\
   (exists v,
       be (SelectSingle "profiles" "display_name" [("user_id", uid)])
       = Fulfilled v)).
Proof.
  intros (v0 & Hauth & Huser). enter Hauth Huser.
  destruct isLiked; destruct (String.eqb_spec uid (authorId p)) as [Heq|Hne];
    cbn [negb]; answers; cbn; notified.
Qed.

(** The same for [handleAddComment]: the comment is not blank, and the
    insert into [comments] was fulfilled without an error. *)
Lemma handleAddComment_notification_iff (uid newComment : string) :
  (exists v, be AuthGetUser = Fulfilled v /\ user v = Some uid) ->
  ((exists row,
       In row
          (notifications_inserted (fst (handleAddComment be p newComment))))
   <->
   uid <> authorId p /\ JS.truthy (JS.trim newComment) = true /\
   (exists v,
       be (Insert "comments"
             [("post_id", id p); ("user_id", uid);
              ("content", JS.trim newComment)]) = Fulfilled v /\
       error v = None) /\
   (exists v,
       be (SelectSingle "profiles" "display_name" [("user_id", uid)])
       = Fulfilled v)).
Proof.
  intros (v0 & Hauth & Huser).
  cbv delta [handleAddComment]; cbv beta.
  destruct (JS.truthy (JS.trim newComment)) eqn:Htrim; cbn [negb];
    [|cbn; split; [intros [row []] | intros (_ & Hf & _); discriminate Hf]].
  enter Hauth Huser.
  destruct (String.eqb_spec uid (authorId p)) as [Heq|Hne];
    cbn [negb]; answers; cbn; notified.
Qed.

(** C8 (amended). Self-actions create no notification. For a logged-in
    user, and whatever the backend answers: [handleLike] and
    [handleAddComment] insert at most one row into [notifications], a row
    they insert is the ['like'] or ['comment'] notification addressed to
    the post's author, and it is only inserted when the user is not that
    author; so liking or commenting on one's own post inserts no
    notification. On another user's post the notification is inserted
    exactly when the calls before it went through: for a like (of a post
    not yet liked) the insert into [likes] and the profile lookup were
    fulfilled, for a comment (one that is not blank) the insert into
    [comments] was fulfilled without an error and the profile lookup was
    fulfilled. *)
Theorem self_actions_create_no_notification (uid : string) :
  (exists v, be AuthGetUser = Fulfilled v /\ user v = Some uid) ->
  (forall isLiked row,
      In row (notifications_inserted (fst (handleLike be p isLiked))) ->
      uid <> authorId p /\ isLiked = false /\
      exists message,
        row = [("user_id", authorId p); ("type", "like");
               ("title", "New Like"); ("message", message);
               ("actor_id", uid); ("post_id", id p)]) /\
  (forall newComment row,
      In row
         (notifications_inserted (fst (handleAddComment be p newComment))) ->
      uid <> authorId p /\
      exists message,
        row = [("user_id", authorId p); ("type", "comment");
               ("title", "New Comment"); ("message", message);
               ("actor_id", uid); ("post_id", id p)]) /\
  (forall isLiked newComment,
      (List.length (notifications_inserted (fst (handleLike be p isLiked)))
       <= 1)%nat /\
      (List.length
         (notifications_inserted (fst (handleAddComment be p newComment)))
       <= 1)%nat) /\
  (uid = authorId p ->
   forall isLiked newComment,
     notifications_inserted (fst (handleLike be p isLiked)) = [] /\
     notifications_inserted (fst (handleAddComment be p newComment)) = []) /\
  (uid <> authorId p ->
   (exists v,
       be (Insert "likes" [("post_id", id p); ("user_id", uid)])
       = Fulfilled v) ->
   (exists v,
       be (SelectSingle "profiles" "display_name" [("user_id", uid)])
       = Fulfilled v) ->
   exists message,
     notifications_inserted (fst (handleLike be p false)) =
     [[("user_id", authorId p); ("type", "like"); ("title", "New Like");
       ("message", message); ("actor_id", uid); ("post_id", id p)]]) /\
  (forall newComment,
      uid <> authorId p ->
      JS.truthy (JS.trim newComment) = true ->
      (exists v,
          be (Insert "comments"
                [("post_id", id p); ("user_id", uid);
                 ("content", JS.trim newComment)]) = Fulfilled v /\
          error v = None) ->
      (exists v,
          be (SelectSingle "profiles" "display_name" [("user_id", uid)])
          = Fulfilled v) ->
      exists message,
        notifications_inserted (fst (handleAddComment be p newComment)) =
        [[("user_id", authorId p); ("type", "comment");
          ("title", "New Comment"); ("message", message);
          ("actor_id", uid); ("post_id", id p)]]) /\
  (forall isLiked,
      (exists row,
          In row (notifications_inserted (fst (handleLike be p isLiked))))
      <->
      uid <> authorId p /\ isLiked = false /\
      (exists v,
          be (Insert "likes" [("post_id", id p); ("user_id", uid)])
          = Fulfilled v) /\
      (exists v,
          be (SelectSingle "profiles" "display_name" [("user_id", uid)])
          = Fulfilled v)) /\
  (forall newComment,
      (exists row,
          In row
             (notifications_inserted
                (fst (handleAddComment be p newComment))))
      <->
      uid <> authorId p /\ JS.truthy (JS.trim newComment) = true /\
      (exists v,
          be (Insert "comments"
                [("post_id", id p); ("user_id", uid);
                 ("content", JS.trim newComment)]) = Fulfilled v /\
          error v = None) /\
      (exists v,
          be (SelectSingle "profiles" "display_name" [("user_id", uid)])
          = Fulfilled v)).
Proof.
  intros Hlogged.
  pose proof (fun isLiked =>
                handleLike_notification_iff uid isLiked Hlogged) as HLiff.
  pose proof (fun newComment =>
                handleAddComment_notification_iff uid newComment Hlogged)
    as HCiff.
  pose proof (handleLike_notifies_others_only uid Hlogged) as HL.
  pose proof (handleAddComment_notifies_others_only uid Hlogged) as HC.
  destruct Hlogged as (v0 & Hauth & Huser).
  split; [intros isLiked; exact (proj1 (HL isLiked))|].
  split; [intros newComment; exact (proj1 (HC newComment))|].
  split; [intros isLiked newComment;
          exact (conj (proj2 (HL isLiked)) (proj2 (HC newComment)))|].
  split; [|split; [|split; [|split; [exact HLiff | exact HCiff]]]].
  - intros Heq isLiked newComment. split.
    + destruct (notifications_inserted (fst (handleLike be p isLiked)))
        as [|row rows] eqn:E; [reflexivity|].
      destruct (proj1 (HL isLiked) row) as [Hne _];
        [rewrite E; left; reflexivity | contradiction].
    + destruct (notifications_inserted
                  (fst (handleAddComment be p newComment)))
        as [|row rows] eqn:E; [reflexivity|].
      destruct (proj1 (HC newComment) row) as [Hne _];
        [rewrite E; left; reflexivity | contradiction].
  - intros Hne (v1 & Hlike) (v2 & Hprofile). enter Hauth Huser.
    destruct (String.eqb_spec uid (authorId p)) as [Heq|_]; [contradiction|].
    cbn [negb]. rewrite Hlike.
    cbn [call bind try_catch try_finally emit toast ret throw fst snd app].
    rewrite Hprofile.
    cbn [call bind try_catch try_finally emit toast ret throw fst snd app].
    answers; cbn; eexists; reflexivity.
  - intros newComment Hne Htrim (v1 & Hcomment & Herr) (v2 & Hprofile).
    cbv delta [handleAddComment]; cbv beta. rewrite Htrim. cbn [negb].
    enter Hauth Huser.
    destruct (String.eqb_spec uid (authorId p)) as [Heq|_]; [contradiction|].
    cbn [negb]. rewrite Hcomment.
    cbn [call bind try_catch try_finally emit toast ret throw fst snd app].
    rewrite Herr.
    cbn [call bind try_catch try_finally emit toast ret throw fst snd app].
    rewrite Hprofile.
    cbn [call bind try_catch try_finally emit toast ret throw fst snd app].
    answers; cbn; eexists; reflexivity.
Qed.

End FeedCardFacts.

Lemma rejections_in_try_are_toasted_witness :
  let be : FeedCard.backend := fun r =>
    match r with
    | FeedCard.AuthGetUser =>
        FeedCard.Fulfilled
          {| FeedCard.user := Some "u1"%string;
             FeedCard.display_name := None;
             FeedCard.error := None |}
    | _ => FeedCard.Rejects "Failed to fetch"
    end in
  let p := {| FeedCard.id := "p1"%string; FeedCard.authorId := "u2"%string;
              FeedCard.content_url := None |} in
  let c := FeedCard.handleLike be p false in
  FeedCard.guarded_call_rejected be c /\
  FeedCard.completes c /\
  FeedCard.toasted_failure "Failed to update like" c.
Proof.
  intros be p c.
  assert (Hrej : FeedCard.guarded_call_rejected be c).
  { exists (FeedCard.Insert "likes"
              [("post_id", "p1"); ("user_id", "u1")]%string),
      "Failed to fetch"%string.
    split; [right; left; reflexivity |].
    split; [discriminate | reflexivity]. }
  split; [exact Hrej |].
  exact (proj1 (@rejections_in_try_are_toasted be p) false Hrej).
Defined.

(** C6 as stated fails on the opening call: when [supabase.auth.getUser()]
    is rejected inside [handleLike], the handler shows no toast and its own
    promise is rejected with the same reason. *)
Lemma getUser_rejection_is_rethrown :
  let be : FeedCard.backend := fun _ => FeedCard.Rejects "Failed to fetch" in
  let p := {| FeedCard.id := "p1"%string; FeedCard.authorId := "u2"%string;
              FeedCard.content_url := None |} in
  let c := FeedCard.handleLike be p false in
  FeedCard.call_rejected be c /\
  snd c = inl "Failed to fetch"%string /\
  ~ FeedCard.completes c /\
  ~ (exists title description variant,
        In (FeedCard.Toast title description variant) (fst c)).
Proof.
  intros be p c. split; [|split; [|split]].
  - exists FeedCard.AuthGetUser, "Failed to fetch"%string.
    split; [left; reflexivity | reflexivity].
  - reflexivity.
  - unfold FeedCard.completes. cbn. discriminate.
  - intros (title & description & variant & Hin). cbn in Hin.
    destruct Hin as [Hin | []]. discriminate.
Defined.

Lemma self_actions_create_no_notification_witness :
  let be : FeedCard.backend := fun _ =>
    FeedCard.Fulfilled
      {| FeedCard.user := Some "u1"%string;
         FeedCard.display_name := Some "Ann"%string;
         FeedCard.error := None |} in
  let own := {| FeedCard.id := "p1"%string; FeedCard.authorId := "u1"%string;
                FeedCard.content_url := None |} in
  let other := {| FeedCard.id := "p2"%string; FeedCard.authorId := "u2"%string;
                  FeedCard.content_url := None |} in
  FeedCard.notifications_inserted (fst (FeedCard.handleLike be own false)) = [] /\
  FeedCard.notifications_inserted
    (fst (FeedCard.handleAddComment be own " nice ")) = [] /\
  (exists message,
      FeedCard.notifications_inserted
        (fst (FeedCard.handleLike be other false)) =
      [[("user_id", "u2"); ("type", "like"); ("title", "New Like");
        ("message", message); ("actor_id", "u1"); ("post_id", "p2")]]%string) /\
  (exists message,
      FeedCard.notifications_inserted
        (fst (FeedCard.handleAddComment be other " nice ")) =
      [[("user_id", "u2"); ("type", "comment"); ("title", "New Comment");
        ("message", message); ("actor_id", "u1"); ("post_id", "p2")]]%string).
Proof.
  intros be own other.
  assert (Hauth : exists v, be FeedCard.AuthGetUser = FeedCard.Fulfilled v /\
                            FeedCard.user v = Some "u1"%string)
    by (eexists; split; reflexivity).
  destruct (@self_actions_create_no_notification be own "u1"%string Hauth)
    as (_ & _ & _ & Hself & _).
  destruct (Hself eq_refl false " nice "%string) as [Hlike Hcomment].
  destruct (@self_actions_create_no_notification be other "u1"%string Hauth)
    as (_ & _ & _ & _ & Hother & Hother' & _).
  split; [exact Hlike |]. split; [exact Hcomment |]. split.
  - apply Hother; [discriminate | eexists; reflexivity | eexists; reflexivity].
  - apply Hother'; [discriminate | reflexivity | | eexists; reflexivity].
    eexists. split; reflexivity.
Defined.

(** C8 as stated fails when a call on the way fails: a logged-in user
    likes another user's post, the like is sent and stored, but the profile
    lookup is rejected; no notification is inserted although the user is
    not the author. *)
Lemma notification_lost_when_lookup_fails :
  let ok := {| FeedCard.user := Some "u1"%string;
               FeedCard.display_name := None;
               FeedCard.error := None |} in
  let be : FeedCard.backend := fun r =>
    match r with
    | FeedCard.SelectSingle _ _ _ => FeedCard.Rejects "Failed to fetch"
    | _ => FeedCard.Fulfilled ok
    end in
  let p := {| FeedCard.id := "p1"%string; FeedCard.authorId := "u2"%string;
              FeedCard.content_url := None |} in
  let like := FeedCard.Insert "likes" [("post_id", "p1"); ("user_id", "u1")]%string in
  let c := FeedCard.handleLike be p false in
  (be FeedCard.AuthGetUser = FeedCard.Fulfilled ok /\
   FeedCard.user ok = Some "u1"%string) /\
  "u1"%string <> FeedCard.authorId p /\
  In (FeedCard.Request like) (fst c) /\
  be like = FeedCard.Fulfilled ok /\
  FeedCard.notifications_inserted (fst c) = [] /\
  ~ (exists row, In row (FeedCard.notifications_inserted (fst c))).
Proof.
  intros ok be p like c.
  split; [split; reflexivity|]. split; [discriminate|].
  split; [right; left; reflexivity|]. split; [reflexivity|].
  split; [reflexivity|]. intros [row []].
Defined.

Section DatabaseFacts.
Import Database.
Local Open Scope string_scope.

Lemma update_rewards_ok uid points rows rows' :
  update_rewards uid points rows = Ok rows' ->
  rows' = map (credited uid points) rows.
Proof.
  revert rows'. induction rows as [|r rest IH]; intros rows' H; cbn in *.
  - now inversion H.
  - destruct (update_rewards uid points rest) as [rest'|e]; [|discriminate].
    rewrite <- (IH rest' eq_refl). unfold credited.
    destruct (profiles.user_id r =? uid).
    + destruct (decimal_10_2_fits (profiles.rewards r + points));
        now inversion H.
    + now inversion H.
Qed.

Lemma update_rewards_succeeds uid points rows :
  (forall r, In r rows -> profiles.user_id r = uid ->
             decimal_10_2_fits (profiles.rewards r + points) = true) ->
  update_rewards uid points rows = Ok (map (credited uid points) rows).
Proof.
  induction rows as [|r rest IH]; intros Hfits; cbn; [reflexivity|].
  rewrite IH by (intros q Hq; apply Hfits; now right).
  unfold credited. destruct (String.eqb_spec (profiles.user_id r) uid) as [E|E].
  - rewrite (Hfits r (or_introl eq_refl) E). reflexivity.
  - reflexivity.
Qed.

Lemma lookup_credited uid points rows :
  (forall pr, profiles.lookup uid rows = Some pr ->
     profiles.lookup uid (map (credited uid points) rows) =
     Some {| profiles.user_id := uid;
             profiles.rewards := profiles.rewards pr + points |}) /\
  (forall other, other <> uid ->
     profiles.lookup other (map (credited uid points) rows) =
     profiles.lookup other rows).
Proof.
  split.
  - induction rows as [|r rest IH]; intros pr H; cbn [map profiles.lookup] in *;
      [discriminate|].
    remember (map (credited uid points) rest) as rest'.
    unfold credited.
    destruct (String.eqb_spec (profiles.user_id r) uid) as [E|E];
      cbn [profiles.user_id].
    + rewrite E, String.eqb_refl. inversion H; subst. reflexivity.
    + destruct (String.eqb_spec (profiles.user_id r) uid); [contradiction|].
      now apply IH.
  - intros other Hne.
    induction rows as [|r rest IH]; cbn [map profiles.lookup]; [reflexivity|].
    remember (map (credited uid points) rest) as rest'.
    unfold credited.
    destruct (String.eqb_spec (profiles.user_id r) uid) as [E|E];
      cbn [profiles.user_id].
    + rewrite E. destruct (String.eqb_spec uid other); [congruence|].
      exact IH.
    + destruct (profiles.user_id r =? other); [reflexivity | exact IH].
Qed.

Lemma lookup_exists uid rows :
  existsb (fun pr => profiles.user_id pr =? uid) rows = true ->
  exists pr, profiles.lookup uid rows = Some pr.
Proof.
  induction rows as [|r rest IH]; cbn; [discriminate|].
  destruct (profiles.user_id r =? uid); [eexists; reflexivity | exact IH].
Qed.

(** An insert into [posts] that succeeds has passed the constraints and
    run [award_post_points] on the stored row. *)
Lemma insert_post_inv now gen v d d' :
  insert_post now gen v d = Ok d' ->
  let NEW := posts.with_defaults now gen v in
  posts_constraints d NEW = Ok tt /\
  award_post_points now NEW (store_post NEW d) = Ok (NEW, d').
Proof.
  intros H NEW. unfold insert_post in H. fold NEW in H.
  cbn [fire posts_triggers update_posts_updated_at award_points_on_post
       tgtiming tgevent tgfunction timing_eqb tg_event_eqb andb] in H.
  destruct (posts_constraints d NEW) as [[]|e]; [|discriminate].
  split; [reflexivity|].
  destruct (award_post_points now NEW (store_post NEW d)) as [[NEW' d1]|e]
    eqn:E; [|discriminate].
  inversion H; subst d1. clear H.
  unfold award_post_points in E.
  destruct (update_rewards (posts.user_id NEW)
              (if posts.is_spark NEW then 100 else 50)
              (profiles_table (store_post NEW d))); [|discriminate].
  inversion E; subst. reflexivity.
Qed.

(** C2. The reward trigger. An [INSERT] of one row into [public.posts]
    fires the [AFTER INSERT] trigger [award_points_on_post]: the insert
    succeeds exactly with the state [award_post_points] returns for the
    stored row. The author has a profile (foreign key), and that profile's
    [rewards] grows by exactly 1.00 (100 hundredths) when [is_spark] is
    true and by exactly 0.50 when it is false (also when the column is
    left to its default); the rewards of every other user are unchanged.
    The insert succeeds whenever the constraints of the table hold and the
    new balance fits [DECIMAL(10,2)]. *)
Theorem post_insert_awards_points now gen v d :
  let NEW := posts.with_defaults now gen v in
  let author := posts.user_id NEW in
  let points := if posts.is_spark NEW then 100 else 50 in
  (posts_constraints d NEW = Ok tt ->
   (forall pr, In pr (profiles_table d) -> profiles.user_id pr = author ->
               decimal_10_2_fits (profiles.rewards pr + points) = true) ->
   exists d', insert_post now gen v d = Ok d') /\
  (forall d',
      insert_post now gen v d = Ok d' ->
      In award_points_on_post posts_triggers /\
      award_post_points now NEW (store_post NEW d) = Ok (NEW, d') /\
      (exists pr, profiles.lookup author (profiles_table d) = Some pr) /\
      (forall pr,
          profiles.lookup author (profiles_table d) = Some pr ->
          profiles.lookup author (profiles_table d') =
          Some {| profiles.user_id := author;
                  profiles.rewards := profiles.rewards pr + points |}) /\
      (forall other,
          other <> author ->
          profiles.lookup other (profiles_table d') =
          profiles.lookup other (profiles_table d))).
Proof.
  intros NEW author points. split.
  - intros Hc Hfits. unfold insert_post. fold NEW.
    cbn [fire posts_triggers update_posts_updated_at award_points_on_post
         tgtiming tgevent tgfunction timing_eqb tg_event_eqb andb].
    rewrite Hc. unfold award_post_points.
    cbn [store_post profiles_table].
    match goal with
    | |- context [update_rewards ?a ?b ?c] =>
        change (update_rewards a b c)
          with (update_rewards author points (profiles_table d))
    end.
    rewrite (update_rewards_succeeds author points (profiles_table d) Hfits).
    eexists. reflexivity.
  - intros d' H. destruct (insert_post_inv _ _ _ _ _ H) as [Hc Haward].
    fold NEW in Hc, Haward.
    split; [right; left; reflexivity|]. split; [exact Haward|].
    assert (Hprofiles : profiles_table d' =
                        map (credited author points) (profiles_table d)).
    { unfold award_post_points in Haward.
      cbn [store_post profiles_table] in Haward.
      match type of Haward with
      | context [update_rewards ?a ?b ?c] =>
          change (update_rewards a b c)
            with (update_rewards author points (profiles_table d)) in Haward
      end.
      destruct (update_rewards author points (profiles_table d)) as [rows|e]
        eqn:E; [|discriminate].
      apply update_rewards_ok in E.
      inversion Haward; subst d'. cbn [profiles_table]. exact E. }
    rewrite Hprofiles.
    destruct (lookup_credited author points (profiles_table d)) as [H1 H2].
    split; [|split; assumption].
    apply lookup_exists. unfold posts_constraints in Hc.
    destruct (existsb _ (posts_table d)); [discriminate|].
    fold author in Hc.
    destruct (existsb _ (profiles_table d)); [reflexivity | discriminate].
Qed.

(** C4. The reward trigger notifies. An [INSERT] of one row into
    [public.posts] that succeeds appends exactly one row to
    [public.notifications]: addressed to the post's author, of type
    ['reward'], pointing at the new post, with a message that states the
    points awarded, 1.00 for a Spark and 0.50 for a Post. *)
Theorem post_insert_notifies_reward now gen v d d' :
  insert_post now gen v d = Ok d' ->
  let NEW := posts.with_defaults now gen v in
  notifications_table d' =
  (notifications_table d ++
   [ {| notifications.user_id := posts.user_id NEW;
        notifications.type := "reward";
        notifications.title := "Reward Earned! 🎉";
        notifications.message :=
          if posts.is_spark NEW
          then "You earned 1.00 points for creating a Spark!"
          else "You earned 0.50 points for creating a Post!";
        notifications.actor_id := None;
        notifications.post_id := Some (posts.id NEW) |} ])%list.
Proof.
  intros H NEW. destruct (insert_post_inv _ _ _ _ _ H) as [_ Haward].
  fold NEW in Haward. clearbody NEW. unfold award_post_points in Haward.
  destruct (update_rewards _ _ _) as [rows|e]; [|discriminate].
  injection Haward as Hd. rewrite <- Hd.
  cbn [notifications_table store_post].
  destruct (posts.is_spark NEW); reflexivity.
Qed.

(** The only [BEFORE UPDATE] trigger on [posts] is
    [update_posts_updated_at]. *)
Lemma fire_before_update now NEW d :
  fire posts_triggers BEFORE UPDATE now NEW d =
  match update_updated_at_column now NEW d with
  | Ok (NEW', d') => Ok (NEW', d')
  | Error e => Error e
  end.
Proof. reflexivity. Qed.

Lemma update_rows_ok now where_ set rows : forall d rows' d',
  update_rows now where_ set rows d = Ok (rows', d') ->
  d' = d /\
  rows' = map (fun OLD => if where_ OLD
                          then posts.set_updated_at now (set OLD)
                          else OLD) rows.
Proof.
  induction rows as [|OLD rest IH]; intros d rows' d' H; cbn [update_rows] in H.
  - inversion H. split; reflexivity.
  - cbn [map]. destruct (where_ OLD).
    + rewrite fire_before_update in H. cbn in H.
      destruct (posts.posts_content_type_check _); [|discriminate].
      destruct (update_rows now where_ set rest d) as [[rest' d2]|e] eqn:E;
        [|discriminate].
      destruct (IH _ _ _ E) as [-> ->]. inversion H. split; reflexivity.
    + destruct (update_rows now where_ set rest d) as [[rest' d2]|e] eqn:E;
        [|discriminate].
      destruct (IH _ _ _ E) as [-> ->]. inversion H. split; reflexivity.
Qed.

Lemma update_rows_succeeds now where_ set rows d :
  (forall OLD, In OLD rows -> where_ OLD = true ->
               posts.posts_content_type_check (set OLD) = true) ->
  exists rows', update_rows now where_ set rows d = Ok (rows', d).
Proof.
  induction rows as [|OLD rest IH]; intros Hcheck; cbn [update_rows].
  - eexists. reflexivity.
  - destruct IH as [rest' E]; [intros q Hq; apply Hcheck; now right|].
    destruct (where_ OLD) eqn:Hw.
    + rewrite fire_before_update. cbn [update_updated_at_column].
      change (posts.posts_content_type_check
                (posts.set_updated_at now (set OLD)))
        with (posts.posts_content_type_check (set OLD)).
      rewrite (Hcheck OLD (or_introl eq_refl) Hw), E. eexists. reflexivity.
    + rewrite E. eexists. reflexivity.
Qed.

(** C5. Timestamp maintenance. An [UPDATE] of rows of [public.posts]
    passes every row it changes through the [BEFORE UPDATE] trigger
    [update_posts_updated_at], that is through
    [update_updated_at_column]: whatever the statement assigns, the stored
    row carries the time of the update in [updated_at] and is otherwise
    the row the statement computed; the rows not selected and the other
    tables are left as they were. The update succeeds whenever the new
    rows satisfy the [CHECK] constraint. *)
Theorem posts_updated_at_maintained now where_ set d :
  ((forall OLD, In OLD (posts_table d) -> where_ OLD = true ->
                posts.posts_content_type_check (set OLD) = true) ->
   exists d', update_posts now where_ set d = Ok d') /\
  (forall d',
      update_posts now where_ set d = Ok d' ->
      In update_posts_updated_at posts_triggers /\
      posts_table d' =
        map (fun OLD => if where_ OLD
                        then posts.set_updated_at now (set OLD)
                        else OLD) (posts_table d) /\
      (forall OLD,
          In OLD (posts_table d) -> where_ OLD = true ->
          exists NEW,
            update_updated_at_column now (set OLD) d = Ok (NEW, d) /\
            In NEW (posts_table d') /\
            posts.updated_at NEW = now) /\
      profiles_table d' = profiles_table d /\
      notifications_table d' = notifications_table d /\
      stories_table d' = stories_table d).
Proof.
  split.
  - intros Hcheck. unfold update_posts.
    destruct (update_rows_succeeds now where_ set (posts_table d) d Hcheck)
      as [rows' E].
    rewrite E. eexists. reflexivity.
  - intros d' H. unfold update_posts in H.
    destruct (update_rows now where_ set (posts_table d) d) as [[rows d1]|e]
      eqn:E; [|discriminate].
    destruct (update_rows_ok _ _ _ _ _ _ _ E) as [-> ->].
    inversion H; subst d'. cbn [posts_table profiles_table
                                notifications_table stories_table].
    split; [left; reflexivity|]. split; [reflexivity|].
    split; [|repeat split].
    intros OLD Hin Hw. exists (posts.set_updated_at now (set OLD)).
    split; [reflexivity|]. split; [|reflexivity].
    apply in_map_iff. exists OLD. rewrite Hw. split; [reflexivity | exact Hin].
Qed.

Lemma permitted_select s r :
  permitted SELECT s r = (now s <? stories.expires_at r)%Z.
Proof.
  unfold permitted. cbn. now rewrite ?andb_true_l, ?orb_false_r.
Qed.

(** C10 (amended). Stories expire after 24 hours and expired stories are
    unreadable. A row inserted into [public.stories] without an explicit
    [expires_at] gets [expires_at = now() + 24 hours], which is
    [created_at + 24 hours] whenever [created_at] is left to its default
    as well; and the table has exactly one [SELECT] policy, which lets a
    story be read if and only if its [expires_at] is strictly later than
    the current time. *)
Theorem stories_expire_after_24_hours s gen v d :
  let NEW := stories.with_defaults (now s) gen v in
  (permitted INSERT_ s NEW = true ->
   existsb (fun q => stories.id q =? stories.id NEW) (stories_table d) = false ->
   existsb (fun pr => profiles.user_id pr =? stories.user_id NEW)
     (profiles_table d) = true ->
   exists d', insert_story s gen v d = Ok d') /\
  (forall d',
      insert_story s gen v d = Ok d' ->
      stories_table d' = (stories_table d ++ [NEW])%list) /\
  (stories.v_expires_at v = None ->
   stories.expires_at NEW = now s + 86400000000) /\
  (stories.v_expires_at v = None ->
   stories.v_created_at v = None ->
   stories.expires_at NEW = stories.created_at NEW + 86400000000) /\
  (exists pol, policies_for SELECT = [pol]) /\
  (forall r, permitted SELECT s r = true <-> now s < stories.expires_at r) /\
  select_stories s d =
    filter (fun r => (now s <? stories.expires_at r)%Z) (stories_table d).
Proof.
  intros NEW. repeat split.
  - intros Hp Hid Hfk. unfold insert_story. fold NEW.
    rewrite Hp, Hid, Hfk. eexists. reflexivity.
  - intros d' H. unfold insert_story in H. fold NEW in H.
    destruct (negb (permitted INSERT_ s NEW)); [discriminate|].
    destruct (existsb _ (stories_table d)); [discriminate|].
    destruct (negb _); [discriminate|].
    inversion H. reflexivity.
  - intros He. subst NEW. cbn. rewrite He. reflexivity.
  - intros He Hc. subst NEW. cbn. rewrite He, Hc. reflexivity.
  - eexists. reflexivity.
  - rewrite permitted_select. apply Z.ltb_lt.
  - rewrite permitted_select. apply Z.ltb_lt.
  - unfold select_stories. apply filter_ext. intros r.
    apply permitted_select.
Qed.

End DatabaseFacts.

Local Open Scope string_scope.

Lemma post_insert_awards_points_witness :
  let d := {| Database.profiles_table :=
                [ {| Database.profiles.user_id := "u1"%string;
                     Database.profiles.rewards := 250 |} ];
              Database.posts_table := [];
              Database.notifications_table := [];
              Database.stories_table := [] |} in
  let v := {| Database.posts.v_id := None;
              Database.posts.v_user_id := "u1"%string;
              Database.posts.v_content_type := "video"%string;
              Database.posts.v_content_url := None;
              Database.posts.v_caption := None;
              Database.posts.v_created_at := None;
              Database.posts.v_updated_at := None;
              Database.posts.v_is_spark := Some true |} in
  exists d',
    Database.insert_post 1000 "p1" v d = Database.Ok d' /\
    Database.profiles.lookup "u1" (Database.profiles_table d') =
    Some {| Database.profiles.user_id := "u1"%string;
            Database.profiles.rewards := 350 |}.
Proof.
  intros d v.
  destruct (post_insert_awards_points 1000 "p1"%string v d) as [Hs Hp].
  assert (Hfits : forall pr,
             In pr (Database.profiles_table d) ->
             Database.profiles.user_id pr = "u1"%string ->
             Database.decimal_10_2_fits (Database.profiles.rewards pr + 100)
             = true).
  { intros pr [<- | []] _. reflexivity. }
  destruct (Hs eq_refl Hfits) as [d' Hd'].
  exists d'. split; [exact Hd' |].
  destruct (Hp d' Hd') as (_ & _ & _ & Hl & _).
  exact (Hl _ eq_refl).
Defined.

Lemma post_insert_notifies_reward_witness :
  let d := {| Database.profiles_table :=
                [ {| Database.profiles.user_id := "u1"%string;
                     Database.profiles.rewards := 250 |} ];
              Database.posts_table := [];
              Database.notifications_table := [];
              Database.stories_table := [] |} in
  let v := {| Database.posts.v_id := None;
              Database.posts.v_user_id := "u1"%string;
              Database.posts.v_content_type := "text"%string;
              Database.posts.v_content_url := None;
              Database.posts.v_caption := Some "hello"%string;
              Database.posts.v_created_at := None;
              Database.posts.v_updated_at := None;
              Database.posts.v_is_spark := None |} in
  exists d',
    Database.insert_post 1000 "p1" v d = Database.Ok d' /\
    Database.notifications_table d' =
    [ {| Database.notifications.user_id := "u1"%string;
         Database.notifications.type := "reward"%string;
         Database.notifications.title := "Reward Earned! 🎉"%string;
         Database.notifications.message :=
           "You earned 0.50 points for creating a Post!"%string;
         Database.notifications.actor_id := None;
         Database.notifications.post_id := Some "p1"%string |} ].
Proof.
  intros d v. eexists. split; [reflexivity |].
  exact (post_insert_notifies_reward 1000 "p1"%string v d _ eq_refl).
Defined.

Lemma posts_updated_at_maintained_witness :
  let row := {| Database.posts.id := "p1"%string;
                Database.posts.user_id := "u1"%string;
                Database.posts.content_type := "text"%string;
                Database.posts.content_url := None;
                Database.posts.caption := None;
                Database.posts.created_at := 1000;
                Database.posts.updated_at := 1000;
                Database.posts.is_spark := false |} in
  let d := {| Database.profiles_table :=
                [ {| Database.profiles.user_id := "u1"%string;
                     Database.profiles.rewards := 50 |} ];
              Database.posts_table := [row];
              Database.notifications_table := [];
              Database.stories_table := [] |} in
  let where_ := fun r => (Database.posts.id r =? "p1")%string in
  let set := Database.posts.set_updated_at 5 in
  exists d',
    Database.update_posts 2000 where_ set d = Database.Ok d' /\
    map Database.posts.updated_at (Database.posts_table d') = [2000].
Proof.
  intros row d where_ set.
  destruct (posts_updated_at_maintained 2000 where_ set d) as [Hs Hp].
  assert (Hcheck : forall OLD,
             In OLD (Database.posts_table d) -> where_ OLD = true ->
             Database.posts.posts_content_type_check (set OLD) = true).
  { intros OLD [<- | []] _. reflexivity. }
  destruct (Hs Hcheck) as [d' Hd'].
  exists d'. split; [exact Hd' |].
  destruct (Hp d' Hd') as (_ & Hrows & _).
  rewrite Hrows. reflexivity.
Defined.

Lemma stories_expire_after_24_hours_witness :
  let s := {| Database.now := 1000; Database.auth_uid := Some "u1"%string |} in
  let d := {| Database.profiles_table :=
                [ {| Database.profiles.user_id := "u1"%string;
                     Database.profiles.rewards := 0 |} ];
              Database.posts_table := [];
              Database.notifications_table := [];
              Database.stories_table := [] |} in
  let v := {| Database.stories.v_id := None;
              Database.stories.v_user_id := "u1"%string;
              Database.stories.v_content_url := "https://x/y.mp4"%string;
              Database.stories.v_content_type := "video"%string;
              Database.stories.v_caption := None;
              Database.stories.v_created_at := None;
              Database.stories.v_expires_at := None |} in
  exists d',
    Database.insert_story s "s1" v d = Database.Ok d' /\
    map (fun r => (Database.stories.created_at r, Database.stories.expires_at r))
        (Database.stories_table d') = [(1000, 86400001000)] /\
    Database.select_stories s d' = Database.stories_table d' /\
    Database.select_stories
      {| Database.now := 86400001000; Database.auth_uid := None |} d' = [].
Proof.
  intros s d v.
  destruct (stories_expire_after_24_hours s "s1"%string v d)
    as (Hs & Hrows & _ & Hexp & _ & _ & _).
  destruct (Hs eq_refl eq_refl eq_refl) as [d' Hd'].
  exists d'. split; [exact Hd' |].
  pose proof (Hexp eq_refl eq_refl) as H24.
  rewrite (Hrows d' Hd').
  destruct (stories_expire_after_24_hours
              {| Database.now := 86400001000; Database.auth_uid := None |}
              "s1"%string v d') as (_ & _ & _ & _ & _ & _ & Hlate).
  rewrite Hlate.
  destruct (stories_expire_after_24_hours s "s1"%string v d')
    as (_ & _ & _ & _ & _ & _ & Hearly).
  rewrite Hearly, (Hrows d' Hd').
  repeat split.
Defined.

(** C10 as stated fails when [created_at] is given: the default of
    [expires_at] is taken from [now()], not from the row's [created_at]. *)
Lemma story_with_explicit_created_at :
  let s := {| Database.now := 1000; Database.auth_uid := Some "u1"%string |} in
  let d := {| Database.profiles_table :=
                [ {| Database.profiles.user_id := "u1"%string;
                     Database.profiles.rewards := 0 |} ];
              Database.posts_table := [];
              Database.notifications_table := [];
              Database.stories_table := [] |} in
  let v := {| Database.stories.v_id := None;
              Database.stories.v_user_id := "u1"%string;
              Database.stories.v_content_url := "https://x/y.mp4"%string;
              Database.stories.v_content_type := "video"%string;
              Database.stories.v_caption := None;
              Database.stories.v_created_at := Some 0;
              Database.stories.v_expires_at := None |} in
  let NEW := {| Database.stories.id := "s1"%string;
                Database.stories.user_id := "u1"%string;
                Database.stories.content_url := "https://x/y.mp4"%string;
                Database.stories.content_type := "video"%string;
                Database.stories.caption := None;
                Database.stories.created_at := 0;
                Database.stories.expires_at := 86400001000 |} in
  Database.stories.v_expires_at v = None /\
  Database.insert_story s "s1" v d =
    Database.Ok {| Database.profiles_table := Database.profiles_table d;
                   Database.posts_table := [];
                   Database.notifications_table := [];
                   Database.stories_table := [NEW] |} /\
  Database.stories.expires_at NEW <>
    Database.stories.created_at NEW + Database.interval_24_hours.
Proof.
  intros s d v NEW. split; [reflexivity |]. split; [reflexivity |].
  cbn. discriminate.
Defined.

(* ===================================================================== *)
(** * Part III: further properties of the code *)
(* ===================================================================== *)

(** ** ImageLoadManager *)

Section LoadManagerMore.
Import LoadManager.
Local Close Scope string_scope.
Variable callback : Type.
Implicit Types (m : manager callback) (ops : list (op callback)).

Lemma step_full_when_waiting o m :
  full_when_waiting m -> full_when_waiting (fst (step o m)).
Proof.
  unfold full_when_waiting. intros Hinv. destruct o as [cb|rnd]; simpl.
  - unfold startLoad, canLoad.
    destruct (Z.ltb_spec (activeLoads m) (maxConcurrent m)); simpl.
    + intros Hq. specialize (Hinv Hq). lia.
    + intros _. lia.
  - unfold finishLoad. destruct (queue m) as [|next rest] eqn:Hq; simpl.
    + intros H. now contradiction H.
    + intros _. assert (maxConcurrent m <= activeLoads m)
        by (apply Hinv; discriminate). lia.
Qed.

Lemma run_full_when_waiting ops : forall m,
  full_when_waiting m -> full_when_waiting (fst (run ops m)).
Proof.
  induction ops as [|o ops IH]; intros m Hinv; simpl; [exact Hinv|].
  pose proof (step_full_when_waiting o m Hinv) as H1.
  destruct (step o m) as [m1 e1]; simpl in *.
  specialize (IH m1 H1). destruct (run ops m1) as [m2 e2]. exact IH.
Qed.

(** No idle slot while a load waits: in every state reached from a fresh
    manager, by any calls whatever, a non-empty queue means that
    [activeLoads] is exactly [maxConcurrent = 4]. *)
Theorem waiting_means_full ops :
  queue (final ops) <> [] ->
  activeLoads (final ops) = 4.
Proof.
  intros Hq.
  assert (Hinit : activeLoads (@init callback) <= maxConcurrent (@init callback))
    by (simpl; lia).
  destruct (run_bounded callback ops init Hinit) as [Hle Hmax].
  assert (Hfull : full_when_waiting (@init callback))
    by (intros H; now contradiction H).
  pose proof (run_full_when_waiting ops init Hfull Hq) as Hge.
  unfold final. simpl in Hle, Hmax. lia.
Qed.

Lemma calls_app (e1 e2 : list (effect callback)) :
  calls (e1 ++ e2) = calls e1 ++ calls e2.
Proof.
  induction e1 as [|[cb|cb d] e1 IH]; simpl; [reflexivity | | exact IH].
  now rewrite IH.
Qed.

Lemma calls_deferred_started ops : forall m,
  Permutation (calls (snd (run ops m)) ++ deferred ops m) (started ops).
Proof.
  induction ops as [|o ops IH]; intros m; simpl; [constructor|].
  specialize (IH (fst (step o m))).
  destruct (step o m) as [m1 e1] eqn:E; simpl in *.
  destruct (run ops m1) as [m2 e2]; simpl in *.
  rewrite calls_app.
  destruct o as [cb|rnd]; simpl in E.
  - unfold startLoad in E. destruct (canLoad m); inversion E; subst; simpl.
    + now constructor.
    + apply Permutation_sym, Permutation_cons_app, Permutation_sym. exact IH.
  - unfold finishLoad in E.
    destruct (queue m) as [|next rest]; inversion E; subst; simpl; exact IH.
Qed.

(** Nothing is dropped and nothing runs twice: after any calls on a fresh
    manager, the closures called on the spot, those handed to a timer and
    those still in the queue are together exactly the closures that were
    given to [startLoad], each as often as it was given. *)
Theorem every_callback_accounted_for ops :
  Permutation
    (calls (effects ops) ++ timeouts (effects ops) ++ queue (final ops))
    (started ops).
Proof.
  unfold effects, final.
  rewrite (queue_order callback ops init). simpl.
  apply calls_deferred_started.
Qed.

Lemma finishLoad_waiting rnd m next rest :
  queue m = next :: rest ->
  finishLoad rnd m =
  ({| activeLoads := activeLoads m;
      maxConcurrent := maxConcurrent m;
      queue := rest |},
   [SetTimeout next
      (Binary64.mul (Binary64.Finite rnd) (Binary64.Finite 100))]).
Proof.
  intros Hq. unfold finishLoad. rewrite Hq. simpl.
  f_equal. f_equal. lia.
Qed.

(** Completions drain the queue from the front: when [k] loads complete
    while at least [k] closures wait, exactly the [k] oldest waiting
    closures are handed to timers, in their order, the others keep waiting
    and [activeLoads] is unchanged (each freed slot is taken at once). *)
Theorem completions_release_the_oldest (rnds : list Q) : forall m,
  (List.length rnds <= List.length (queue m))%nat ->
  let after := run (map FinishLoad rnds) m in
  timeouts (snd after) = firstn (List.length rnds) (queue m) /\
  calls (snd after) = [] /\
  queue (fst after) = skipn (List.length rnds) (queue m) /\
  activeLoads (fst after) = activeLoads m.
Proof.
  induction rnds as [|rnd rnds IH]; intros m Hlen; simpl.
  - repeat split.
  - destruct (queue m) as [|next rest] eqn:Hq; simpl in Hlen; [lia|].
    rewrite (finishLoad_waiting rnd m next rest Hq).
    specialize (IH {| activeLoads := activeLoads m;
                      maxConcurrent := maxConcurrent m;
                      queue := rest |}).
    simpl in IH. destruct (IH ltac:(lia)) as (H1 & H2 & H3 & H4).
    destruct (run (map FinishLoad rnds) _) as [m2 e2]; simpl in *.
    repeat split; try assumption. now rewrite H1.
Qed.

End LoadManagerMore.

Lemma waiting_means_full_witness :
  let ops : list (LoadManager.op nat) :=
    [LoadManager.StartLoad 1%nat; LoadManager.StartLoad 2%nat;
     LoadManager.StartLoad 3%nat; LoadManager.StartLoad 4%nat;
     LoadManager.StartLoad 5%nat; LoadManager.StartLoad 6%nat;
     LoadManager.FinishLoad (1 # 3)] in
  LoadManager.queue (LoadManager.final ops) = [6%nat] /\
  LoadManager.activeLoads (LoadManager.final ops) = 4%Z.
Proof.
  intros ops. split; [reflexivity |].
  apply (waiting_means_full nat ops). discriminate.
Defined.

Lemma completions_release_the_oldest_witness :
  let m := {| LoadManager.activeLoads := 4%Z;
              LoadManager.maxConcurrent := 4%Z;
              LoadManager.queue := [7%nat; 8%nat; 9%nat] |} in
  let after := LoadManager.run
                 (map LoadManager.FinishLoad [(1 # 2)%Q; (1 # 4)%Q]) m in
  LoadManager.timeouts (snd after) = [7%nat; 8%nat] /\
  LoadManager.queue (fst after) = [9%nat] /\
  LoadManager.activeLoads (fst after) = 4%Z.
Proof.
  intros m after.
  assert (Hlen : (List.length [(1 # 2)%Q; (1 # 4)%Q]
                  <= List.length (LoadManager.queue m))%nat) by (simpl; lia).
  destruct (completions_release_the_oldest nat [(1 # 2)%Q; (1 # 4)%Q] m Hlen)
    as (H1 & _ & H3 & H4).
  split; [exact H1 | split; [exact H3 | exact H4]].
Defined.

(** ** SafeImage *)

Section SafeImageMore.
Import SafeImage.

Variable encodeURIComponent : string -> string.
Variable URLSearchParams_get : string -> string -> option string.
Variable maxRetries : Z.
Variable effectiveLowBandwidth : bool.
Variable env : oracle.

Abbreviation loadImage_from' :=
  (loadImage_from maxRetries effectiveLowBandwidth env).
Abbreviation loadImage' := (loadImage maxRetries effectiveLowBandwidth env).
Abbreviation tryEach' := (tryEach maxRetries effectiveLowBandwidth env).

(** [loadWithFallbacks] stops at the first source that loads: when the
    sources before [source] are all rejected and [source] resolves, the run
    is the runs of those sources one after the other, and the sources after
    it are never started. *)
Theorem tryEach_stops_at_first_success (before after : list string)
    (source : string) :
  (forall s, In s before -> exists msg, snd (loadImage' s 0) = Rejected msg) ->
  snd (loadImage' source 0) = Resolved ->
  tryEach' (before ++ source :: after)%list =
    (flat_map (fun s => fst (loadImage' s 0)) before
     ++ fst (loadImage' source 0))%list /\
  (forall s, In s (loads_started (tryEach' (before ++ source :: after)%list)) ->
             In s (before ++ [source])%list).
Proof.
  intros Hbefore Hsource.
  assert (Hrun : tryEach' (before ++ source :: after)%list =
                 (flat_map (fun s => fst (loadImage' s 0)) before
                  ++ fst (loadImage' source 0))%list).
  { induction before as [|b before IH]; cbn [app flat_map tryEach].
    - destruct (loadImage' source 0) as [events settled].
      cbn [snd] in Hsource. subst settled. cbn [fst]. reflexivity.
    - destruct (Hbefore b (or_introl eq_refl)) as [msg Hb].
      destruct (loadImage' b 0) as [events settled]. cbn [snd fst] in *.
      subst settled.
      rewrite IH by (intros s Hs; apply Hbefore; now right).
      destruct (before ++ source :: after)%list eqn:E;
        [now destruct before | now rewrite <- app_assoc]. }
  split; [exact Hrun|].
  intros s Hin. rewrite Hrun, loads_started_app in Hin.
  apply in_app_or in Hin as [Hin|Hin]; apply in_or_app.
  - left. clear Hrun Hbefore. induction before as [|b before IH];
      cbn [flat_map] in Hin; [destruct Hin|].
    rewrite loads_started_app in Hin. apply in_app_or in Hin as [Hin|Hin].
    + left. symmetry.
      exact (loadImage_from_loads encodeURIComponent URLSearchParams_get
               maxRetries effectiveLowBandwidth env _ b 0%nat s Hin).
    + right. now apply IH.
  - right. left. symmetry.
    exact (loadImage_from_loads encodeURIComponent URLSearchParams_get
             maxRetries effectiveLowBandwidth env _ source 0%nat s Hin).
Qed.

(** When every source is rejected, each one has been tried, in order, and
    the run ends in the final error state: no current source, not loading,
    error ['All image sources failed']. *)
Theorem tryEach_all_rejected (sources : list string) :
  sources <> [] ->
  (forall s, In s sources -> exists msg, snd (loadImage' s 0) = Rejected msg) ->
  tryEach maxRetries effectiveLowBandwidth env sources =
    (flat_map (fun s => fst (loadImage' s 0)) sources
     ++ [SetCurrentSrc ""; SetIsLoading false;
         SetError (Some "All image sources failed"%string)])%list.
Proof.
  induction sources as [|s rest IH]; intros Hne Hall; [now contradiction Hne|].
  cbn [tryEach flat_map].
  destruct (Hall s (or_introl eq_refl)) as [msg Hs].
  destruct (loadImage' s 0) as [events settled]. cbn [snd fst] in *.
  subst settled.
  destruct rest as [|r rest'].
  - cbn [flat_map]. now rewrite app_nil_r.
  - rewrite IH; [now rewrite <- app_assoc | discriminate |].
    intros x Hx. apply Hall. now right.
Qed.

Lemma loadImage_from_load_bound fuel : forall src n,
  (List.length (loads_started (fst (loadImage_from' fuel src n)))
   <= S (Z.to_nat maxRetries - n))%nat.
Proof.
  induction fuel as [|fuel IH]; intros src n; cbn [SafeImage.loadImage_from];
    destruct (effectiveLowBandwidth && (n =? 0)%nat);
    try (cbn; lia);
    pose proof (loadCallback_retry maxRetries env src n) as Hr;
    pose proof (loadCallback_quiet maxRetries env src n) as [_ Hq];
    destruct (SafeImage.loadCallback maxRetries env src n) as [events v];
    cbn [fst snd] in *;
    destruct v as [|msg|d]; cbn [fst loads_started]; rewrite ?Hq;
    try (cbn; lia).
  - rewrite loads_started_app. cbn [loads_started]. rewrite Hq. cbn. lia.
  - destruct (Hr d eq_refl) as [Hlt _].
    specialize (IH src (n + 1)%nat).
    destruct (loadImage_from' fuel src (n + 1)) as [later settled].
    cbn [fst] in *. rewrite loads_started_app. cbn [loads_started].
    rewrite Hq. cbn [app List.length]. lia.
Qed.

Lemma count_occ_le_length (l : list string) (s : string) :
  (count_occ string_dec l s <= List.length l)%nat.
Proof.
  induction l as [|x l IH]; cbn [count_occ List.length]; [lia|].
  destruct (string_dec x s); lia.
Qed.

Lemma count_occ_all_same (l : list string) (a s : string) :
  (forall x, In x l -> x = a) -> a <> s -> count_occ string_dec l s = 0%nat.
Proof.
  intros Hall Hne. apply count_occ_not_In. intros Hin.
  apply Hall in Hin. congruence.
Qed.

(** The network use of one image is bounded, source by source:
    [loadWithFallbacks] starts at most [maxRetries + 1] loads for a source
    each time the source occurs in its list, and so at most
    [maxRetries + 1] loads for a source that occurs once; over all sources
    that is at most [maxRetries + 1] times their number. *)
Theorem tryEach_load_bound (sources : list string) :
  (forall s,
      (count_occ string_dec (loads_started (tryEach' sources)) s
       <= count_occ string_dec sources s * S (Z.to_nat maxRetries))%nat) /\
  (List.length (loads_started (tryEach' sources))
   <= List.length sources * S (Z.to_nat maxRetries))%nat.
Proof.
  induction sources as [|s0 rest [IHs IHl]]; cbn [tryEach];
    [split; [intros s|]; cbn; lia|].
  pose proof (loadImage_from_load_bound (Z.to_nat maxRetries - 0) s0 0) as Hs.
  pose proof (fun x =>
                loadImage_from_loads encodeURIComponent URLSearchParams_get
                  maxRetries effectiveLowBandwidth env
                  (Z.to_nat maxRetries - 0) s0 0%nat x) as Hall.
  fold (loadImage' s0 0) in Hs, Hall.
  destruct (loadImage' s0 0) as [events settled]. cbn [fst] in Hs, Hall.
  rewrite Nat.sub_0_r in Hs.
  assert (Hone : forall s,
             (count_occ string_dec (loads_started events) s
              <= (if string_dec s0 s then 1 else 0)
                 * S (Z.to_nat maxRetries))%nat).
  { intros s. destruct (string_dec s0 s) as [E|N].
    - pose proof (count_occ_le_length (loads_started events) s). lia.
    - rewrite (count_occ_all_same _ s0 s Hall N). lia. }
  assert (Hcons : forall s,
             count_occ string_dec (s0 :: rest) s =
             ((if string_dec s0 s then 1 else 0)
              + count_occ string_dec rest s)%nat).
  { intros s. cbn [count_occ]. destruct (string_dec s0 s); lia. }
  cbn [List.length].
  assert (Hrest : (forall s,
                      (count_occ string_dec (loads_started events) s
                       <= count_occ string_dec (s0 :: rest) s
                          * S (Z.to_nat maxRetries))%nat) /\
                  (List.length (loads_started events)
                   <= S (List.length rest) * S (Z.to_nat maxRetries))%nat).
  { split; [|lia]. intros s. rewrite Hcons.
    specialize (Hone s). nia. }
  destruct settled as [|msg|]; try exact Hrest.
  destruct rest as [|r rest'].
  - rewrite loads_started_app. cbn [loads_started]. rewrite app_nil_r.
    exact Hrest.
  - rewrite loads_started_app. split.
    + intros s. rewrite count_occ_app, Hcons.
      specialize (Hone s). specialize (IHs s). nia.
    + rewrite length_app. cbn [List.length] in *. lia.
Qed.

Lemma slots_app (e1 e2 : list event) : forall held,
  slots held (e1 ++ e2)%list =
  match slots held e1 with
  | Some h => slots h e2
  | None => None
  end.
Proof.
  induction e1 as [|e e1 IH]; intros held; cbn [app slots]; [reflexivity|].
  destruct e; try apply IH. destruct held; [reflexivity | apply IH].
Qed.

Lemma loadCallback_gives_slot_back src n held :
  slots (S held) (fst (SafeImage.loadCallback maxRetries env src n)) = Some held.
Proof.
  unfold SafeImage.loadCallback.
  destruct (negb (url_ok (env src n)) && (n =? 0)%nat); [reflexivity|].
  destruct (img_ok (env src n)); [reflexivity|].
  destruct (Z.of_nat n <? maxRetries)%Z; reflexivity.
Qed.

Lemma loadImage_from_slots fuel : forall src n held,
  slots held (fst (loadImage_from' fuel src n)) = Some held.
Proof.
  induction fuel as [|fuel IH]; intros src n held;
    cbn [SafeImage.loadImage_from];
    destruct (effectiveLowBandwidth && (n =? 0)%nat);
    try reflexivity;
    pose proof (loadCallback_gives_slot_back src n held) as Hs;
    destruct (SafeImage.loadCallback maxRetries env src n) as [events v];
    cbn [fst] in Hs;
    destruct v as [|msg|d]; cbn [fst slots]; try exact Hs.
  - rewrite slots_app. cbn [slots]. rewrite Hs. reflexivity.
  - specialize (IH src (n + 1)%nat held).
    destruct (loadImage_from' fuel src (n + 1)) as [later settled].
    cbn [fst] in *. rewrite slots_app. cbn [slots]. rewrite Hs.
    cbn [slots]. exact IH.
Qed.

(** [loadWithFallbacks] keeps the load manager's discipline: reading its
    run from the start, [finishLoad] is only ever called for a load that
    was started and not finished yet, and at the end of the run every load
    that was started has been finished, however the loads went. *)
Theorem tryEach_slots_balanced (sources : list string) :
  slots 0 (tryEach' sources) = Some 0%nat /\
  finishes (tryEach' sources) = List.length (loads_started (tryEach' sources)).
Proof.
  split.
  - induction sources as [|s rest IH]; cbn [tryEach]; [reflexivity|].
    pose proof (loadImage_from_slots (Z.to_nat maxRetries - 0) s 0 0) as Hs.
    fold (loadImage' s 0) in Hs.
    destruct (loadImage' s 0) as [events settled]. cbn [fst] in Hs.
    destruct settled as [|msg|]; try exact Hs.
    destruct rest as [|r rest']; rewrite slots_app, Hs; [reflexivity | exact IH].
  - induction sources as [|s rest IH]; cbn [tryEach]; [reflexivity|].
    pose proof (loadImage_finishes_every_load maxRetries effectiveLowBandwidth
                  env (Z.to_nat maxRetries - 0) s 0) as Hs.
    fold (loadImage' s 0) in Hs.
    destruct (loadImage' s 0) as [events settled]. cbn [fst] in Hs.
    destruct settled as [|msg|]; try exact Hs.
    destruct rest as [|r rest']; rewrite finishes_app, loads_started_app,
      length_app, Hs; [reflexivity | now rewrite IH].
Qed.

End SafeImageMore.

Section SafeImageModes.
Import SafeImage.
Local Open Scope string_scope.

Variable encodeURIComponent : string -> string.
Variable URLSearchParams_get : string -> string -> option string.

Abbreviation sources_of :=
  (getFallbackSources encodeURIComponent URLSearchParams_get).

(** The fallback chain ends in a local asset: without a [fallback] prop,
    every source that is not a storage URL gets a non-empty list of sources
    whose last element is a file under [/assets/]. *)
Theorem fallback_chain_ends_local (fallback : option string)
    (randomSeed : nat) (src : string) :
  JS.if_truthy fallback = None ->
  JS.includes "supabase.co/storage" src = false ->
  exists front last,
    sources_of fallback randomSeed src = (front ++ [last])%list /\
    prefix "/assets/" last = true.
Proof.
  intros Hfb Hstorage. unfold getFallbackSources. rewrite Hfb, Hstorage.
  destruct (JS.includes "logo.clearbit.com" src).
  { eexists [_; _], _. split; reflexivity. }
  destruct (JS.includes "dicebear.com" src || JS.includes "pravatar.cc" src).
  { eexists [_; _], _. split; reflexivity. }
  destruct (JS.includes "unsplash.com" src || JS.includes "picsum.photos" src).
  - unfold getContentImageFallbacks.
    destruct (if JS.includes "unsplash.com" src then JS.match_query src else None)
      as [topic|]; [destruct (JS.truthy topic)|].
    + eexists [_; _], _. split; reflexivity.
    + eexists [_], _. split; reflexivity.
    + eexists [_], _. split; reflexivity.
  - eexists [_], _. split; reflexivity.
Qed.

Lemma getFallbackSources_nonempty fallback randomSeed src :
  sources_of fallback randomSeed src <> [].
Proof.
  unfold getFallbackSources.
  destruct (JS.if_truthy fallback); [discriminate|].
  destruct (JS.includes "supabase.co/storage" src); [discriminate|].
  destruct (JS.includes "logo.clearbit.com" src); [discriminate|].
  destruct (JS.includes "dicebear.com" src || JS.includes "pravatar.cc" src);
    [discriminate|].
  destruct (JS.includes "unsplash.com" src || JS.includes "picsum.photos" src);
    [|discriminate].
  unfold getContentImageFallbacks.
  destruct (if JS.includes "unsplash.com" src then JS.match_query src else None)
    as [topic|]; [destruct (JS.truthy topic)|]; discriminate.
Qed.

(** Low-bandwidth mode never touches the network: whatever the source, its
    fallbacks and the state of the network, an image that comes into view
    only shows the local placeholder; no load is started, the load manager
    is not called and no retry is scheduled. An image with an empty [src]
    does nothing at all, in any mode. *)
Theorem low_bandwidth_shows_placeholder_only (maxRetries : Z) (env : oracle)
    (fallback : option string) (randomSeed : nat) (src : string) :
  (JS.truthy src = true ->
   loadWhenInView encodeURIComponent URLSearchParams_get maxRetries true env
     true fallback randomSeed src =
   [SetCurrentSrc FALLBACK_IMAGE; SetIsLoading false]) /\
  (forall lowBandwidth,
      JS.truthy src = false ->
      loadWhenInView encodeURIComponent URLSearchParams_get maxRetries
        lowBandwidth env true fallback randomSeed src = []).
Proof.
  split.
  - intros Hsrc. unfold loadWhenInView, loadWithFallbacks. rewrite Hsrc.
    cbn [andb].
    pose proof (getFallbackSources_nonempty fallback randomSeed src) as Hne.
    destruct (sources_of fallback randomSeed src) as [|s rest];
      [now contradiction Hne|].
    cbn [tryEach]. unfold loadImage.
    destruct (Z.to_nat maxRetries - 0)%nat; reflexivity.
  - intros lowBandwidth Hsrc. unfold loadWhenInView. rewrite Hsrc.
    reflexivity.
Qed.

(** Demo mode skips the images after the third: with the demo switch on
    (build variable or local storage) and no [lowBandwidth] prop, an image is
    put in low-bandwidth mode exactly when its [demoSkipIndex] is given and
    greater than 2, so positions 0, 1 and 2 load as usual; with the switch
    off [demoSkipIndex] changes nothing. *)
Theorem demo_mode_skips_after_third (VITE_DEMO_LOW_BANDWIDTH
    demo_low_bandwidth : option string) (demoSkipIndex : option Z) :
  let demoMode := isDemoMode VITE_DEMO_LOW_BANDWIDTH demo_low_bandwidth in
  (demoMode = true <->
   VITE_DEMO_LOW_BANDWIDTH = Some "true" \/ demo_low_bandwidth = Some "true") /\
  (demoMode = true ->
   (effectiveLowBandwidth_of false demoMode demoSkipIndex = true <->
    exists i, demoSkipIndex = Some i /\ 2 < i)) /\
  (demoMode = false ->
   forall lowBandwidth,
     effectiveLowBandwidth_of lowBandwidth demoMode demoSkipIndex = lowBandwidth).
Proof.
  intros demoMode. split; [|split].
  - unfold demoMode, isDemoMode, is_true_string. split.
    + intros H. apply orb_true_iff in H as [H|H].
      * left. destruct VITE_DEMO_LOW_BANDWIDTH as [v|]; [|discriminate].
        apply String.eqb_eq in H. now subst.
      * right. destruct demo_low_bandwidth as [v|]; [|discriminate].
        apply String.eqb_eq in H. now subst.
    + intros [H|H]; rewrite H; cbn; [reflexivity | apply orb_true_r].
  - intros Hdemo. rewrite Hdemo. unfold effectiveLowBandwidth_of, shouldSkipInDemo.
    cbn [orb andb]. split.
    + destruct demoSkipIndex as [i|]; [|discriminate].
      intros H. exists i. split; [reflexivity | now apply Z.ltb_lt].
    + intros (i & -> & Hi). now apply Z.ltb_lt.
  - intros Hdemo lowBandwidth. rewrite Hdemo.
    unfold effectiveLowBandwidth_of, shouldSkipInDemo. cbn [andb].
    apply orb_false_r.
Qed.

Lemma errors_after_two fallbackSrc k : forall a s,
  (2 <= a)%nat ->
  let after := errors k fallbackSrc {| attempts := a; img_src := s |} in
  snd after =
    (if JS.truthy fallbackSrc then repeat (SetSrc fallbackSrc) k else []) /\
  attempts (fst after) = (a + k)%nat /\
  img_src (fst after) =
    (if JS.truthy fallbackSrc
     then match k with O => s | S _ => fallbackSrc end
     else s).
Proof.
  induction k as [|k IH]; intros a s Ha; cbn [errors].
  - cbn. destruct (JS.truthy fallbackSrc); repeat split; lia.
  - unfold handleError. cbn [attempts img_src].
    destruct (Nat.ltb_spec (a + 1) maxAttempts) as [Hlt|_];
      [unfold maxAttempts in Hlt; lia|].
    destruct (JS.truthy fallbackSrc) eqn:Ht.
    + destruct (IH (a + 1)%nat fallbackSrc ltac:(lia)) as (H1 & H2 & H3).
      try rewrite Ht in H1; try rewrite Ht in H3; cbv iota in H1, H3.
      destruct (errors k fallbackSrc _) as [st2 e2]. cbn [fst snd] in *.
      repeat split; [now rewrite H1 | lia |].
      rewrite H3. now destruct k.
    + destruct (IH (a + 1)%nat s ltac:(lia)) as (H1 & H2 & H3).
      try rewrite Ht in H1; try rewrite Ht in H3; cbv iota in H1, H3.
      destruct (errors k fallbackSrc _) as [st2 e2]. cbn [fst snd] in *.
      repeat split; [now rewrite H1 | lia | exact H3].
Qed.

(** The vanilla helper retries the original URL after the first two errors
    only, after 2000 and 4000 milliseconds. From the third error on it
    retries nothing: every further error, also one of the fallback image
    itself, sets [img.src] to the fallback again, or does nothing when no
    fallback was given. *)
Theorem createSafeImageFallback_errors (fallbackSrc src : string) (n : nat) :
  let after := errors n fallbackSrc {| attempts := 0; img_src := src |} in
  snd after =
    (firstn n [RetrySameUrl 2000; RetrySameUrl 4000]
     ++ (if JS.truthy fallbackSrc
         then repeat (SetSrc fallbackSrc) (n - 2)
         else []))%list /\
  img_src (fst after) =
    (if JS.truthy fallbackSrc && (2 <? n)%nat then fallbackSrc else src).
Proof.
  destruct n as [|[|n]].
  - cbn. destruct (JS.truthy fallbackSrc); split; reflexivity.
  - cbn. destruct (JS.truthy fallbackSrc); split; reflexivity.
  - assert (E1 : handleError fallbackSrc {| attempts := 0; img_src := src |} =
                 ({| attempts := 1; img_src := src |}, [RetrySameUrl 2000]))
      by reflexivity.
    assert (E2 : handleError fallbackSrc {| attempts := 1; img_src := src |} =
                 ({| attempts := 2; img_src := src |}, [RetrySameUrl 4000]))
      by reflexivity.
    cbn [errors]. rewrite E1, E2.
    destruct (errors_after_two fallbackSrc n 2%nat src (le_n 2))
      as (H1 & _ & H3).
    destruct (errors n fallbackSrc {| attempts := 2; img_src := src |})
      as [st2 e2]. cbn [fst snd] in *.
    rewrite H1, H3. replace (S (S n) - 2)%nat with n by lia.
    split; [cbn [firstn]; rewrite firstn_nil; reflexivity|].
    destruct (JS.truthy fallbackSrc); [|reflexivity].
    destruct n; reflexivity.
Qed.

End SafeImageModes.

Lemma tryEach_stops_at_first_success_witness :
  let env : SafeImage.oracle := fun src _ =>
    {| SafeImage.url_ok := true;
       SafeImage.img_ok := (src =? "b.png")%string;
       SafeImage.rnd := 1 # 2 |} in
  SafeImage.loads_started
    (SafeImage.tryEach 1 false env ["a.png"; "b.png"; "c.png"]) =
  ["a.png"; "a.png"; "b.png"].
Proof.
  intros env.
  assert (Hbefore : forall s, In s ["a.png"] ->
            exists msg, snd (SafeImage.loadImage 1 false env s 0) =
                        SafeImage.Rejected msg).
  { intros s [<- | []]. eexists. reflexivity. }
  destruct (tryEach_stops_at_first_success (fun s => s) (fun _ _ => None)
              1 false env ["a.png"] ["c.png"] "b.png" Hbefore eq_refl)
    as [Hrun _].
  cbn [app] in Hrun. rewrite Hrun. reflexivity.
Defined.

Lemma tryEach_all_rejected_witness :
  let env : SafeImage.oracle := fun _ _ =>
    {| SafeImage.url_ok := true; SafeImage.img_ok := false;
       SafeImage.rnd := 0 |} in
  exists before,
    SafeImage.tryEach 0 false env ["a.png"; "b.png"] =
    (before ++ [SafeImage.SetCurrentSrc ""; SafeImage.SetIsLoading false;
                SafeImage.SetError (Some "All image sources failed")])%list.
Proof.
  intros env.
  assert (Hne : ["a.png"; "b.png"] <> @nil string) by discriminate.
  assert (Hall : forall s, In s ["a.png"; "b.png"] ->
            exists msg, snd (SafeImage.loadImage 0 false env s 0) =
                        SafeImage.Rejected msg).
  { intros s [<- | [<- | []]]; eexists; reflexivity. }
  eexists. exact (tryEach_all_rejected 0 false env ["a.png"; "b.png"] Hne Hall).
Defined.

Lemma fallback_chain_ends_local_witness :
  exists front last,
    SafeImage.getFallbackSources (fun s => s) (fun _ _ => None) None 7
      "https://picsum.photos/800/600?random=3" = (front ++ [last])%list /\
    prefix "/assets/" last = true.
Proof.
  exact (fallback_chain_ends_local (fun s => s) (fun _ _ => None) None 7
           "https://picsum.photos/800/600?random=3" eq_refl eq_refl).
Defined.

Lemma low_bandwidth_shows_placeholder_only_witness :
  let env : SafeImage.oracle := fun _ _ =>
    {| SafeImage.url_ok := true; SafeImage.img_ok := true;
       SafeImage.rnd := 0 |} in
  SafeImage.loadWhenInView (fun s => s) (fun _ _ => None) 3 true env true
    None 7 "https://picsum.photos/800/600?random=3" =
  [SafeImage.SetCurrentSrc SafeImage.FALLBACK_IMAGE;
   SafeImage.SetIsLoading false] /\
  SafeImage.loadWhenInView (fun s => s) (fun _ _ => None) 3 false env true
    None 7 "" = [].
Proof.
  intros env.
  destruct (low_bandwidth_shows_placeholder_only (fun s => s) (fun _ _ => None)
              3 env None 7 "https://picsum.photos/800/600?random=3")
    as [Hshown _].
  destruct (low_bandwidth_shows_placeholder_only (fun s => s) (fun _ _ => None)
              3 env None 7 "") as [_ Hempty].
  split; [exact (Hshown eq_refl) | exact (Hempty false eq_refl)].
Defined.

Lemma demo_mode_skips_after_third_witness :
  SafeImage.effectiveLowBandwidth_of false
    (SafeImage.isDemoMode None (Some "true")) (Some 3%Z) = true /\
  SafeImage.effectiveLowBandwidth_of false
    (SafeImage.isDemoMode None (Some "false")) (Some 3%Z) = false.
Proof.
  destruct (demo_mode_skips_after_third None (Some "true") (Some 3%Z))
    as (_ & Hon & _).
  destruct (demo_mode_skips_after_third None (Some "false") (Some 3%Z))
    as (_ & _ & Hoff).
  split.
  - apply (Hon eq_refl). exists 3%Z. split; [reflexivity | reflexivity].
  - exact (Hoff eq_refl false).
Defined.

(** ** FeedCard *)

Section FeedCardMore.
Import FeedCard.
Local Open Scope string_scope.

Variable be : backend.
Variable p : post.

(** Split on every answer of the backend and on every test of a handler. *)
Ltac explore :=
  cbv delta [handleLike handleAddComment handleDeleteComment handleDeletePost
             handleTogglePin toggleCommentLike];
  cbn [call bind try_catch try_finally emit toast ret throw fst snd app];
  repeat (match goal with
          | |- context [match be ?r with _ => _ end] =>
              destruct (be r) as [? | ?] eqn:?
          | |- context [match user ?v with _ => _ end] =>
              destruct (user v) as [? | ] eqn:?
          | |- context [match error ?v with _ => _ end] =>
              destruct (error v) as [? | ] eqn:?
          | |- context [match JS.if_truthy ?u with _ => _ end] =>
              destruct (JS.if_truthy u) as [? | ] eqn:?
          | |- context [match find_comment ?cs ?c with _ => _ end] =>
              destruct (find_comment cs c) as [? | ] eqn:?
          | |- context [if ?b then _ else _] => destruct b eqn:?
          end;
          cbn [call bind try_catch try_finally emit toast ret throw
               fst snd app]).

(** The busy flags never stay set: whatever the backend answers,
    [handleDeletePost] ends by clearing [deleting] and closing the dialog,
    and [handleAddComment] and [handleTogglePin], once they have set
    [submittingComment] or [pinning], end by clearing it. *)
Theorem busy_flags_are_cleared :
  (forall onPostDeleted,
      exists t,
        fst (handleDeletePost be p onPostDeleted) =
        (SetDeleting true :: t ++ [SetDeleting false; SetShowDeleteDialog false])%list) /\
  (forall newComment,
      In (SetSubmittingComment true) (fst (handleAddComment be p newComment)) ->
      last_event (fst (handleAddComment be p newComment)) =
      Some (SetSubmittingComment false)) /\
  (forall isPinned,
      In (SetPinning true) (fst (handleTogglePin be p isPinned)) ->
      last_event (fst (handleTogglePin be p isPinned)) =
      Some (SetPinning false)).
Proof.
  split; [|split].
  - intros onPostDeleted. explore;
      match goal with
      | |- exists t, (_ :: ?l) = _ =>
          exists (removelast (removelast l));
          cbn [removelast app]; reflexivity
      end.
  - intros newComment. explore; intros Hin; try reflexivity;
      cbn [In] in Hin;
      repeat (destruct Hin as [Hin | Hin]; [discriminate Hin |]);
      contradiction.
  - intros isPinned. explore; intros Hin; try reflexivity;
      cbn [In] in Hin;
      repeat (destruct Hin as [Hin | Hin]; [discriminate Hin |]);
      contradiction.
Qed.

(** Without a logged-in user nothing is written: when [auth.getUser()]
    reports no user, [handleLike], [handleAddComment] and [handleTogglePin]
    send no further request; each shows its 'Not authenticated' toast and
    completes. *)
Theorem unauthenticated_handlers_write_nothing (v : response) :
  be AuthGetUser = Fulfilled v ->
  user v = None ->
  (forall isLiked,
      handleLike be p isLiked =
      ([Request AuthGetUser;
        Toast "Not authenticated" "Please log in to like posts" destructive],
       inr tt)) /\
  (forall newComment,
      JS.truthy (JS.trim newComment) = true ->
      handleAddComment be p newComment =
      ([Request AuthGetUser;
        Toast "Not authenticated" "Please log in to comment" destructive],
       inr tt)) /\
  (forall isPinned,
      handleTogglePin be p isPinned =
      ([Request AuthGetUser;
        Toast "Not authenticated" "Please log in to pin posts" destructive],
       inr tt)).
Proof.
  intros Hauth Huser. repeat split; intros;
    cbv delta [handleLike handleAddComment handleTogglePin]; cbv beta;
    try match goal with H : JS.truthy _ = true |- _ => rewrite H end;
    cbn [negb call bind toast emit fst snd app]; rewrite Hauth;
    cbn [call bind toast emit fst snd app]; rewrite Huser; reflexivity.
Qed.

(** Blank comments are never sent: a comment that is empty after trimming
    makes [handleAddComment] return at once, with no request at all; and
    whatever the backend answers, a row the handler inserts into [comments]
    carries the trimmed text, which is not empty. *)
Theorem blank_comments_are_not_sent (newComment : string) :
  (JS.truthy (JS.trim newComment) = false ->
   handleAddComment be p newComment = ([], inr tt)) /\
  (forall row,
      In (Request (Insert "comments" row))
         (fst (handleAddComment be p newComment)) ->
      field "content" row = Some (JS.trim newComment) /\
      JS.trim newComment <> "").
Proof.
  split.
  - intros Hblank. unfold handleAddComment. rewrite Hblank. reflexivity.
  - intros row.
    assert (Hne : JS.truthy (JS.trim newComment) = true -> JS.trim newComment <> "").
    { unfold JS.truthy. intros H E. rewrite E in H. discriminate. }
    explore; intros Hin; cbn [In] in Hin;
      repeat (destruct Hin as [Hin | Hin];
              [first
                 [ discriminate Hin
                 | solve [inversion Hin]
                 | inversion Hin; subst; split;
                   [reflexivity
                   | apply Hne;
                     match goal with
                     | H : negb (JS.truthy _) = false |- _ =>
                         now apply negb_false_iff in H
                     end] ] |]);
      contradiction.
Qed.

(** [handleLike] notices rejected promises only. When every call is
    fulfilled, also with an [error] in its result, the handler completes
    and never shows its failure toast: with a logged-in user it shows no
    toast at all, and without one only the 'Not authenticated' toast. A
    like on another user's post whose insert into [likes] came back with
    an error still sends the notification to the author. *)
Theorem handleLike_ignores_error_results :
  (forall r, exists v, be r = Fulfilled v) ->
  forall isLiked,
    let c := handleLike be p isLiked in
    completes c /\
    ~ toasted_failure "Failed to update like" c /\
    (forall v uid,
        be AuthGetUser = Fulfilled v -> user v = Some uid ->
        toasts (fst c) = [] /\
        (uid <> authorId p -> isLiked = false ->
         exists message,
           notifications_inserted (fst c) =
           [[("user_id", authorId p); ("type", "like");
             ("title", "New Like"); ("message", message);
             ("actor_id", uid); ("post_id", id p)]])) /\
    (forall v,
        be AuthGetUser = Fulfilled v -> user v = None ->
        toasts (fst c) =
        [Toast "Not authenticated" "Please log in to like posts"
           destructive]).
Proof.
  intros Hok isLiked c. subst c. unfold completes, toasted_failure.
  destruct (Hok AuthGetUser) as (v0 & Hauth).
  cbv delta [handleLike]. cbn [call bind]. rewrite Hauth.
  cbn [call bind fst snd app].
  destruct (user v0) as [uid0|] eqn:Huser.
  - destruct isLiked;
      [|destruct (String.eqb_spec uid0 (authorId p)) as [Heq|Hne]];
      cbn [negb call bind try_catch ret fst snd app];
      repeat (match goal with
              | |- context [be ?r] =>
                  let v := fresh "v" in
                  let E := fresh "E" in
                  destruct (Hok r) as (v & E); rewrite E; clear E;
                  cbn [call bind try_catch ret fst snd app]
              end);
      (split; [reflexivity|]);
      (split; [cbn [In]; intros Hin;
               repeat (destruct Hin as [Hin|Hin]; [discriminate Hin|]);
               exact Hin|]);
      (split; [|intros w Hw Hnone; congruence]);
      intros w uid Hw Hu;
      assert (uid = uid0) by congruence; subst uid;
      (split; [reflexivity|]); intros Hd Hl;
      first [discriminate Hl | contradiction | eexists; reflexivity].
  - cbn [toast emit fst snd app].
    split; [reflexivity|].
    split; [cbn [In]; intros [Hin|[Hin|[]]]; discriminate Hin|].
    split; [intros v uid Hv Hu; congruence|].
    intros v Hv Hnone. reflexivity.
Qed.

(** A comment the backend refuses is reported and not announced: when the
    insert into [comments] comes back with an [error], [handleAddComment]
    sends no notification, does not clear the input, shows the destructive
    'Failed to add comment' toast and no other, and completes. *)
Theorem refused_comment_is_not_announced (uid newComment : string)
    (v res : response) (e : string) :
  JS.truthy (JS.trim newComment) = true ->
  be AuthGetUser = Fulfilled v ->
  user v = Some uid ->
  be (Insert "comments"
        [("post_id", id p); ("user_id", uid);
         ("content", JS.trim newComment)]) = Fulfilled res ->
  error res = Some e ->
  let c := handleAddComment be p newComment in
  completes c /\
  notifications_inserted (fst c) = [] /\
  ~ In (SetNewComment "") (fst c) /\
  toasts (fst c) = [Toast "Error" "Failed to add comment" destructive].
Proof.
  intros Htrim Hauth Huser Hins Herr c. subst c. unfold completes.
  cbv delta [handleAddComment]. cbv beta. rewrite Htrim.
  cbn [negb call bind]. rewrite Hauth.
  cbn [call bind fst snd app]. rewrite Huser.
  cbn [call bind emit try_finally try_catch fst snd app]. rewrite Hins.
  cbn [call bind emit try_finally try_catch fst snd app]. rewrite Herr.
  cbn. repeat split.
  intros Hin. repeat (destruct Hin as [Hin | Hin]; [discriminate Hin |]).
  exact Hin.
Qed.

(** In a branch where every call was fulfilled, no call was rejected. *)
Ltac none_rejected :=
  let r := fresh "r" in
  let reason := fresh "reason" in
  let Hin := fresh "Hin" in
  let Hr := fresh "Hr" in
  intros (r & reason & Hin & Hr);
  cbn [fst In] in Hin;
  repeat (destruct Hin as [Hin | Hin];
          [ first [ discriminate Hin
                  | inversion Hin; subst; congruence ] | ]);
  contradiction.

(** The parent hears of a deletion only when it happened: whatever the
    backend answers, [handleDeletePost] calls [onPostDeleted] only after the
    delete of the row was fulfilled without an [error]; and it does call it
    whenever the prop is given, no call is rejected and the delete comes
    back without an [error]. *)
Theorem parent_notified_only_after_delete (onPostDeleted : bool) :
  let c := handleDeletePost be p onPostDeleted in
  (In (OnPostDeleted (id p)) (fst c) ->
   onPostDeleted = true /\
   exists v, be (Delete "posts" [("id", id p)]) = Fulfilled v /\
             error v = None) /\
  (onPostDeleted = true ->
   ~ call_rejected be c ->
   (exists v, be (Delete "posts" [("id", id p)]) = Fulfilled v /\
              error v = None) ->
   In (OnPostDeleted (id p)) (fst c)).
Proof.
  intros c. subst c. unfold call_rejected. split.
  - explore; intros Hin; cbn [In] in Hin;
      repeat (destruct Hin as [Hin | Hin]; [try discriminate Hin |]);
      try contradiction;
      (split; [reflexivity | eexists; split; [reflexivity | eassumption]]).
  - intros Hcb. subst onPostDeleted. explore; intros Hnone (v & Hv & Herr);
      try (cbn [In]; repeat (first [left; reflexivity | right]));
      try congruence;
      exfalso; apply Hnone;
      match goal with
      | H : be ?r = Rejects ?e |- _ =>
          exists r, e; split; [| exact H];
          cbn [fst In]; repeat (first [left; reflexivity | right])
      end.
Qed.

(** [toggleCommentLike] never reports a failed call: whatever the backend
    answers it completes and sends at most one request. Without a current
    user it only shows the 'Not authenticated' toast and sends nothing;
    with one it shows no toast at all, a rejected call is only logged to
    the console, and it goes on to reload the comments only after its one
    call was fulfilled. *)
Theorem toggleCommentLike_fails_silently (currentUserId : option string)
    (comments : list comment) (commentId : string) :
  let c := toggleCommentLike be currentUserId comments commentId in
  (exists reload, snd c = inr reload) /\
  (List.length (requests (fst c)) <= 1)%nat /\
  (JS.if_truthy currentUserId = None ->
   c = ([Toast "Not authenticated" "Please log in to like comments"
           destructive], inr false)) /\
  (JS.if_truthy currentUserId <> None -> toasts (fst c) = []) /\
  (snd c = inr true ->
   exists r v, requests (fst c) = [r] /\ be r = Fulfilled v) /\
  (forall r reason,
      In (Request r) (fst c) -> be r = Rejects reason ->
      snd c = inr false /\
      In (ConsoleError "Error toggling comment like:") (fst c) /\
      toasts (fst c) = []).
Proof.
  intros c. subst c.
  explore;
    (split; [eexists; reflexivity |]);
    (split; [cbn; lia |]);
    (split; [intros Hnone; first [reflexivity | discriminate Hnone] |]);
    (split; [intros Hsome; first [reflexivity | contradiction] |]);
    (split;
     [ cbn [snd]; intros Hs;
       first [ discriminate Hs
             | do 2 eexists; split; [reflexivity | eassumption] ]
     | intros ? ? Hin Hr; cbn [fst In] in Hin;
       repeat (destruct Hin as [Hin | Hin];
               [ first [ discriminate Hin
                       | inversion Hin; subst;
                         first [ congruence
                               | split; [reflexivity |
                                         split;
                                         [cbn [fst In];
                                          repeat (first [left; reflexivity
                                                        | right])
                                         | reflexivity]] ] ] |]);
       contradiction ]).
Qed.

End FeedCardMore.

(** ** The storage path of a post *)

Section StoragePath.
Import FeedCard.
Local Open Scope string_scope.

Lemma split_nonempty sep s : JS.split sep s <> [].
Proof.
  destruct s as [|c s]; cbn [JS.split]; [discriminate|].
  destruct (Ascii.eqb c sep); [discriminate|].
  destruct (JS.split sep s); discriminate.
Qed.

Lemma split_app sep a b :
  JS.split sep (a ++ String sep b) = (JS.split sep a ++ JS.split sep b)%list.
Proof.
  induction a as [|c a IH]; cbn [append JS.split app].
  - now rewrite Ascii.eqb_refl.
  - rewrite IH. destruct (Ascii.eqb c sep); [reflexivity|].
    pose proof (split_nonempty sep a) as Hne.
    destruct (JS.split sep a) as [|piece pieces]; [now contradiction Hne|].
    reflexivity.
Qed.

Lemma split_without_separator sep s :
  JS.includes (String sep EmptyString) s = false ->
  JS.split sep s = [s].
Proof.
  induction s as [|c s IH]; cbn [JS.includes JS.split prefix]; [reflexivity|].
  destruct (Ascii.ascii_dec sep c) as [E|E].
  - subst. destruct s; discriminate.
  - assert (Hc : Ascii.eqb c sep = false)
      by (apply Ascii.eqb_neq; congruence).
    rewrite Hc. intros H. rewrite (IH H). reflexivity.
Qed.

Lemma truthy_app a c b : JS.truthy (a ++ String c b) = true.
Proof. destruct a; reflexivity. Qed.

(** [handleDeletePost] finds the file of a post in its public URL: for a
    URL that ends in [/bucket/folder/file], where none of the three parts
    holds a slash, the one storage request is the removal of
    [folder/file] from [bucket], whatever comes before. *)
Theorem storage_path_of_public_url (be : backend) (p : post)
    (onPostDeleted : bool) (base bucket folder file : string) :
  JS.includes "/" bucket = false ->
  JS.includes "/" folder = false ->
  JS.includes "/" file = false ->
  content_url p =
    Some (base ++ "/" ++ bucket ++ "/" ++ folder ++ "/" ++ file) ->
  exists rest,
    fst (handleDeletePost be p onPostDeleted) =
    SetDeleting true
      :: Request (StorageRemove (Some bucket) [folder ++ "/" ++ file])
      :: rest.
Proof.
  intros Hb Hf Hfile Hurl.
  assert (Hparts : JS.split "/" (base ++ "/" ++ bucket ++ "/" ++ folder ++ "/" ++ file)
                   = (JS.split "/" base ++ [bucket; folder; file])%list).
  { cbn [append]. rewrite split_app. f_equal.
    rewrite split_app, (split_without_separator _ _ Hb).
    rewrite split_app, (split_without_separator _ _ Hf).
    rewrite (split_without_separator _ _ Hfile). reflexivity. }
  unfold handleDeletePost. rewrite Hurl. unfold JS.if_truthy.
  cbn [append]. rewrite truthy_app.
  cbn [append] in Hparts. rewrite Hparts.
  set (n := List.length (JS.split "/" base)).
  assert (Hlen : List.length (JS.split "/" base ++ [bucket; folder; file])%list
                 = (n + 3)%nat) by (rewrite length_app; reflexivity).
  rewrite Hlen.
  destruct (Nat.ltb_spec (n + 3) 3) as [Hlt|_]; [lia|].
  replace (n + 3 - 3)%nat with (n + 0)%nat by lia.
  unfold n at 1. rewrite nth_error_app2 by lia.
  replace (List.length (JS.split "/" base) + 0 - List.length (JS.split "/" base))%nat
    with 0%nat by lia.
  cbn [nth_error]. unfold JS.slice_last. rewrite Hlen.
  replace (n + 3 - 2)%nat with (n + 1)%nat by lia.
  rewrite skipn_app. unfold n.
  rewrite skipn_all2 by lia.
  replace (List.length (JS.split "/" base) + 1 - List.length (JS.split "/" base))%nat
    with 1%nat by lia.
  cbn [skipn app JS.join].
  cbn [call bind emit try_catch try_finally fst snd app].
  destruct (be (StorageRemove (Some bucket) [folder ++ "/" ++ file]));
    cbn [call bind emit toast try_catch try_finally fst snd app].
  - destruct (be (Delete "posts" [("id", id p)])) as [v|e];
      cbn [call bind emit toast try_catch try_finally fst snd app];
      [destruct (error v); [|destruct onPostDeleted]|];
      cbn [call bind emit toast throw ret try_catch try_finally fst snd app];
      eexists; reflexivity.
  - eexists. reflexivity.
Qed.

End StoragePath.

(** ** The database *)

Section DatabaseMore.
Import Database.
Local Open Scope string_scope.

Lemma update_rewards_fits uid points rows rows' :
  update_rewards uid points rows = Ok rows' ->
  forall r, In r rows -> profiles.user_id r = uid ->
            decimal_10_2_fits (profiles.rewards r + points) = true.
Proof.
  revert rows'. induction rows as [|q rest IH]; intros rows' H r Hin Hr;
    [destruct Hin|].
  cbn [update_rewards] in H.
  destruct (update_rewards uid points rest) as [rest'|e]; [|discriminate].
  destruct Hin as [<- | Hin]; [|exact (IH rest' eq_refl r Hin Hr)].
  rewrite Hr, String.eqb_refl in H.
  destruct (decimal_10_2_fits (profiles.rewards q + points));
    [reflexivity | discriminate].
Qed.

Lemma update_rewards_errors uid points rows e :
  update_rewards uid points rows = Error e -> e = numeric_value_out_of_range.
Proof.
  induction rows as [|q rest IH]; cbn [update_rewards]; [discriminate|].
  destruct (update_rewards uid points rest) as [rest'|e'].
  - destruct (profiles.user_id q =? uid); [|discriminate].
    destruct (decimal_10_2_fits _); [discriminate|]. now intros [= <-].
  - intros [= <-]. now apply IH.
Qed.

Lemma lookup_in uid rows pr :
  profiles.lookup uid rows = Some pr ->
  In pr rows /\ profiles.user_id pr = uid.
Proof.
  induction rows as [|q rest IH]; cbn [profiles.lookup]; [discriminate|].
  destruct (String.eqb_spec (profiles.user_id q) uid) as [E|_].
  - intros [= <-]. split; [now left | exact E].
  - intros H. destruct (IH H). split; [now right | assumption].
Qed.

(** What [insert_post] reduces to, with the triggers fired. *)
Lemma insert_post_unfold now gen v d :
  insert_post now gen v d =
  let NEW := posts.with_defaults now gen v in
  match posts_constraints d NEW with
  | Error e => Error e
  | Ok _ =>
      match award_post_points now NEW (store_post NEW d) with
      | Error e => Error e
      | Ok (_, d') => Ok d'
      end
  end.
Proof.
  unfold insert_post.
  cbn [fire posts_triggers update_posts_updated_at award_points_on_post
       tgtiming tgevent tgfunction timing_eqb tg_event_eqb andb].
  destruct (posts_constraints d (posts.with_defaults now gen v)) as [[]|e];
    [|reflexivity].
  cbv zeta.
  destruct (award_post_points now _ _) as [[NEW' d1]|e]; reflexivity.
Qed.

Lemma insert_post_ok_iff now gen v d :
  let NEW := posts.with_defaults now gen v in
  let points := Batch.points_of v in
  ((exists d', insert_post now gen v d = Ok d') <->
   posts_constraints d NEW = Ok tt /\
   (forall pr, In pr (profiles_table d) ->
               profiles.user_id pr = posts.user_id NEW ->
               decimal_10_2_fits (profiles.rewards pr + points) = true)) /\
  (forall d',
      insert_post now gen v d = Ok d' ->
      posts_table d' = (posts_table d ++ [NEW])%list /\
      stories_table d' = stories_table d).
Proof.
  intros NEW points. split; [split|].
  - intros [d' H]. rewrite insert_post_unfold in H. cbv zeta in H.
    fold NEW in H.
    destruct (posts_constraints d NEW) as [[]|e]; [|discriminate].
    split; [reflexivity|].
    unfold award_post_points in H. cbn [store_post profiles_table] in H.
    match type of H with
    | context [update_rewards ?a ?b ?c] =>
        destruct (update_rewards a b c) as [rows|e] eqn:E; [|discriminate]
    end.
    exact (update_rewards_fits _ _ _ _ E).
  - intros [Hc Hfits]. rewrite insert_post_unfold. cbv zeta. fold NEW.
    rewrite Hc. unfold award_post_points. cbn [store_post profiles_table].
    match goal with
    | |- context [update_rewards ?a ?b ?c] =>
        change (update_rewards a b c)
          with (update_rewards (posts.user_id NEW) points (profiles_table d))
    end.
    rewrite (update_rewards_succeeds _ _ _ Hfits). eexists. reflexivity.
  - intros d' H. rewrite insert_post_unfold in H. cbv zeta in H.
    fold NEW in H.
    destruct (posts_constraints d NEW) as [[]|e]; [|discriminate].
    unfold award_post_points in H. cbn [store_post profiles_table] in H.
    match type of H with
    | context [update_rewards ?a ?b ?c] =>
        destruct (update_rewards a b c) as [rows|e]; [|discriminate]
    end.
    injection H as <-. split; reflexivity.
Qed.

Lemma insert_post_overflow now gen v d pr :
  let NEW := posts.with_defaults now gen v in
  posts_constraints d NEW = Ok tt ->
  profiles.lookup (posts.user_id NEW) (profiles_table d) = Some pr ->
  10 ^ 10 <= profiles.rewards pr + Batch.points_of v ->
  insert_post now gen v d = Error numeric_value_out_of_range.
Proof.
  intros NEW Hc Hl Hover. rewrite insert_post_unfold. cbv zeta. fold NEW.
  rewrite Hc. unfold award_post_points. cbn [store_post profiles_table].
  match goal with
  | |- context [update_rewards ?a ?b ?c] =>
      change (update_rewards a b c)
        with (update_rewards (posts.user_id NEW) (Batch.points_of v)
                (profiles_table d))
  end.
  destruct (update_rewards (posts.user_id NEW) (Batch.points_of v)
              (profiles_table d)) as [rows|e] eqn:E.
  - exfalso. destruct (lookup_in _ _ _ Hl) as [Hin Hu].
    pose proof (update_rewards_fits _ _ _ _ E pr Hin Hu) as Hfit.
    unfold decimal_10_2_fits in Hfit. apply Z.ltb_lt in Hfit.
    assert (0 <= Batch.points_of v)
      by (unfold Batch.points_of; destruct (posts.default _ _); lia).
    lia.
  - now rewrite (update_rewards_errors _ _ _ _ E).
Qed.

Lemma is_auth_uid_iff (s : session) (uid : uuid) :
  is_auth_uid s uid = true <-> auth_uid s = Some uid.
Proof.
  unfold is_auth_uid. destruct (auth_uid s) as [u|].
  - destruct (String.eqb_spec u uid); split; congruence.
  - split; discriminate.
Qed.

Lemma insert_post_as_ok s gen v d d' :
  Batch.insert_post_as s gen v d = Ok d' <->
  auth_uid s = Some (posts.v_user_id v) /\
  insert_post (now s) gen v d = Ok d'.
Proof.
  unfold Batch.insert_post_as. cbn [posts.with_defaults posts.user_id].
  rewrite <- is_auth_uid_iff.
  destruct (is_auth_uid s (posts.v_user_id v)); cbn [negb].
  - tauto.
  - split; [discriminate | intros [? _]; discriminate].
Qed.

(** When an insert into [posts] goes through: exactly when the session is
    signed in as the author the row names, the row has a fresh [id], an
    author with a profile and an allowed [content_type], and the author's
    new balance fits [DECIMAL(10,2)]. The row is then stored as given, with
    its defaults ([updated_at] is not touched: the update trigger does not
    fire on an insert), and the stories are untouched. *)
Theorem insert_post_succeeds_iff (s : session) gen v d :
  let NEW := posts.with_defaults (now s) gen v in
  let points := Batch.points_of v in
  ((exists d', Batch.insert_post_as s gen v d = Ok d') <->
   auth_uid s = Some (posts.user_id NEW) /\
   posts_constraints d NEW = Ok tt /\
   (forall pr, In pr (profiles_table d) ->
               profiles.user_id pr = posts.user_id NEW ->
               decimal_10_2_fits (profiles.rewards pr + points) = true)) /\
  (forall d',
      Batch.insert_post_as s gen v d = Ok d' ->
      posts_table d' = (posts_table d ++ [NEW])%list /\
      stories_table d' = stories_table d).
Proof.
  intros NEW points.
  destruct (insert_post_ok_iff (now s) gen v d) as [Hiff Hrows].
  split; [split|].
  - intros [d' H]. apply insert_post_as_ok in H as [Ha H].
    split; [exact Ha|]. apply Hiff. eauto.
  - intros (Ha & Hc & Hfits). destruct (proj2 Hiff (conj Hc Hfits)) as [d' H].
    exists d'. apply insert_post_as_ok. split; assumption.
  - intros d' H. apply insert_post_as_ok in H as [_ H]. exact (Hrows d' H).
Qed.

(** The rewards column has a ceiling, and it stops the author: when the
    session and the row itself are acceptable but the author's balance plus
    the points of the post no longer fits [DECIMAL(10,2)], the trigger's
    [UPDATE] overflows and the insert of the post fails with it. *)
Theorem rewards_ceiling_blocks_posting (s : session) gen v d pr :
  let NEW := posts.with_defaults (now s) gen v in
  auth_uid s = Some (posts.user_id NEW) ->
  posts_constraints d NEW = Ok tt ->
  profiles.lookup (posts.user_id NEW) (profiles_table d) = Some pr ->
  10 ^ 10 <= profiles.rewards pr + Batch.points_of v ->
  Batch.insert_post_as s gen v d = Error numeric_value_out_of_range.
Proof.
  intros NEW Ha Hc Hl Hover. unfold Batch.insert_post_as. fold NEW.
  apply is_auth_uid_iff in Ha. rewrite Ha. cbn [negb].
  exact (insert_post_overflow (now s) gen v d pr Hc Hl Hover).
Qed.

Lemma insert_post_effect now gen v d d' :
  insert_post now gen v d = Ok d' ->
  profiles_table d' =
    map (credited (posts.v_user_id v) (Batch.points_of v)) (profiles_table d) /\
  List.length (notifications_table d') =
    S (List.length (notifications_table d)) /\
  List.length (posts_table d') = S (List.length (posts_table d)).
Proof.
  intros H. rewrite insert_post_unfold in H. cbv zeta in H.
  destruct (posts_constraints d _) as [[]|e]; [|discriminate].
  unfold award_post_points in H. cbn [store_post profiles_table] in H.
  match type of H with
  | context [update_rewards ?a ?b ?c] =>
      change (update_rewards a b c)
        with (update_rewards (posts.v_user_id v) (Batch.points_of v)
                (profiles_table d)) in H;
      destruct (update_rewards (posts.v_user_id v) (Batch.points_of v)
                  (profiles_table d)) as [rows|e] eqn:E; [|discriminate]
  end.
  apply update_rewards_ok in E. injection H as <-.
  cbn [profiles_table notifications_table posts_table store_post].
  rewrite !length_app. cbn [List.length]. repeat split; [exact E | lia | lia].
Qed.

(** Rewards add up: after a run of inserts into [posts] that all succeed,
    every user's balance has grown by exactly the points of that user's
    rows in the run, 1.00 for each spark and 0.50 for each other post, and
    there is one more notification and one more post for every insert. *)
Theorem rewards_add_up (batch : list Batch.statement) : forall d d',
  Batch.insert_posts batch d = Ok d' ->
  (forall uid pr,
      profiles.lookup uid (profiles_table d) = Some pr ->
      profiles.lookup uid (profiles_table d') =
      Some {| profiles.user_id := uid;
              profiles.rewards :=
                profiles.rewards pr + Batch.points_for uid batch |}) /\
  List.length (notifications_table d') =
    (List.length (notifications_table d) + List.length batch)%nat /\
  List.length (posts_table d') =
    (List.length (posts_table d) + List.length batch)%nat.
Proof.
  induction batch as [|[[s gen] v] rest IH]; intros d d' H;
    cbn [Batch.insert_posts] in H.
  - injection H as <-. cbn [List.length Batch.points_for].
    repeat split; try lia.
    intros uid pr Hl. rewrite Hl. destruct (lookup_in _ _ _ Hl) as [_ Hu].
    destruct pr as [u r]. cbn in *. subst u. f_equal. f_equal. lia.
  - destruct (Batch.insert_post_as s gen v d) as [d1|e] eqn:E; [|discriminate].
    apply insert_post_as_ok in E as [_ E].
    destruct (insert_post_effect _ _ _ _ _ E) as (Hp & Hn & Hposts).
    destruct (IH d1 d' H) as (IHl & IHn & IHp).
    cbn [List.length Batch.points_for]. repeat split; try lia.
    intros uid pr Hl.
    destruct (lookup_credited (posts.v_user_id v) (Batch.points_of v)
                (profiles_table d)) as [Hsame Hother].
    destruct (String.eqb_spec (posts.v_user_id v) uid) as [Eu|Eu].
    + subst uid. specialize (Hsame pr Hl). rewrite <- Hp in Hsame.
      rewrite (IHl _ _ Hsame). cbn [profiles.rewards].
      f_equal. f_equal. lia.
    + assert (Hne : uid <> posts.v_user_id v) by congruence.
      specialize (Hother uid Hne). rewrite <- Hp, Hl in Hother.
      rewrite (IHl _ _ Hother).
      reflexivity.
Qed.

(** A story belongs to its owner and cannot be changed: no policy allows
    an [UPDATE] of [public.stories], so no session, signed in or not, can
    alter a story or its [expires_at]; a row can be inserted or deleted
    only by the user it names in [user_id], and an insert in another
    user's name is refused. *)
Theorem stories_are_owner_only (s : session) :
  (forall r, permitted UPDATE_ s r = false) /\
  (forall r, permitted DELETE_ s r = true <->
             auth_uid s = Some (stories.user_id r)) /\
  (forall r, permitted INSERT_ s r = true <->
             auth_uid s = Some (stories.user_id r)) /\
  (forall gen v d,
      auth_uid s <> Some (stories.v_user_id v) ->
      insert_story s gen v d = Error insufficient_privilege).
Proof.
  pose proof (is_auth_uid_iff s) as Hown.
  assert (Hdel : forall r, permitted DELETE_ s r = is_auth_uid s (stories.user_id r)).
  { intros r. unfold permitted. cbn. now rewrite ?orb_false_r. }
  assert (Hins : forall r, permitted INSERT_ s r = is_auth_uid s (stories.user_id r)).
  { intros r. unfold permitted. cbn. now rewrite ?orb_false_r. }
  repeat split.
  - rewrite Hdel. apply Hown.
  - rewrite Hdel. apply Hown.
  - rewrite Hins. apply Hown.
  - rewrite Hins. apply Hown.
  - intros gen v d Hne. unfold insert_story. rewrite Hins.
    cbn [stories.with_defaults stories.user_id].
    destruct (is_auth_uid s (stories.v_user_id v)) eqn:E; [|reflexivity].
    apply Hown in E. contradiction.
Qed.

(** Every row the composer sends is acceptable to the table: its
    [content_type] is one of the three the [CHECK] constraint allows,
    ['video'] exactly for a spark, and the trigger awards 1.00 for it
    exactly when it is a spark. *)
Theorem composer_rows_pass_the_check (t : Composer.postType) (user_id : uuid)
    (fileUrl : option string) (caption : string) now gen :
  let v := Composer.row_to_insert t user_id fileUrl caption in
  let NEW := posts.with_defaults now gen v in
  posts.posts_content_type_check NEW = true /\
  (posts.content_type NEW = "video" <-> t = Composer.spark) /\
  (posts.is_spark NEW = true <-> t = Composer.spark) /\
  Batch.points_of v = (if posts.is_spark NEW then 100 else 50)%Z /\
  (Batch.points_of v = 100%Z <-> t = Composer.spark).
Proof.
  intros v NEW. subst NEW v.
  unfold posts.posts_content_type_check, Batch.points_of.
  cbn [posts.with_defaults posts.content_type posts.is_spark posts.default
       Composer.row_to_insert posts.v_content_type posts.v_is_spark].
  destruct t; [destruct (JS.if_truthy fileUrl)|];
    repeat split; try reflexivity; intros; try discriminate; reflexivity.
Qed.

End DatabaseMore.

(** ** The tables of pairs: one row for each user and target *)

Section PairTableMore.
Import Database.
Local Open Scope string_scope.

Lemma own_iff (s : session) (r : PairTable.row) :
  PairTable.own s r = true <-> auth_uid s = Some (PairTable.user_id r).
Proof.
  unfold PairTable.own, is_auth_uid. destruct (auth_uid s) as [u|].
  - destruct (String.eqb_spec u (PairTable.user_id r)); split; congruence.
  - split; discriminate.
Qed.

Lemma same_pair_iff (a b : PairTable.row) :
  PairTable.same_pair a b = true <->
  (PairTable.user_id a, PairTable.target_id a) =
  (PairTable.user_id b, PairTable.target_id b).
Proof.
  unfold PairTable.same_pair. rewrite andb_true_iff, !String.eqb_eq.
  split; [intros [-> ->]; reflexivity | intros H; injection H; auto].
Qed.

Lemma insert_ok s gen v rows rows' :
  PairTable.insert s gen v rows = Ok rows' ->
  let NEW := PairTable.with_defaults (now s) gen v in
  rows' = (rows ++ [NEW])%list /\
  PairTable.own s NEW = true /\
  (forall q, In q rows -> PairTable.same_pair NEW q = false) /\
  (forall q, In q rows -> PairTable.id q <> PairTable.id NEW).
Proof.
  intros H NEW. unfold PairTable.insert in H. fold NEW in H.
  destruct (PairTable.own s NEW) eqn:Eo; [|discriminate]. cbn [negb] in H.
  destruct (existsb _ rows) eqn:Eid in H; [discriminate|].
  destruct (existsb (PairTable.same_pair NEW) rows) eqn:Ep; [discriminate|].
  injection H as <-. repeat split.
  - intros q Hq. destruct (PairTable.same_pair NEW q) eqn:E; [|reflexivity].
    assert (existsb (PairTable.same_pair NEW) rows = true)
      by (apply existsb_exists; eauto). congruence.
  - intros q Hq Heq.
    assert (existsb (fun q => PairTable.id q =? PairTable.id NEW) rows = true).
    { apply existsb_exists. exists q. split; [exact Hq|].
      now apply String.eqb_eq. }
    congruence.
Qed.

Lemma pairs_filter_NoDup (f : PairTable.row -> bool) rows :
  NoDup (PairTable.pairs rows) -> NoDup (PairTable.pairs (filter f rows)).
Proof.
  unfold PairTable.pairs. induction rows as [|r rows IH]; cbn; [auto|].
  intros H. inversion H as [|? ? Hnin Hnd]; subst.
  destruct (f r); cbn; [|auto]. constructor; [|auto].
  intros Hin. apply Hnin. apply in_map_iff in Hin as (q & Hq & Hin).
  apply filter_In in Hin as [Hin _]. apply in_map_iff. eauto.
Qed.

(** One row for each user and target: starting from a table in which no
    pair of user and target occurs twice, no insert and no delete ever
    produces one in which a pair occurs twice; and once a pair is in the
    table, every further insert of it, by any session and under any id,
    is an error and leaves no new row. *)
Theorem one_row_per_pair (rows : list PairTable.row) :
  NoDup (PairTable.pairs rows) ->
  (forall s gen v rows',
      PairTable.insert s gen v rows = Ok rows' ->
      NoDup (PairTable.pairs rows')) /\
  (forall s where_, NoDup (PairTable.pairs (PairTable.delete s where_ rows))) /\
  (forall s gen v,
      In (PairTable.v_user_id v, PairTable.v_target_id v)
         (PairTable.pairs rows) ->
      exists e, PairTable.insert s gen v rows = Error e).
Proof.
  intros Hnd. repeat split.
  - intros s gen v rows' H. destruct (insert_ok _ _ _ _ _ H) as (-> & _ & Hp & _).
    unfold PairTable.pairs in *. rewrite map_app. cbn [map].
    apply NoDup_app; repeat split; [exact Hnd | | ].
    + constructor; [intros [] | constructor].
    + intros x Hin [Hx|[]]. subst x.
      apply in_map_iff in Hin as (q & Hq & Hin).
      specialize (Hp q Hin).
      assert (PairTable.same_pair (PairTable.with_defaults (now s) gen v) q
              = true) by (apply same_pair_iff; now rewrite Hq).
      congruence.
  - intros s where_. now apply pairs_filter_NoDup.
  - intros s gen v Hin. unfold PairTable.insert.
    destruct (negb _); [eauto|]. destruct (existsb _ rows) in |- *; [eauto|].
    match goal with
    | |- context [existsb ?f rows] => assert (E : existsb f rows = true)
    end.
    { apply in_map_iff in Hin as (q & Hq & Hin). apply existsb_exists.
      exists q. split; [exact Hin|]. apply same_pair_iff. now rewrite Hq. }
    rewrite E. eauto.
Qed.

(** Like and unlike cancel: when a row for user [u] and target [t] has
    been inserted, the client's delete by the same session with
    [.eq(target, t).eq('user_id', u)] gives back exactly the table as it
    was before the insert, the other rows untouched and in their order. *)
Theorem insert_then_delete_restores s gen v rows rows' :
  PairTable.insert s gen v rows = Ok rows' ->
  PairTable.delete s
    (PairTable.pair_is (PairTable.v_user_id v) (PairTable.v_target_id v))
    rows' = rows.
Proof.
  intros H. destruct (insert_ok _ _ _ _ _ H) as (-> & Ho & Hp & _).
  unfold PairTable.delete. rewrite filter_app. cbn [filter].
  rewrite Ho. unfold PairTable.pair_is at 2.
  cbn [PairTable.with_defaults PairTable.user_id PairTable.target_id].
  rewrite !String.eqb_refl. cbn [andb negb]. rewrite app_nil_r.
  apply forallb_filter_id. apply forallb_forall. intros q Hq.
  specialize (Hp q Hq). unfold PairTable.same_pair in Hp.
  cbn [PairTable.with_defaults PairTable.user_id PairTable.target_id] in Hp.
  unfold PairTable.pair_is.
  rewrite (String.eqb_sym (PairTable.user_id q)),
          (String.eqb_sym (PairTable.target_id q)), Hp.
  now rewrite andb_false_r.
Qed.

(** A delete reaches the caller's own rows only: a row survives a delete
    exactly when it was in the table and either belongs to another user
    than the session's or is not selected by the condition; so a session
    that is not signed in deletes nothing, whatever the condition. *)
Theorem delete_spares_other_users (s : session)
    (where_ : PairTable.row -> bool) (rows : list PairTable.row) :
  (forall r, In r (PairTable.delete s where_ rows) <->
             In r rows /\
             (auth_uid s <> Some (PairTable.user_id r) \/ where_ r = false)) /\
  (auth_uid s = None -> PairTable.delete s where_ rows = rows).
Proof.
  split.
  - intros r. unfold PairTable.delete. rewrite filter_In, negb_true_iff,
      andb_false_iff. rewrite <- own_iff.
    destruct (PairTable.own s r); intuition congruence.
  - intros Hnone. unfold PairTable.delete. apply forallb_filter_id.
    apply forallb_forall. intros q _. unfold PairTable.own, is_auth_uid.
    now rewrite Hnone.
Qed.

End PairTableMore.

(** ** Home: the top bar and the age of a post *)

Section HomeMore.
Local Open Scope string_scope.

Lemma handleScroll_hidden (st : Home.scroll_state) (y : Q) :
  (Home.showTopBar st = false -> (100 < Home.lastScrollY st)%Q) ->
  Home.showTopBar (Home.handleScroll st y) = false ->
  (100 < Home.lastScrollY (Home.handleScroll st y))%Q.
Proof.
  unfold Home.handleScroll, Home.lt.
  cbn [Home.showTopBar Home.lastScrollY]. intros IH.
  destruct (Qlt_le_dec y 10); [discriminate|].
  destruct (Qlt_le_dec (Home.lastScrollY st) y); cbn [andb].
  - destruct (Qlt_le_dec 100 y); [auto|].
    destruct (Qlt_le_dec y (Home.lastScrollY st)); [discriminate|].
    intros H. apply IH in H. eapply Qlt_le_trans; eassumption.
  - destruct (Qlt_le_dec y (Home.lastScrollY st)); [discriminate|].
    intros H. apply IH in H. eapply Qlt_le_trans; eassumption.
Qed.

Lemma scrolled_snoc (events : list Q) (y : Q) :
  Home.scrolled (events ++ [y]) = Home.handleScroll (Home.scrolled events) y.
Proof. unfold Home.scrolled. now rewrite fold_left_app. Qed.

(** The top bar is never hidden near the top of the page: after any
    sequence of scroll events, if the bar is hidden then the page is
    scrolled more than 100 pixels down. *)
Theorem top_bar_hidden_only_past_threshold (events : list Q) :
  Home.showTopBar (Home.scrolled events) = false ->
  (100 < Home.lastScrollY (Home.scrolled events))%Q.
Proof.
  induction events as [|y events IH] using rev_ind.
  - discriminate.
  - rewrite scrolled_snoc. now apply handleScroll_hidden.
Qed.

(** As long as the quotient leaves room for the fraction, the floor of
    the rounded quotient is the integer quotient. *)
Lemma seconds_exact (a : Z) :
  (0 <= a < 2 ^ 43 * 1000)%Z ->
  Binary64.floor_div (Binary64.round (inject_Z a)) 1000 = (a / 1000)%Z.
Proof.
  intros Ha.
  assert (Hb : (2 ^ 43 * 1000 < 2 ^ 53)%Z) by reflexivity.
  rewrite round_Z by lia.
  apply (floor_div_exact a 1000 10); [lia | split; [lia | discriminate] | lia |].
  assert ((a / 1000 < 2 ^ 43)%Z) by (apply Z.div_lt_upper_bound; lia).
  change (2 ^ 53)%Z with (2 ^ 43 * 2 ^ 10)%Z. nia.
Qed.

Lemma unit_exact (k c j : Z) :
  (0 <= k < 2 ^ 43)%Z -> (0 < c <= 2 ^ j)%Z -> (0 <= j <= 10)%Z ->
  Binary64.floor_div (inject_Z k) c = (k / c)%Z.
Proof.
  intros Hk Hc Hj. apply (floor_div_exact k c j); [lia | exact Hc | lia |].
  assert (Hq : (0 <= k / c <= k)%Z).
  { split; [apply Z.div_pos; lia|]. apply Z.div_le_upper_bound; nia. }
  assert (Hp : (2 ^ j <= 2 ^ 10)%Z) by (apply Z.pow_le_mono_r; lia).
  assert (Hp0 : (0 < 2 ^ j)%Z) by (apply Z.pow_pos_nonneg; lia).
  change (2 ^ 53)%Z with (2 ^ 43 * 2 ^ 10)%Z. nia.
Qed.

(** The age of a post is its elapsed time rounded down to one unit, for
    valid dates less than [2^43] seconds (some 278 000 years) in the past,
    where the rounding of the arithmetic does not show: with [s] the whole
    seconds elapsed, the label is ["just now"] below a minute (and for a
    date in the future), the whole minutes, 1 to 59, below an hour, the
    whole hours, 1 to 23, below a day, the whole days, 1 to 6, below a
    week, and the whole weeks, at least 1, from then on; each number is
    [s] divided by the length of the unit, rounded down. *)
Theorem getTimeAgo_rounds_down (now t : Z) :
  Home.time_value now -> Home.time_value t ->
  (now - t < 2 ^ 43 * 1000)%Z ->
  let s := ((now - t) / 1000)%Z in
  let label := Home.getTimeAgo now (Some t) in
  ((s < 60)%Z -> label = "just now") /\
  ((60 <= s < 3600)%Z ->
   label = Home.number (s / 60) ++ "m ago" /\ (1 <= s / 60 <= 59)%Z) /\
  ((3600 <= s < 86400)%Z ->
   label = Home.number (s / 3600) ++ "h ago" /\ (1 <= s / 3600 <= 23)%Z) /\
  ((86400 <= s < 604800)%Z ->
   label = Home.number (s / 86400) ++ "d ago" /\ (1 <= s / 86400 <= 6)%Z) /\
  ((604800 <= s)%Z ->
   label = Home.number (s / 604800) ++ "w ago" /\ (1 <= s / 604800)%Z).
Proof.
  intros _ _ Hrange s label. subst label. unfold Home.getTimeAgo. cbv zeta.
  assert (Ea : (inject_Z now - inject_Z t == inject_Z (now - t))%Q)
    by (now rewrite inject_Z_sub).
  rewrite (round_comp _ _ Ea).
  destruct (Z.lt_ge_cases (now - t) 0) as [Hneg | Hpos].
  - (* a date in the future *)
    assert (Hs : (s < 0)%Z) by (unfold s; apply Z.div_lt_upper_bound; lia).
    assert (Hel : (Binary64.round (inject_Z (now - t)) <= 0)%Q).
    { change (0%Q) with (Binary64.round 0). apply round_mono.
      rewrite <- (Zle_Qle _ 0). lia. }
    pose proof (floor_div_nonpos _ 1000 Hel eq_refl) as Hsec.
    destruct (Z.ltb_spec
                (Binary64.floor_div (Binary64.round (inject_Z (now - t))) 1000)
                60) as [_ | Hge]; [|lia].
    repeat split; intros; try reflexivity; lia.
  - rewrite seconds_exact by lia. fold s.
    assert (Hs : (0 <= s < 2 ^ 43)%Z).
    { unfold s. split; [apply Z.div_pos; lia|].
      apply Z.div_lt_upper_bound; lia. }
    assert (Hm : (0 <= s / 60 < 2 ^ 43)%Z)
      by (split; [apply Z.div_pos; lia | apply Z.div_lt_upper_bound; lia]).
    assert (Hh' : (0 <= s / 60 / 60 < 2 ^ 43)%Z)
      by (split; [apply Z.div_pos; lia | apply Z.div_lt_upper_bound; lia]).
    assert (Hd' : (0 <= s / 60 / 60 / 24 < 2 ^ 43)%Z)
      by (split; [apply Z.div_pos; lia | apply Z.div_lt_upper_bound; lia]).
    rewrite (unit_exact s 60 6) by (try split; try lia; discriminate).
    rewrite (unit_exact (s / 60) 60 6) by (try split; try lia; discriminate).
    rewrite (unit_exact (s / 60 / 60) 24 5)
      by (try split; try lia; discriminate).
    rewrite (unit_exact (s / 60 / 60 / 24) 7 3)
      by (try split; try lia; discriminate).
    assert (Hh : (s / 60 / 60 = s / 3600)%Z)
      by (rewrite Z.div_div by lia; reflexivity).
    assert (Hd : (s / 60 / 60 / 24 = s / 86400)%Z)
      by (rewrite Hh, Z.div_div by lia; reflexivity).
    assert (Hw : (s / 60 / 60 / 24 / 7 = s / 604800)%Z)
      by (rewrite Hd, Z.div_div by lia; reflexivity).
    rewrite Hw, Hd, Hh.
    clear Hm Hh' Hd' Hh Hd Hw Ea Hrange Hpos.
    repeat split; intros;
      repeat match goal with
             | |- context [(?a <? ?b)%Z] => destruct (Z.ltb_spec a b)
             end;
      try reflexivity;
      try (exfalso; Z.to_euclidean_division_equations; lia);
      try (Z.to_euclidean_division_equations; lia).
Qed.

End HomeMore.

(** ** The further properties at concrete inputs *)

Lemma busy_flags_are_cleared_witness :
  let be : FeedCard.backend := fun _ =>
    FeedCard.Fulfilled
      {| FeedCard.user := Some "u1"%string;
         FeedCard.display_name := Some "Ann"%string;
         FeedCard.error := None |} in
  let p := {| FeedCard.id := "p1"%string; FeedCard.authorId := "u2"%string;
              FeedCard.content_url := None |} in
  In (FeedCard.SetSubmittingComment true)
     (fst (FeedCard.handleAddComment be p "hi")) /\
  FeedCard.last_event (fst (FeedCard.handleAddComment be p "hi")) =
  Some (FeedCard.SetSubmittingComment false).
Proof.
  intros be p.
  assert (Hin : In (FeedCard.SetSubmittingComment true)
                   (fst (FeedCard.handleAddComment be p "hi")))
    by (vm_compute; tauto).
  split; [exact Hin |].
  exact (proj1 (proj2 (busy_flags_are_cleared be p)) "hi"%string Hin).
Defined.

Lemma unauthenticated_handlers_write_nothing_witness :
  let nobody := {| FeedCard.user := None;
                   FeedCard.display_name := None;
                   FeedCard.error := None |} in
  let be : FeedCard.backend := fun _ => FeedCard.Fulfilled nobody in
  let p := {| FeedCard.id := "p1"%string; FeedCard.authorId := "u2"%string;
              FeedCard.content_url := None |} in
  FeedCard.handleTogglePin be p false =
  ([FeedCard.Request FeedCard.AuthGetUser;
    FeedCard.Toast "Not authenticated" "Please log in to pin posts"
      FeedCard.destructive],
   inr tt).
Proof.
  intros nobody be p.
  exact (proj2 (proj2 (unauthenticated_handlers_write_nothing
                         be p nobody eq_refl eq_refl)) false).
Defined.

Lemma blank_comments_are_not_sent_witness :
  let be : FeedCard.backend := fun _ => FeedCard.Rejects "Failed to fetch" in
  let p := {| FeedCard.id := "p1"%string; FeedCard.authorId := "u2"%string;
              FeedCard.content_url := None |} in
  JS.truthy (JS.trim "   ") = false /\
  FeedCard.handleAddComment be p "   " = ([], inr tt).
Proof.
  intros be p. split; [reflexivity |].
  exact (proj1 (blank_comments_are_not_sent be p "   "%string) eq_refl).
Defined.

Lemma handleLike_ignores_error_results_witness :
  let refused := {| FeedCard.user := Some "u1"%string;
                    FeedCard.display_name := None;
                    FeedCard.error := Some "permission denied"%string |} in
  let be : FeedCard.backend := fun _ => FeedCard.Fulfilled refused in
  let p := {| FeedCard.id := "p1"%string; FeedCard.authorId := "u2"%string;
              FeedCard.content_url := None |} in
  FeedCard.completes (FeedCard.handleLike be p false) /\
  FeedCard.toasts (fst (FeedCard.handleLike be p false)) = [] /\
  exists message,
    FeedCard.notifications_inserted (fst (FeedCard.handleLike be p false)) =
    [[("user_id", "u2"); ("type", "like"); ("title", "New Like");
      ("message", message); ("actor_id", "u1"); ("post_id", "p1")]]%string.
Proof.
  intros refused be p.
  assert (Hok : forall r, exists v, be r = FeedCard.Fulfilled v)
    by (intros r; eexists; reflexivity).
  destruct (handleLike_ignores_error_results be p Hok false)
    as (Hc & _ & Huser & _).
  destruct (Huser refused "u1"%string eq_refl eq_refl) as [Ht Hnote].
  split; [exact Hc |]. split; [exact Ht |].
  apply Hnote; [discriminate | reflexivity].
Defined.

Lemma refused_comment_is_not_announced_witness :
  let me := {| FeedCard.user := Some "u1"%string;
               FeedCard.display_name := None;
               FeedCard.error := None |} in
  let refused := {| FeedCard.user := None;
                    FeedCard.display_name := None;
                    FeedCard.error := Some "permission denied"%string |} in
  let be : FeedCard.backend := fun r =>
    match r with
    | FeedCard.AuthGetUser => FeedCard.Fulfilled me
    | _ => FeedCard.Fulfilled refused
    end in
  let p := {| FeedCard.id := "p1"%string; FeedCard.authorId := "u2"%string;
              FeedCard.content_url := None |} in
  let c := FeedCard.handleAddComment be p " nice " in
  FeedCard.completes c /\
  FeedCard.notifications_inserted (fst c) = [] /\
  ~ In (FeedCard.SetNewComment "") (fst c) /\
  FeedCard.toasts (fst c) =
  [FeedCard.Toast "Error" "Failed to add comment" FeedCard.destructive].
Proof.
  intros me refused be p.
  exact (refused_comment_is_not_announced be p "u1"%string " nice "%string
           me refused "permission denied"%string
           eq_refl eq_refl eq_refl eq_refl eq_refl).
Defined.

Lemma parent_notified_only_after_delete_witness :
  let ok := {| FeedCard.user := Some "u1"%string;
               FeedCard.display_name := None;
               FeedCard.error := None |} in
  let be : FeedCard.backend := fun _ => FeedCard.Fulfilled ok in
  let p := {| FeedCard.id := "p1"%string; FeedCard.authorId := "u1"%string;
              FeedCard.content_url := None |} in
  In (FeedCard.OnPostDeleted "p1") (fst (FeedCard.handleDeletePost be p true)).
Proof.
  intros ok be p.
  apply (proj2 (parent_notified_only_after_delete be p true) eq_refl).
  - intros (r & reason & _ & Hr). discriminate Hr.
  - exists ok. split; reflexivity.
Defined.

Lemma toggleCommentLike_fails_silently_witness :
  let be : FeedCard.backend := fun _ => FeedCard.Rejects "Failed to fetch" in
  let comments := [ {| FeedCard.comment_id := "c1"%string;
                       FeedCard.liked := false |} ] in
  let c := FeedCard.toggleCommentLike be (Some "u1"%string) comments "c1" in
  snd c = inr false /\
  In (FeedCard.ConsoleError "Error toggling comment like:") (fst c) /\
  FeedCard.toasts (fst c) = [].
Proof.
  intros be comments c.
  destruct (toggleCommentLike_fails_silently be (Some "u1"%string) comments
              "c1"%string) as (_ & _ & _ & _ & _ & Hrej).
  apply (Hrej (FeedCard.Insert "comment_likes"
                 [("comment_id", "c1"); ("user_id", "u1")]%string)
              "Failed to fetch"%string).
  - vm_compute. tauto.
  - reflexivity.
Defined.

Lemma storage_path_of_public_url_witness :
  let be : FeedCard.backend := fun _ => FeedCard.Rejects "Failed to fetch" in
  let p := {| FeedCard.id := "p1"%string; FeedCard.authorId := "u1"%string;
              FeedCard.content_url :=
                Some "https://x.supabase.co/storage/v1/object/public/posts/u1/7.png"%string |} in
  exists rest,
    fst (FeedCard.handleDeletePost be p false) =
    FeedCard.SetDeleting true
      :: FeedCard.Request
           (FeedCard.StorageRemove (Some "posts"%string) ["u1/7.png"%string])
      :: rest.
Proof.
  intros be p.
  exact (storage_path_of_public_url be p false
           "https://x.supabase.co/storage/v1/object/public"%string
           "posts"%string "u1"%string "7.png"%string
           eq_refl eq_refl eq_refl eq_refl).
Defined.

Lemma insert_post_succeeds_iff_witness :
  let d := {| Database.profiles_table :=
                [ {| Database.profiles.user_id := "u1"%string;
                     Database.profiles.rewards := 250 |} ];
              Database.posts_table := [];
              Database.notifications_table := [];
              Database.stories_table := [] |} in
  let v := {| Database.posts.v_id := None;
              Database.posts.v_user_id := "u1"%string;
              Database.posts.v_content_type := "audio"%string;
              Database.posts.v_content_url := None;
              Database.posts.v_caption := None;
              Database.posts.v_created_at := None;
              Database.posts.v_updated_at := None;
              Database.posts.v_is_spark := None |} in
  let s := {| Database.now := 1000; Database.auth_uid := Some "u1"%string |} in
  ~ exists d', Batch.insert_post_as s "p1" v d = Database.Ok d'.
Proof.
  intros d v s H.
  apply (proj1 (proj1 (insert_post_succeeds_iff s "p1"%string v d))) in H.
  destruct H as (_ & H & _). vm_compute in H. discriminate H.
Defined.

Lemma rewards_ceiling_blocks_posting_witness :
  let rich := {| Database.profiles.user_id := "u1"%string;
                 Database.profiles.rewards := 9999999950 |} in
  let d := {| Database.profiles_table := [rich];
              Database.posts_table := [];
              Database.notifications_table := [];
              Database.stories_table := [] |} in
  let v := {| Database.posts.v_id := None;
              Database.posts.v_user_id := "u1"%string;
              Database.posts.v_content_type := "text"%string;
              Database.posts.v_content_url := None;
              Database.posts.v_caption := Some "hello"%string;
              Database.posts.v_created_at := None;
              Database.posts.v_updated_at := None;
              Database.posts.v_is_spark := None |} in
  let s := {| Database.now := 1000; Database.auth_uid := Some "u1"%string |} in
  Batch.insert_post_as s "p1" v d =
  Database.Error Database.numeric_value_out_of_range.
Proof.
  intros rich d v s.
  apply (rewards_ceiling_blocks_posting s "p1"%string v d rich).
  - reflexivity.
  - reflexivity.
  - reflexivity.
  - vm_compute. discriminate.
Defined.

Lemma rewards_add_up_witness :
  let d := {| Database.profiles_table :=
                [ {| Database.profiles.user_id := "u1"%string;
                     Database.profiles.rewards := 250 |};
                  {| Database.profiles.user_id := "u2"%string;
                     Database.profiles.rewards := 0 |} ];
              Database.posts_table := [];
              Database.notifications_table := [];
              Database.stories_table := [] |} in
  let row := fun uid spark =>
    {| Database.posts.v_id := None;
       Database.posts.v_user_id := uid;
       Database.posts.v_content_type := "video"%string;
       Database.posts.v_content_url := None;
       Database.posts.v_caption := None;
       Database.posts.v_created_at := None;
       Database.posts.v_updated_at := None;
       Database.posts.v_is_spark := Some spark |} in
  let at_ := fun t uid =>
    {| Database.now := t; Database.auth_uid := Some uid |} in
  let batch := [ (at_ 1000 "u1"%string, "p1"%string, row "u1"%string true);
                 (at_ 1001 "u2"%string, "p2"%string, row "u2"%string false);
                 (at_ 1002 "u1"%string, "p3"%string, row "u1"%string false) ] in
  exists d',
    Batch.insert_posts batch d = Database.Ok d' /\
    Database.profiles.lookup "u1" (Database.profiles_table d') =
    Some {| Database.profiles.user_id := "u1"%string;
            Database.profiles.rewards := 400 |} /\
    List.length (Database.notifications_table d') = 3%nat.
Proof.
  intros d row at_ batch. eexists. split; [reflexivity |].
  match goal with
  | |- context [Database.profiles_table ?x] => set (d' := x)
  end.
  destruct (rewards_add_up batch d d' eq_refl) as (Hl & Hn & _).
  split; [exact (Hl "u1"%string _ eq_refl) | exact Hn].
Defined.

Lemma stories_are_owner_only_witness :
  let s := {| Database.now := 1000; Database.auth_uid := Some "u1"%string |} in
  let d := {| Database.profiles_table :=
                [ {| Database.profiles.user_id := "u2"%string;
                     Database.profiles.rewards := 0 |} ];
              Database.posts_table := [];
              Database.notifications_table := [];
              Database.stories_table := [] |} in
  let v := {| Database.stories.v_id := None;
              Database.stories.v_user_id := "u2"%string;
              Database.stories.v_content_url := "https://x/y.mp4"%string;
              Database.stories.v_content_type := "video"%string;
              Database.stories.v_caption := None;
              Database.stories.v_created_at := None;
              Database.stories.v_expires_at := None |} in
  Database.insert_story s "s1" v d =
  Database.Error Database.insufficient_privilege.
Proof.
  intros s d v.
  apply (proj2 (proj2 (proj2 (stories_are_owner_only s))) "s1"%string v d).
  discriminate.
Defined.

Lemma one_row_per_pair_witness :
  let like := {| PairTable.id := "l1"%string;
                 PairTable.user_id := "u1"%string;
                 PairTable.target_id := "c1"%string;
                 PairTable.created_at := 1000 |} in
  let s := {| Database.now := 2000; Database.auth_uid := Some "u1"%string |} in
  let again := {| PairTable.v_id := None;
                  PairTable.v_user_id := "u1"%string;
                  PairTable.v_target_id := "c1"%string;
                  PairTable.v_created_at := None |} in
  exists e, PairTable.insert s "l2" again [like] = Database.Error e.
Proof.
  intros like s again.
  assert (Hnd : NoDup (PairTable.pairs [like]))
    by (constructor; [intros [] | constructor]).
  apply (proj2 (proj2 (one_row_per_pair [like] Hnd)) s "l2"%string again).
  left. reflexivity.
Defined.

Lemma insert_then_delete_restores_witness :
  let other := {| PairTable.id := "l1"%string;
                  PairTable.user_id := "u2"%string;
                  PairTable.target_id := "c1"%string;
                  PairTable.created_at := 1000 |} in
  let s := {| Database.now := 2000; Database.auth_uid := Some "u1"%string |} in
  let v := {| PairTable.v_id := None;
              PairTable.v_user_id := "u1"%string;
              PairTable.v_target_id := "c1"%string;
              PairTable.v_created_at := None |} in
  exists rows',
    PairTable.insert s "l2" v [other] = Database.Ok rows' /\
    PairTable.delete s (PairTable.pair_is "u1" "c1") rows' = [other].
Proof.
  intros other s v. eexists. split; [reflexivity |].
  exact (insert_then_delete_restores s "l2"%string v [other] _ eq_refl).
Defined.

Lemma delete_spares_other_users_witness :
  let like := {| PairTable.id := "l1"%string;
                 PairTable.user_id := "u1"%string;
                 PairTable.target_id := "c1"%string;
                 PairTable.created_at := 1000 |} in
  let s := {| Database.now := 2000; Database.auth_uid := None |} in
  PairTable.delete s (fun _ => true) [like] = [like].
Proof.
  intros like s.
  exact (proj2 (delete_spares_other_users s (fun _ => true) [like]) eq_refl).
Defined.

Lemma top_bar_hidden_only_past_threshold_witness :
  Home.showTopBar (Home.scrolled [50%Q; 150%Q; 120.5%Q; 130%Q]) = false /\
  (100 < Home.lastScrollY (Home.scrolled [50%Q; 150%Q; 120.5%Q; 130%Q]))%Q.
Proof.
  assert (H : Home.showTopBar (Home.scrolled [50%Q; 150%Q; 120.5%Q; 130%Q])
              = false) by reflexivity.
  split; [exact H |].
  exact (top_bar_hidden_only_past_threshold _ H).
Defined.

Lemma getTimeAgo_rounds_down_witness :
  Home.getTimeAgo 1762041600000 (Some 1762034099001) = "2h ago"%string.
Proof.
  assert (Hnow : Home.time_value 1762041600000) by (vm_compute; discriminate).
  assert (Ht : Home.time_value 1762034099001) by (vm_compute; discriminate).
  destruct (getTimeAgo_rounds_down 1762041600000 1762034099001 Hnow Ht
              eq_refl) as (_ & _ & Hh & _).
  destruct Hh as [Hl _]; [vm_compute; split; [discriminate | reflexivity] |].
  exact Hl.
Defined.
